(** * Distance-vector router (lab02/roteador.py): a shallow embedding

    The development follows the Python source function by function.

    Models:
    - [PyDict]: Python's insertion-ordered [dict], as an association list
      with unique keys; the order of the keys is the order of first
      insertion, which the summarizer's tie-break depends on.
    - [Json]: the values Flask's [request.json] can hold, and the
      exceptions the endpoint lets escape.
    - [Ipaddress]: the part of CPython's [Lib/ipaddress.py] the router
      calls ([ip_network], [collapse_addresses], [subnet_of], [str]), for
      IPv4.  Of [IPv6Network] only the first checks are followed: a text
      they let through is reported as such by [ip_network], and a table
      with such a key has no summary in this model.
    - [Roteador]: [Router.__init__], [summarize_table],
      [send_updates_to_neighbors] and the [receive_update] endpoint.

    - [PySeq], [Crc], [BenchmarkCrc]: the bitwise CRC of
      lab01/deteccao_de_erro ([codigo.py]), with Python's indexing and
      slicing of texts and lists, and the CRC-16 of [benchmark_crc.py].

    Statements: [RelaxSpec], [IpSpec], [SummarizeSpec] and [Exemplos] hold
    the vocabulary and the example routers; the modules named [...Facts]
    hold the lemmas; the properties of the specification, C1 to C10, come
    after them, and the further properties of the code, from X1 on, close
    the file.

    Integers are Python integers (unbounded), hence [Z]; bit operations are
    [Z.land], [Z.lor], [Z.lxor], [Z.shiftl] and [Z.shiftr].  The timer
    thread and the HTTP transport are not modelled: one call of
    [send_updates_to_neighbors] or of [receive_update] runs alone. *)

From Stdlib Require Import ZArith String Ascii List Bool Lia Permutation.
From Stdlib Require Import Sorting.Sorted DecimalString.
Import ListNotations.

Open Scope string_scope.
Open Scope list_scope.
Open Scope Z_scope.

(* ================================================================== *)
(** * Python dictionaries *)
(* ================================================================== *)

Module PyDict.
Section Dict.
Context {K V : Type}.
Variable K_eq_dec : forall a b : K, {a = b} + {a <> b}.

(** Items in insertion order. *)
Definition dict := list (K * V).

Definition keys (d : dict) : list K := map fst d.
Definition values (d : dict) : list V := map snd d.

(** [d.get(k)] *)
Fixpoint get (d : dict) (k : K) : option V :=
  match d with
  | [] => None
  | (k', v) :: d' => if K_eq_dec k' k then Some v else get d' k
  end.

(** [k in d] *)
Definition contains (d : dict) (k : K) : bool :=
  match get d k with Some _ => true | None => false end.

(** [d[k] = v]: an existing key keeps its position, a new one goes last. *)
Fixpoint set (d : dict) (k : K) (v : V) : dict :=
  match d with
  | [] => [(k, v)]
  | (k', v') :: d' =>
      if K_eq_dec k' k then (k', v) :: d' else (k', v') :: set d' k v
  end.

(** [del d[k]] (on a key that is present) *)
Fixpoint del (d : dict) (k : K) : dict :=
  match d with
  | [] => []
  | (k', v') :: d' =>
      if K_eq_dec k' k then d' else (k', v') :: del d' k
  end.

(** A dictionary has each key once. *)
Definition wf (d : dict) : Prop := NoDup (keys d).

End Dict.
Arguments dict : clear implicits.
End PyDict.

(* ================================================================== *)
(** * JSON values *)
(* ================================================================== *)

Module Json.

(** What [request.json] can be once Flask has decoded the body.  A JSON
    object is a Python [dict]; numbers are the integers (a body with a
    fractional number is outside the model). *)
#[local] Unset Elimination Schemes.
Inductive json : Type :=
| JNull
| JBool (b : bool)
| JNum (n : Z)
| JStr (s : string)
| JArr (l : list json)
| JObj (o : PyDict.dict string json).
#[local] Set Elimination Schemes.

(** Python truth value: [not x] is [negb (truthy x)]. *)
Definition truthy (j : json) : bool :=
  match j with
  | JNull => false
  | JBool b => b
  | JNum n => negb (n =? 0)
  | JStr s => negb (String.eqb s "")
  | JArr l => match l with [] => false | _ :: _ => true end
  | JObj o => match o with [] => false | _ :: _ => true end
  end.

(** [isinstance(x, dict)] *)
Definition is_dict (j : json) : bool :=
  match j with JObj _ => true | _ => false end.

(** Exceptions the endpoint can let escape. *)
Inductive exn : Type := AttributeError | TypeError.

Inductive result (A : Type) : Type :=
| Ok (a : A)
| Raise (e : exn).
Arguments Ok {A} a.
Arguments Raise {A} e.

(** [x.get(key)] : [None] when the key is absent, [AttributeError] when
    [x] is not a dict. *)
Definition py_get (x : json) (key : string) : result json :=
  match x with
  | JObj o =>
      Ok (match PyDict.get string_dec o key with Some v => v | None => JNull end)
  | _ => Raise AttributeError
  end.

(** [x.get(key, default)] *)
Definition py_get_default (x : json) (key : string) (default : json)
  : result json :=
  match x with
  | JObj o =>
      Ok (match PyDict.get string_dec o key with Some v => v | None => default end)
  | _ => Raise AttributeError
  end.

(** [a + x] for an [int] [a]: defined on numbers and on booleans (a
    Python [bool] is an [int]), [TypeError] otherwise. *)
Definition int_add (a : Z) (x : json) : result Z :=
  match x with
  | JNum n => Ok (a + n)
  | JBool b => Ok (a + Z.b2z b)
  | _ => Raise TypeError
  end.

End Json.

(* ================================================================== *)
(** * CPython's [ipaddress] module, IPv4 *)
(* ================================================================== *)

(** The router calls [ipaddress.ip_network(net, strict=False)],
    [ipaddress.collapse_addresses], [subnet_of] and [str] of a network.
    The definitions below follow [Lib/ipaddress.py] (CPython 3.11), with
    the names it uses.  [ip_network] tries [IPv4Network], then
    [IPv6Network]; the former is followed in full, the latter up to the
    check that an IPv6 address has two colons at least. *)

Module Ipaddress.

Definition IPV4LENGTH : Z := 32.
Definition _ALL_ONES : Z := 2 ^ IPV4LENGTH - 1.
Definition _max_prefixlen : Z := IPV4LENGTH.

(** An [IPv4Network]: the integer of its network address and its prefix
    length; the netmask is a function of the latter. *)
Record IPv4Network : Type := mkNet { network_address : Z; prefixlen : Z }.

Definition net_eq_dec (a b : IPv4Network) : {a = b} + {a <> b}.
Proof. decide equality; apply Z.eq_dec. Defined.

Definition net_eqb (a b : IPv4Network) : bool :=
  if net_eq_dec a b then true else false.

Definition _ip_int_from_prefix (prefixlen : Z) : Z :=
  Z.lxor _ALL_ONES (Z.shiftr _ALL_ONES prefixlen).

Definition netmask (n : IPv4Network) : Z := _ip_int_from_prefix (prefixlen n).
Definition hostmask (n : IPv4Network) : Z := Z.lxor (netmask n) _ALL_ONES.
Definition broadcast_address (n : IPv4Network) : Z :=
  Z.lor (network_address n) (hostmask n).

(** [int.bit_length] *)
Definition bit_length (x : Z) : Z :=
  if x =? 0 then 0 else Z.log2 (Z.abs x) + 1.

Definition _count_righthand_zero_bits (number bits : Z) : Z :=
  if number =? 0 then bits
  else Z.min bits (bit_length (Z.land (Z.lnot number) (number - 1))).

(** [None] stands for the [ValueError] "mixes zeroes & ones". *)
Definition _prefix_from_ip_int (ip_int : Z) : option Z :=
  let trailing_zeroes := _count_righthand_zero_bits ip_int _max_prefixlen in
  let prefixlen := _max_prefixlen - trailing_zeroes in
  let leading_ones := Z.shiftr ip_int trailing_zeroes in
  let all_ones := Z.shiftl 1 prefixlen - 1 in
  if negb (leading_ones =? all_ones) then None else Some prefixlen.

(** ** Strings *)

(** [s.split(sep)] for a one-character separator. *)
Fixpoint split (sep : ascii) (s : string) : list string :=
  match s with
  | EmptyString => [EmptyString]
  | String c s' =>
      if Ascii.eqb c sep then EmptyString :: split sep s'
      else match split sep s' with
           | h :: t => String c h :: t
           | [] => [String c EmptyString]
           end
  end.

Definition is_digit (c : ascii) : bool :=
  ((48 <=? nat_of_ascii c) && (nat_of_ascii c <=? 57))%nat.

Fixpoint all_digits (s : string) : bool :=
  match s with
  | EmptyString => true
  | String c s' => is_digit c && all_digits s'
  end.

(** [s.isascii() and s.isdigit()]; [isdigit] is false on the empty
    string. *)
Definition isascii_isdigit (s : string) : bool :=
  match s with
  | EmptyString => false
  | _ => all_digits s
  end.

Fixpoint int_digits (acc : Z) (s : string) : Z :=
  match s with
  | EmptyString => acc
  | String c s' => int_digits (10 * acc + (Z.of_nat (nat_of_ascii c) - 48)) s'
  end.

(** The interpreter's limit on the length of a decimal literal
    ([sys.int_info.default_max_str_digits]). *)
Definition max_str_digits : nat := 4300.

(** [int(s)] on a string of ASCII digits; [None] is the [ValueError] of a
    literal longer than the limit. *)
Definition py_int (s : string) : option Z :=
  if (max_str_digits <? String.length s)%nat then None
  else Some (int_digits 0 s).

(** [str(n)] for an integer. *)
Definition py_str (n : Z) : string := NilZero.string_of_int (Z.to_int n).

(** ['.'.join(l)] *)
Fixpoint join (sep : string) (l : list string) : string :=
  match l with
  | [] => EmptyString
  | [x] => x
  | x :: rest => (x ++ sep ++ join sep rest)%string
  end.

(** ** Parsing an address and a mask *)

Definition _parse_octet (octet_str : string) : option Z :=
  if String.eqb octet_str "" then None
  else if negb (isascii_isdigit octet_str) then None
  else if (3 <? String.length octet_str)%nat then None
  else if negb (String.eqb octet_str "0")
          && (match octet_str with String c _ => Ascii.eqb c "0" | _ => false end)
  then None
  else
    let octet_int := int_digits 0 octet_str in
    if octet_int >? 255 then None else Some octet_int.

(** [int.from_bytes(map(_parse_octet, octets), 'big')] *)
Fixpoint from_octets (acc : Z) (octets : list string) : option Z :=
  match octets with
  | [] => Some acc
  | o :: rest =>
      match _parse_octet o with
      | None => None
      | Some b => from_octets (256 * acc + b) rest
      end
  end.

Definition _ip_int_from_string (ip_str : string) : option Z :=
  if String.eqb ip_str "" then None
  else
    let octets := split "." ip_str in
    if negb (length octets =? 4)%nat then None
    else from_octets 0 octets.

Fixpoint contains_char (c : ascii) (s : string) : bool :=
  match s with
  | EmptyString => false
  | String c' s' => Ascii.eqb c' c || contains_char c s'
  end.

(** [IPv4Address(addr_str)._ip] *)
Definition IPv4Address (addr_str : string) : option Z :=
  if contains_char "/" addr_str then None
  else _ip_int_from_string addr_str.

Definition _prefix_from_prefix_string (prefixlen_str : string) : option Z :=
  if negb (isascii_isdigit prefixlen_str) then None
  else
    match py_int prefixlen_str with
    | None => None
    | Some prefixlen =>
        if negb ((0 <=? prefixlen) && (prefixlen <=? _max_prefixlen)) then None
        else Some prefixlen
    end.

Definition _prefix_from_ip_string (ip_str : string) : option Z :=
  match _ip_int_from_string ip_str with
  | None => None
  | Some ip_int =>
      match _prefix_from_ip_int ip_int with
      | Some p => Some p
      | None => _prefix_from_ip_int (Z.lxor ip_int _ALL_ONES)
      end
  end.

(** [_make_netmask] on the text after the slash: the prefix length. *)
Definition _make_netmask (arg : string) : option Z :=
  match _prefix_from_prefix_string arg with
  | Some p => Some p
  | None => _prefix_from_ip_string arg
  end.

(** [IPv4Network(address, strict=False)]; [None] stands for
    [AddressValueError] and [NetmaskValueError]. *)
Definition IPv4Network_of_string (address : string) : option IPv4Network :=
  let parts := split "/" address in
  if (2 <? length parts)%nat then None
  else
    match parts with
    | [] => None
    | addr :: rest =>
        match IPv4Address addr with
        | None => None
        | Some packed =>
            match (match rest with
                   | mask :: _ => _make_netmask mask
                   | [] => Some _max_prefixlen
                   end) with
            | None => None
            | Some prefixlen =>
                let netmask := _ip_int_from_prefix prefixlen in
                if negb (Z.land packed netmask =? packed)
                then Some (mkNet (Z.land packed netmask) prefixlen)
                else Some (mkNet packed prefixlen)
            end
        end
    end.

(** ** IPv6: the first checks of the constructor *)

(** [IPv6Address._split_scope_id]: the address before the first ['%'];
    [None] is the [AddressValueError] of an empty scope or of a second
    ['%']. *)
Definition _split_scope_id (ip_str : string) : option string :=
  match split "%" ip_str with
  | [addr] => Some addr
  | [addr; scope_id] => if String.eqb scope_id "" then None else Some addr
  | _ => None
  end.

(** [IPv6Network(address, strict=False)], as far as the check of
    [_ip_int_from_string] that an address has three parts between colons
    at least.  [true]: the constructor raises [AddressValueError] there or
    before, on a second slash, a bad scope or an empty address.  [false]:
    the text passes these checks, and what the constructor makes of it is
    not modelled. *)
Definition IPv6Network_refuses (address : string) : bool :=
  let parts := split "/" address in
  if (2 <? length parts)%nat then true
  else
    match parts with
    | [] => true
    | addr :: _ =>
        match _split_scope_id addr with
        | None => true
        | Some ip_str =>
            if String.eqb ip_str "" then true
            else (length (split ":" ip_str) <? 3)%nat
        end
    end.

(** What [ip_network(address, strict=False)] gives: the [IPv4Network] of
    the text; or [ValueError], when [IPv4Network] and [IPv6Network] both
    refuse it; or, for a text [IPv4Network] refuses and the first checks
    of [IPv6Network] let through, an [IPv6Network] or [ValueError], which
    of the two the model does not tell. *)
Inductive parsed_network : Type :=
| IPv4 (n : IPv4Network)
| ValueError
| MaybeIPv6.

Definition ip_network (address : string) : parsed_network :=
  match IPv4Network_of_string address with
  | Some n => IPv4 n
  | None => if IPv6Network_refuses address then ValueError else MaybeIPv6
  end.

(** ** Printing *)

(** [ip_int.to_bytes(4, 'big')] *)
Definition to_bytes4 (ip_int : Z) : list Z :=
  [ (ip_int / 2 ^ 24) mod 256; (ip_int / 2 ^ 16) mod 256;
    (ip_int / 2 ^ 8) mod 256; ip_int mod 256 ].

Definition _string_from_ip_int (ip_int : Z) : string :=
  join "." (map py_str (to_bytes4 ip_int)).

(** [str(net)], that is ['%s/%d' % (net.network_address, net.prefixlen)] *)
Definition str (n : IPv4Network) : string :=
  (_string_from_ip_int (network_address n) ++ "/" ++ py_str (prefixlen n))%string.

(** ** Order and containment *)

(** [a < b] on networks: by network address, then by netmask. *)
Definition net_ltb (a b : IPv4Network) : bool :=
  if negb (network_address a =? network_address b)
  then network_address a <? network_address b
  else if negb (netmask a =? netmask b) then netmask a <? netmask b
  else false.

(** [a.subnet_of(b)] *)
Definition subnet_of (a b : IPv4Network) : bool :=
  (network_address b <=? network_address a)
  && (broadcast_address b >=? broadcast_address a).

(** [net.supernet()] *)
Definition supernet (n : IPv4Network) : IPv4Network :=
  if prefixlen n =? 0 then n
  else mkNet (Z.land (network_address n) (Z.shiftl (netmask n) 1))
             (prefixlen n - 1).

(** ** [sorted] *)

Section Sorted.
Context {A : Type} (ltb : A -> A -> bool).

Fixpoint insert (x : A) (l : list A) : list A :=
  match l with
  | [] => [x]
  | y :: l' => if ltb y x then y :: insert x l' else x :: l
  end.

(** [sorted(l)]: a stable sort that compares with [<] only. *)
Fixpoint sorted (l : list A) : list A :=
  match l with
  | [] => []
  | x :: l' => insert x (sorted l')
  end.
End Sorted.

(** ** [summarize_address_range] *)

(** The [while] loop; each turn moves [first_int] up by at least one, so
    [fuel] turns are enough when [fuel] is the length of the range. *)
Fixpoint summarize_loop (fuel : nat) (first_int last_int : Z) : list IPv4Network :=
  match fuel with
  | O => []
  | S fuel' =>
      if first_int <=? last_int then
        let nbits := Z.min (_count_righthand_zero_bits first_int IPV4LENGTH)
                           (bit_length (last_int - first_int + 1) - 1) in
        let net := mkNet first_int (IPV4LENGTH - nbits) in
        let first_int := first_int + Z.shiftl 1 nbits in
        if first_int - 1 =? _ALL_ONES then [net]
        else net :: summarize_loop fuel' first_int last_int
      else []
  end.

Definition summarize_address_range (first last : Z) : list IPv4Network :=
  summarize_loop (Z.to_nat (last - first + 1)) first last.

(** ** [_find_address_range] *)

Fixpoint find_range_loop (first last : Z) (it : list Z) : list (Z * Z) :=
  match it with
  | [] => [(first, last)]
  | ip :: it' =>
      if negb (ip =? last + 1)
      then (first, last) :: find_range_loop ip ip it'
      else find_range_loop first ip it'
  end.

(** On a non-empty list (the caller checks). *)
Definition _find_address_range (addresses : list Z) : list (Z * Z) :=
  match addresses with
  | [] => []
  | first :: it => find_range_loop first first it
  end.

(** ** [_collapse_addresses_internal] *)

Definition subnets_dict := PyDict.dict IPv4Network IPv4Network.

(** The first loop.  [to_merge] is used as a stack ([pop] and [append]
    act on its end), so it is kept here with its last element first. *)
Fixpoint merge_loop (fuel : nat) (to_merge : list IPv4Network)
    (subnets : subnets_dict) : option subnets_dict :=
  match fuel with
  | O => None
  | S fuel' =>
      match to_merge with
      | [] => Some subnets
      | net :: to_merge =>
          let supernet := supernet net in
          match PyDict.get net_eq_dec subnets supernet with
          | None =>
              merge_loop fuel' to_merge (PyDict.set net_eq_dec subnets supernet net)
          | Some existing =>
              if negb (net_eqb existing net) then
                merge_loop fuel' (supernet :: to_merge)
                           (PyDict.del net_eq_dec subnets supernet)
              else merge_loop fuel' to_merge subnets
          end
      end
  end.

(** The second loop: skip the networks the last one kept subsumes. *)
Fixpoint skip_subsumed (last : option IPv4Network) (l : list IPv4Network)
  : list IPv4Network :=
  match l with
  | [] => []
  | net :: l' =>
      match last with
      | Some la =>
          if broadcast_address la >=? broadcast_address net
          then skip_subsumed last l'
          else net :: skip_subsumed (Some net) l'
      | None => net :: skip_subsumed (Some net) l'
      end
  end.

(** Turns of the first loop that are always enough: see
    [merge_loop_total]. *)
Fixpoint merge_fuel (l : list IPv4Network) : nat :=
  match l with
  | [] => 1
  | n :: l' => (2 * (Z.to_nat (prefixlen n) + 1) + merge_fuel l')%nat
  end.

(** [None]: the first loop has not finished within [merge_fuel]. *)
Definition _collapse_addresses_internal (addresses : list IPv4Network)
  : option (list IPv4Network) :=
  let to_merge := rev addresses in
  match merge_loop (merge_fuel addresses) to_merge [] with
  | None => None
  | Some subnets => Some (skip_subsumed None (sorted net_ltb (PyDict.values subnets)))
  end.

(** ** [collapse_addresses] *)

(** [sorted(set(ips))] *)
Definition sorted_set (ips : list Z) : list Z :=
  sorted Z.ltb (nodup Z.eq_dec ips).

Definition collapse_addresses (addresses : list IPv4Network)
  : option (list IPv4Network) :=
  let ips := map network_address
               (filter (fun ip => prefixlen ip =? _max_prefixlen) addresses) in
  let nets := filter (fun ip => negb (prefixlen ip =? _max_prefixlen)) addresses in
  let ips := sorted_set ips in
  let addrs :=
    flat_map (fun '(first, last) => summarize_address_range first last)
             (_find_address_range ips) in
  _collapse_addresses_internal (addrs ++ nets).

End Ipaddress.

(* ================================================================== *)
(** * The router: construction and the update endpoint *)
(* ================================================================== *)

Module Roteador.
Import Json Ipaddress.

(** [{'cost': ..., 'next_hop': ...}] *)
Record RouteEntry : Type := mkEntry { cost : Z; next_hop : string }.

Definition table := PyDict.dict string RouteEntry.

Definition tget (t : table) (k : string) : option RouteEntry :=
  PyDict.get string_dec t k.
Definition tset (t : table) (k : string) (e : RouteEntry) : table :=
  PyDict.set string_dec t k e.

Record Router : Type := mkRouter {
  my_address : string;
  neighbors : PyDict.dict string Z;
  my_network : string;
  update_interval : Z;
  routing_table : table
}.

Definition INFINITY : Z := 16.

(** ** [Router.__init__] (lines 18-77) *)

(** The loop of lines 67-71. *)
Fixpoint add_neighbor_routes (items : list (string * Z)) (t : table) : table :=
  match items with
  | [] => t
  | (neighbor, c) :: rest =>
      add_neighbor_routes rest (tset t neighbor (mkEntry c neighbor))
  end.

(** The constructor validates nothing and has no failure path: it is a
    total function of its four arguments. *)
Definition __init__ (my_address : string) (neighbors : PyDict.dict string Z)
    (my_network : string) (update_interval : Z) : Router :=
  let routing_table : table := [] in
  let routing_table := tset routing_table my_network (mkEntry 0 my_address) in
  let routing_table := add_neighbor_routes neighbors routing_table in
  mkRouter my_address neighbors my_network update_interval routing_table.

(** ** [receive_update] (lines 209-299) *)

Record response : Type := mkResponse { body : json; status : Z }.

Definition invalid_request : response :=
  mkResponse (JObj [("error", JStr "Invalid request")]) 400.
Definition missing_fields : response :=
  mkResponse (JObj [("error", JStr "Missing sender_address or routing_table")]) 400.
Definition ignored : response :=
  mkResponse (JObj [("status", JStr "ignored")]) 200.
Definition success : response :=
  mkResponse (JObj [("status", JStr "success"); ("message", JStr "Update received")]) 200.

(** Lines 260-267: the candidate cost of one received route. *)
Definition novo_custo (custo_link : Z) (info : json) : result Z :=
  match py_get_default info "cost" (JNum INFINITY) with
  | Raise e => Raise e
  | Ok custo_recebido =>
      match int_add custo_link custo_recebido with
      | Raise e => Raise e
      | Ok novo_custo =>
          Ok (if novo_custo >? INFINITY then INFINITY else novo_custo)
      end
  end.

(** Lines 270-293: the table after one received route with candidate
    cost [novo]. *)
Definition relax (sender_address network : string) (novo : Z) (t : table)
  : table :=
  match tget t network with
  | None => tset t network (mkEntry novo sender_address)
  | Some atual =>
      let custo_atual := cost atual in
      let next_hop_atual := next_hop atual in
      if novo <? custo_atual then
        tset t network (mkEntry novo sender_address)
      else if String.eqb next_hop_atual sender_address then
        tset t network (mkEntry novo next_hop_atual)
      else t
  end.

(** The loop of lines 258-293.  An exception leaves the loop with the
    table as the earlier iterations made it. *)
Fixpoint merge_routes (custo_link : Z) (sender_address : string)
    (items : list (string * json)) (t : table) : table * option exn :=
  match items with
  | [] => (t, None)
  | (network, info) :: rest =>
      match novo_custo custo_link info with
      | Raise e => (t, Some e)
      | Ok novo =>
          merge_routes custo_link sender_address rest
            (relax sender_address network novo t)
      end
  end.

Definition with_table (r : Router) (t : table) : Router :=
  mkRouter (my_address r) (neighbors r) (my_network r) (update_interval r) t.

(** The endpoint, as a function of the router and of [request.json].
    It returns the reply (or the exception that escapes) and the router
    afterwards. *)
Definition receive_update (router_instance : Router) (request_json : json)
  : result response * Router :=
  if negb (truthy request_json) then
    (Ok invalid_request, router_instance)
  else
    let update_data := request_json in
    match py_get update_data "sender_address" with
    | Raise e => (Raise e, router_instance)
    | Ok sender_address =>
    match py_get update_data "routing_table" with
    | Raise e => (Raise e, router_instance)
    | Ok sender_table =>
        if negb (truthy sender_address) || negb (is_dict sender_table) then
          (Ok missing_fields, router_instance)
        else
          match sender_address, sender_table with
          | JStr sender, JObj items =>
              match PyDict.get string_dec (neighbors router_instance) sender with
              | None => (Ok ignored, router_instance)
              | Some custo_link =>
                  match merge_routes custo_link sender items
                          (routing_table router_instance) with
                  | (t, Some e) => (Raise e, with_table router_instance t)
                  | (t, None) => (Ok success, with_table router_instance t)
                  end
              end
          | (JArr _ | JObj _), _ =>
              (* unhashable operand of [not in] *)
              (Raise TypeError, router_instance)
          | _, _ =>
              (* a number, a boolean: hashable, and no key of [neighbors],
                 whose keys are strings *)
              (Ok ignored, router_instance)
          end
    end
    end.

(** ** [summarize_table] (lines 136-181) *)

Definition redes_dict := PyDict.dict IPv4Network RouteEntry.

(** Lines 144-149: the parsed keys, each with its entry; a key that does
    not parse is skipped, and a network met again takes the later entry
    at its first position.  [None]: a key may be an IPv6 network, and the
    table is outside the model. *)
Fixpoint parse_table (items : list (string * RouteEntry))
    (redes_obj : redes_dict) : option redes_dict :=
  match items with
  | [] => Some redes_obj
  | (net, info) :: rest =>
      match ip_network net with
      | IPv4 n => parse_table rest (PyDict.set net_eq_dec redes_obj n info)
      | ValueError => parse_table rest redes_obj
      | MaybeIPv6 => None
      end
  end.

(** [min(x, *l)] *)
Fixpoint py_min (x : Z) (l : list Z) : Z :=
  match l with
  | [] => x
  | y :: l' => py_min (if y <? x then y else x) l'
  end.

(** [min([x] + l, key=key)]: the first element of least key. *)
Fixpoint py_min_by {A : Type} (key : A -> Z) (x : A) (l : list A) : A :=
  match l with
  | [] => x
  | y :: l' => py_min_by key (if key y <? key x then y else x) l'
  end.

(** Lines 159-162.  Iterating over [redes_obj] and indexing it with the
    key met is iterating over its items. *)
Definition redes_contidas (redes_obj : redes_dict) (sum_net : IPv4Network)
  : list (IPv4Network * RouteEntry) :=
  filter (fun item => subnet_of (fst item) sum_net) redes_obj.

Definition item_cost (item : IPv4Network * RouteEntry) : Z := cost (snd item).

(** Lines 156-179. *)
Fixpoint build_table (redes_obj : redes_dict) (summarized : list IPv4Network)
    (nova_tabela : table) : table :=
  match summarized with
  | [] => nova_tabela
  | sum_net :: rest =>
      match redes_contidas redes_obj sum_net with
      | [] => build_table redes_obj rest nova_tabela
      | first :: others =>
          let menor_custo := py_min (item_cost first) (map item_cost others) in
          let melhor_rede := py_min_by item_cost first others in
          build_table redes_obj rest
            (tset nova_tabela (str sum_net)
                  (mkEntry menor_custo (next_hop (snd melhor_rede))))
      end
  end.

(** [None]: the model gives no summary.  Either a key of the table may
    be an IPv6 network (on IPv6 networks the code goes on as on IPv4
    ones, and on networks of both versions [collapse_addresses] raises
    [TypeError] at line 152, outside the [try]), or [collapse_addresses]
    has not finished (see [Ipaddress._collapse_addresses_internal]). *)
Definition summarize_table (t : table) : option table :=
  match parse_table t [] with
  | None => None
  | Some redes_obj =>
      match collapse_addresses (PyDict.keys redes_obj) with
      | None => None
      | Some summarized => Some (build_table redes_obj summarized [])
      end
  end.

(** ** [send_updates_to_neighbors] (lines 95-134) *)

Record payload : Type := mkPayload {
  sender_address : string;
  payload_table : table
}.

(** Lines 119-121. *)
Definition poison_reverse (neighbor_address : string) (t : table) : table :=
  map (fun item : string * RouteEntry =>
         let (destino, info) := item in
         if String.eqb (next_hop info) neighbor_address
         then (destino, mkEntry INFINITY (next_hop info))
         else (destino, info)) t.

(** The payload posted to one neighbor: copy, summarize, poison.
    [None]: the model gives no summary of the table. *)
Definition advertisement (r : Router) (neighbor_address : string)
  : option payload :=
  let tabela_para_enviar := routing_table r in
  match summarize_table tabela_para_enviar with
  | None => None
  | Some tabela_para_enviar =>
      Some (mkPayload (my_address r)
                      (poison_reverse neighbor_address tabela_para_enviar))
  end.

Fixpoint send_loop (r : Router) (addresses : list string)
  : option (list (string * payload)) :=
  match addresses with
  | [] => Some []
  | neighbor_address :: rest =>
      match advertisement r neighbor_address, send_loop r rest with
      | Some p, Some ps => Some ((neighbor_address, p) :: ps)
      | _, _ => None
      end
  end.

(** The posts of one cycle, in order: the neighbor addressed and the
    payload.  A failed post is only logged, so it changes nothing here.
    [None]: the model gives no summary of the table, see
    [summarize_table]. *)
Definition send_updates_to_neighbors (r : Router)
  : option (list (string * payload)) :=
  send_loop r (PyDict.keys (neighbors r)).

(** The JSON body of a payload, as the peer's [request.json] gets it. *)
Definition entry_to_json (e : RouteEntry) : json :=
  JObj [("cost", JNum (cost e)); ("next_hop", JStr (next_hop e))].

Definition payload_to_json (p : payload) : json :=
  JObj [("sender_address", JStr (sender_address p));
        ("routing_table",
         JObj (map (fun item : string * RouteEntry =>
                      (fst item, entry_to_json (snd item)))
                   (payload_table p)))].

End Roteador.

(* ================================================================== *)
(** * Error detection (lab01/deteccao_de_erro): the bitwise CRC *)
(* ================================================================== *)

(** A Python [str] is taken as the list of its characters, so that
    [list(s)] and ["".join(l)] (on a list of one-character strings) are
    the identity; an index out of range raises [IndexError]. *)
Module PySeq.

Inductive result (A : Type) : Type :=
| Ok (a : A)
| IndexError.
Arguments Ok {A} a.
Arguments IndexError {A}.

Definition bind {A B : Type} (x : result A) (f : A -> result B) : result B :=
  match x with
  | Ok a => f a
  | IndexError => IndexError
  end.

Definition str : Type := list ascii.

(** [s[i]] for [i >= 0] *)
Definition index {A : Type} (s : list A) (i : nat) : result A :=
  match nth_error s i with
  | Some c => Ok c
  | None => IndexError
  end.

(** [l[i] = x] for [i >= 0] *)
Definition setitem {A : Type} (l : list A) (i : nat) (x : A)
  : result (list A) :=
  if (i <? length l)%nat then Ok (firstn i l ++ x :: skipn (S i) l)
  else IndexError.

(** [l[inicio:fim]] for [inicio >= 0] and [fim >= 0]: cut at the end of
    the list, empty when [fim <= inicio]. *)
Definition slice {A : Type} (l : list A) (inicio fim : Z) : list A :=
  firstn (Z.to_nat (fim - inicio)) (skipn (Z.to_nat inicio) l).

(** [l[start:]]: a negative [start] counts from the end, and is cut at
    the start of the list. *)
Definition slice_from {A : Type} (l : list A) (start : Z) : list A :=
  if start <? 0 then skipn (length l - Z.to_nat (- start)) l
  else skipn (Z.to_nat start) l.

(** ['0' * r]: empty for [r <= 0]. *)
Definition zeros (r : Z) : str := repeat "0"%char (Z.to_nat r).

End PySeq.

Declare Scope pyseq_scope.
Notation "x <- e ;; f" := (PySeq.bind e (fun x => f))
  (at level 61, e at next level, right associativity) : pyseq_scope.

(** ** [codigo.py] *)

Module Crc.
Import PySeq.
Local Open Scope pyseq_scope.

(** The loop of lines 6-10, over [range(len(a))]. *)
Fixpoint xor_loop (a b : str) (range : list nat) (resultado : str)
  : result str :=
  match range with
  | [] => Ok resultado
  | i :: range' =>
      ai <- index a i ;;
      bi <- index b i ;;
      xor_loop a b range'
        (resultado ++ [if Ascii.eqb ai bi then "0"%char else "1"%char])
  end.

Definition xor_bits (a b : str) : result str :=
  xor_loop a b (seq 0 (length a)) [].

(** The loop of lines 50-51, over [range(1, len(resultado_xor))]. *)
Fixpoint write_loop (resultado_xor : str) (i : nat) (range : list nat)
    (mensagem_aumentada : list ascii) : result (list ascii) :=
  match range with
  | [] => Ok mensagem_aumentada
  | j :: range' =>
      x <- index resultado_xor j ;;
      mensagem_aumentada <- setitem mensagem_aumentada (i + j) x ;;
      write_loop resultado_xor i range' mensagem_aumentada
  end.

(** The loop of lines 36-51, over [range(len(dados_bits))]. *)
Fixpoint division_loop (gerador_bits : str) (r : Z) (range : list nat)
    (mensagem_aumentada : list ascii) : result (list ascii) :=
  match range with
  | [] => Ok mensagem_aumentada
  | i :: range' =>
      mi <- index mensagem_aumentada i ;;
      if Ascii.eqb mi "1" then
        let inicio := Z.of_nat i in
        let fim := Z.of_nat i + r + 1 in
        let janela_atual := slice mensagem_aumentada inicio fim in
        resultado_xor <- xor_bits janela_atual gerador_bits ;;
        mensagem_aumentada <-
          write_loop resultado_xor i (seq 1 (length resultado_xor - 1))
                     mensagem_aumentada ;;
        division_loop gerador_bits r range' mensagem_aumentada
      else division_loop gerador_bits r range' mensagem_aumentada
  end.

Definition calcular_crc_manual (dados_bits gerador_bits : str) : result str :=
  let r := Z.of_nat (length gerador_bits) - 1 in
  let mensagem_aumentada := dados_bits ++ zeros r in
  mensagem_aumentada <-
    division_loop gerador_bits r (seq 0 (length dados_bits))
                  mensagem_aumentada ;;
  let resto := slice_from mensagem_aumentada (- r) in
  Ok resto.

End Crc.

(** ** [benchmark_crc.py] *)

Module BenchmarkCrc.

(** Lines 63-67: eight turns on the low bit of [crc]. *)
Fixpoint bit_loop (turns : nat) (crc : Z) : Z :=
  match turns with
  | O => crc
  | S turns' =>
      bit_loop turns'
        (if negb (Z.land crc 1 =? 0)
         then Z.lxor (Z.shiftr crc 1) 0xA001
         else Z.shiftr crc 1)
  end.

(** The value of a byte, from 0 to 255. *)
Definition byte_value (b : Byte.byte) : Z := Z.of_N (Byte.to_N b).

Fixpoint crc16_loop (data : list Byte.byte) (crc : Z) : Z :=
  match data with
  | [] => crc
  | byte :: data' => crc16_loop data' (bit_loop 8 (Z.lxor crc (byte_value byte)))
  end.

(** Lines 59-68. *)
Definition crc16_modbus_py (data : list Byte.byte) : Z :=
  crc16_loop data 0xFFFF.

End BenchmarkCrc.

(* ================================================================== *)
(** * Vocabulary of the statements about the update endpoint *)
(* ================================================================== *)

Module RelaxSpec.
Import Json Roteador.

(** The received cost of a well-typed route entry: the number under
    ["cost"], or [INFINITY] when the key is absent. *)
Definition info_cost (info : json) : option Z :=
  match info with
  | JObj o =>
      match PyDict.get string_dec o "cost" with
      | None => Some INFINITY
      | Some (JNum c) => Some c
      | Some (JBool b) => Some (Z.b2z b)
      | Some _ => None
      end
  | _ => None
  end.

(** The sender a request names, when it names one with a string. *)
Definition sender_of (request : json) : option string :=
  match py_get request "sender_address" with
  | Ok (JStr s) => Some s
  | _ => None
  end.

(** The routes a request carries, when it carries a mapping. *)
Definition routes_of (request : json) : option (PyDict.dict string json) :=
  match py_get request "routing_table" with
  | Ok (JObj items) => Some items
  | _ => None
  end.

(** A request whose routes, if any, are a dictionary: no key twice. *)
Definition routes_wf (request : json) : Prop :=
  forall items, routes_of request = Some items -> PyDict.wf items.

(** The endpoint applied to a sequence of requests. *)
Fixpoint receive_all (r : Router) (requests : list json) : Router :=
  match requests with
  | [] => r
  | q :: rest => receive_all (snd (receive_update r q)) rest
  end.

(** What one route does to its own destination. *)
Definition relaxed (sender : string) (novo : Z) (atual : option RouteEntry)
  : option RouteEntry :=
  match atual with
  | None => Some (mkEntry novo sender)
  | Some cur =>
      if novo <? cost cur then Some (mkEntry novo sender)
      else if String.eqb (next_hop cur) sender
           then Some (mkEntry novo (next_hop cur))
           else Some cur
  end.

End RelaxSpec.

(* ================================================================== *)
(** * Vocabulary of the statements about networks *)
(* ================================================================== *)

Module IpSpec.
Import Ipaddress.

(** What the constructor guarantees of a network: a prefix length from 0
    to 32 and a 32-bit network address without host bits. *)
Definition Valid (n : IPv4Network) : Prop :=
  0 <= prefixlen n <= 32 /\
  0 <= network_address n < 2 ^ 32 /\
  network_address n mod 2 ^ (32 - prefixlen n) = 0.

(** The address [a] belongs to the network [n]. *)
Definition covers (n : IPv4Network) (a : Z) : Prop :=
  network_address n <= a <= broadcast_address n.

(** The union of the addresses of a list of networks. *)
Definition covered (l : list IPv4Network) (a : Z) : Prop :=
  exists n, In n l /\ covers n a.

(** No address in common. *)
Definition disjoint (n m : IPv4Network) : Prop :=
  broadcast_address n < network_address m \/
  broadcast_address m < network_address n.

(** One network ends right before the other starts. *)
Definition adjacent (n m : IPv4Network) : Prop :=
  broadcast_address n + 1 = network_address m \/
  broadcast_address m + 1 = network_address n.

(** The number of colons of a text. *)
Fixpoint colons (s : string) : nat :=
  match s with
  | EmptyString => 0%nat
  | String c s' => ((if Ascii.eqb c ":" then 1 else 0) + colons s')%nat
  end.

(** No key of the table has two colons or more: none is an IPv6 text,
    which has two at least.  The texts of IPv4 networks have no colon,
    addresses [ip:port] have one. *)
Definition no_ipv6 {V : Type} (t : PyDict.dict string V) : Prop :=
  forall k, In k (PyDict.keys t) -> (colons k < 2)%nat.

(** The IPv4 networks a table's keys denote, in order; the other keys
    denote none. *)
Definition prefixes {V : Type} (t : PyDict.dict string V) : list IPv4Network :=
  flat_map (fun k => match IPv4Network_of_string k with
                     | Some n => [n]
                     | None => []
                     end)
           (PyDict.keys t).

(** The union of a list of closed ranges of addresses. *)
Definition in_ranges (rs : list (Z * Z)) (a : Z) : Prop :=
  exists first last, In (first, last) rs /\ first <= a <= last.

(** The network [s] has a member among [inputs]. *)
Definition has_member (inputs : list IPv4Network) (s : IPv4Network) : Prop :=
  exists n, In n inputs /\ subnet_of n s = true.

(** Any two different networks of the list are apart: they share no
    address and do not touch. *)
Definition apart (l : list IPv4Network) : Prop :=
  forall n m, In n l -> In m l -> n <> m -> disjoint n m /\ ~ adjacent n m.

(** The integers from 0 up to [n], excluded. *)
Definition zrange (n : nat) : list Z := map Z.of_nat (seq 0 n).

(** Sorted networks come by rising network address. *)
Definition by_address (a b : IPv4Network) : Prop :=
  network_address a <= network_address b.

(** The lengths of the ranges add up to the number of addresses. *)
Fixpoint ranges_size (rs : list (Z * Z)) : Z :=
  match rs with
  | [] => 0
  | (f, l) :: rs' => (l - f + 1) + ranges_size rs'
  end.

(** The decimal text of an octet parses back, and holds neither a dot
    nor a slash. *)
Definition octet_text_ok (o : Z) : bool :=
  match _parse_octet (py_str o) with
  | Some o' => o' =? o
  | None => false
  end
  && negb (contains_char "." (py_str o))
  && negb (contains_char "/" (py_str o)).

(** The decimal text of a prefix length parses back, and holds no
    slash. *)
Definition prefix_text_ok (p : Z) : bool :=
  match _make_netmask (py_str p) with
  | Some p' => p' =? p
  | None => false
  end
  && negb (contains_char "/" (py_str p)).

(** What the first loop of [_collapse_addresses_internal] keeps true of
    its worklist [tm] and its dictionary [sn]: the networks are valid,
    each key of [sn] is the supernet of its value, the addresses covered
    are those of [U], the count of networks stays below [N], and every
    network has a member among [inputs]. *)
Definition merge_inv (U : Z -> Prop) (N : nat) (inputs : list IPv4Network)
    (tm : list IPv4Network) (sn : subnets_dict) : Prop :=
  Forall Valid tm /\
  PyDict.wf sn /\
  (forall k v, In (k, v) sn -> Valid v /\ k = supernet v) /\
  (forall a, covered tm a \/ covered (PyDict.values sn) a <-> U a) /\
  (length tm + length sn <= N)%nat /\
  (forall n, In n tm \/ In n (PyDict.values sn) -> has_member inputs n).

(** The same loop on networks no two of which have one supernet: it only
    moves them, one by one, from the worklist into the dictionary. *)
Definition move_inv (L : list IPv4Network)
    (tm : list IPv4Network) (sn : subnets_dict) : Prop :=
  NoDup (tm ++ PyDict.values sn) /\
  PyDict.wf sn /\
  (forall k v, In (k, v) sn -> k = supernet v) /\
  (forall x y, In x L -> In y L -> x <> y -> supernet x <> supernet y) /\
  (forall n, In n tm \/ In n (PyDict.values sn) <-> In n L).

(** The addresses of the /32 networks of a list. *)
Definition host_addresses (l : list IPv4Network) : list Z :=
  sorted_set (map network_address
                  (filter (fun ip => prefixlen ip =? _max_prefixlen) l)).

(** The measure that bounds the turns of that loop. *)
Fixpoint weight (l : list IPv4Network) : nat :=
  match l with
  | [] => 0
  | n :: l' => (2 * (Z.to_nat (prefixlen n) + 1) + weight l')%nat
  end.

End IpSpec.

(* ================================================================== *)
(** * Vocabulary of the statements about the summarizer *)
(* ================================================================== *)

Module SummarizeSpec.
Import Ipaddress Roteador.

(** The entry lines 167-179 give a covering prefix. *)
Definition entry_of (redes_obj : redes_dict) (sum_net : IPv4Network)
  : option RouteEntry :=
  match redes_contidas redes_obj sum_net with
  | [] => None
  | first :: others =>
      Some (mkEntry (py_min (item_cost first) (map item_cost others))
                    (next_hop (snd (py_min_by item_cost first others))))
  end.

(** The entries of a table whose key is an IPv4 network, each with that
    network, in the order of the table. *)
Definition entradas (t : table) : list (IPv4Network * RouteEntry) :=
  flat_map (fun item : string * RouteEntry =>
              match IPv4Network_of_string (fst item) with
              | Some n => [(n, snd item)]
              | None => []
              end) t.

(** [redes_obj] as the loop of lines 144-149 leaves it on a table of
    IPv4 keys and of keys that are no networks. *)
Fixpoint redes_obj_of (items : list (string * RouteEntry))
    (redes_obj : redes_dict) : redes_dict :=
  match items with
  | [] => redes_obj
  | (net, info) :: rest =>
      match IPv4Network_of_string net with
      | Some n => redes_obj_of rest (PyDict.set net_eq_dec redes_obj n info)
      | None => redes_obj_of rest redes_obj
      end
  end.

(** The summary lines 152-181 make of it. *)
Definition summary_of (t : table) : option table :=
  let redes_obj := redes_obj_of t [] in
  match collapse_addresses (PyDict.keys redes_obj) with
  | None => None
  | Some summarized => Some (build_table redes_obj summarized [])
  end.

(** The members of a covering prefix: the entries of the table whose
    network it contains, itself included, in the order of the table. *)
Definition membros (t : table) (sum_net : IPv4Network)
  : list (IPv4Network * RouteEntry) :=
  filter (fun item => subnet_of (fst item) sum_net) (entradas t).

End SummarizeSpec.

(* ================================================================== *)
(** * Routers and advertisements used as examples *)
(* ================================================================== *)

Module Exemplos.
Import Json Ipaddress Roteador RelaxSpec.

(** A neighbor at link cost 1 that advertises one network at cost 3. *)
Definition exemplo_vizinho : string := "127.0.0.1:5001".
Definition exemplo_anuncio : json :=
  JObj [("sender_address", JStr exemplo_vizinho);
        ("routing_table",
         JObj [("10.0.2.0/24",
                JObj [("cost", JNum 3); ("next_hop", JStr exemplo_vizinho)])])].

(** The request a neighbor sends for one route. *)
Definition anuncio (sender prefix : string) (c : Z) : json :=
  payload_to_json (mkPayload sender [(prefix, mkEntry c sender)]).

(** The router [dst] after the posts [src] addresses to it in one
    cycle. *)
Definition entrega (src dst : Router) : Router :=
  match send_updates_to_neighbors src with
  | None => dst
  | Some posts =>
      receive_all dst
        (map (fun post => payload_to_json (snd post))
             (filter (fun post => String.eqb (fst post) (my_address dst)) posts))
  end.

(** Two neighbors, [N] and [M]; [N] announces 10.0.0.0/23 and [M] the
    /24 inside it. *)
Definition vizinho_n : string := "127.0.0.1:5001".
Definition vizinho_m : string := "127.0.0.1:5002".
Definition roteador_aninhado : Router :=
  receive_all
    (__init__ "127.0.0.1:5000" [(vizinho_n, 1); (vizinho_m, 1)] "10.9.0.0/24" 1)
    [anuncio vizinho_n "10.0.0.0/23" 4; anuncio vizinho_m "10.0.0.0/24" 0].

(** Router A is started with host bits in its network, 10.0.1.5/24;
    B and C are its neighbors.  A advertises, B answers. *)
Definition roteador_a : Router :=
  __init__ "127.0.0.1:5000" [("127.0.0.1:5001", 1); ("127.0.0.1:5002", 1)]
           "10.0.1.5/24" 1.
Definition roteador_b : Router :=
  __init__ "127.0.0.1:5001" [("127.0.0.1:5000", 1)] "10.0.2.0/24" 1.
Definition roteador_b1 : Router := entrega roteador_a roteador_b.
Definition roteador_a1 : Router := entrega roteador_b1 roteador_a.

End Exemplos.

(* ================================================================== *)
(** * Vocabulary of the statements about sequences of updates *)
(* ================================================================== *)

Module UpdateSpec.
Import Json Roteador RelaxSpec.


(** The reply of the endpoint and the router it leaves, for a table
    [t] computed by the loop and the exception that left it, if any. *)
Definition merged (r : Router) (m : table * option exn)
  : result response * Router :=
  match m with
  | (t, Some e) => (Raise e, with_table r t)
  | (t, None) => (Ok success, with_table r t)
  end.

End UpdateSpec.

(* ================================================================== *)
(** * Vocabulary of the statements about the order of networks *)
(* ================================================================== *)

Module OrderSpec.
Import Ipaddress.

(** [a <= b] in the order [sorted] puts networks in: by network address,
    then by netmask. *)
Definition le_net (a b : IPv4Network) : Prop :=
  network_address a < network_address b \/
  (network_address a = network_address b /\ netmask a <= netmask b).

(** The network [a] ends before the network [b] starts. *)
Definition before (a b : IPv4Network) : Prop :=
  broadcast_address a < network_address b.

End OrderSpec.

(* ================================================================== *)
(** * Vocabulary of the statements about the CRC *)
(* ================================================================== *)

Module CrcSpec.
Import PySeq.

(** A text of the characters 0 and 1. *)
Definition binary (s : str) : Prop :=
  Forall (fun c => c = "0"%char \/ c = "1"%char) s.

(** The character [xor_bits] gives for two characters. *)
Definition xor_char (x y : ascii) : ascii :=
  if Ascii.eqb x y then "0"%char else "1"%char.

(** [g] xor-ed into the front of [l], the rest of [l] as it is. *)
Fixpoint xor_front (l g : str) : str :=
  match l, g with
  | x :: l', y :: g' => xor_char x y :: xor_front l' g'
  | _, _ => l
  end.

(** Long division over the first [k] positions of [l], by a generator
    whose characters after the first are [gt]: at a 1, [gt] is xor-ed
    into what follows. *)
Fixpoint divided (gt : str) (k : nat) (l : str) : str :=
  match k, l with
  | S k', c :: rest =>
      c :: divided gt k' (if Ascii.eqb c "1" then xor_front rest gt else rest)
  | _, _ => l
  end.

(** What is left after those [k] positions. *)
Definition remainder (gt : str) (k : nat) (l : str) : str :=
  skipn k (divided gt k l).

(** The two bytes of a 16-bit value, low byte first. *)
Definition low_high (crc : Z) (lo hi : Byte.byte) : Prop :=
  BenchmarkCrc.byte_value lo = crc mod 256 /\
  BenchmarkCrc.byte_value hi = crc / 256.

End CrcSpec.

(* ================================================================== *)
(** * Facts about dictionaries *)
(* ================================================================== *)

Module PyDictFacts.
Import PyDict.
Section Facts.
Context {K V : Type}.
Variable K_eq_dec : forall a b : K, {a = b} + {a <> b}.
Implicit Types (d : dict K V) (k : K) (v : V).
Local Abbreviation get := (PyDict.get K_eq_dec).
Local Abbreviation set := (PyDict.set K_eq_dec).
Local Abbreviation del := (PyDict.del K_eq_dec).

Lemma get_set_same d k v : get (set d k v) k = Some v.
Proof.
  induction d as [|[k' v'] d IH]; simpl.
  - destruct (K_eq_dec k k); congruence.
  - destruct (K_eq_dec k' k) as [E|N]; simpl.
    + destruct (K_eq_dec k' k); congruence.
    + destruct (K_eq_dec k' k); congruence.
Qed.

Lemma get_set_other d k k0 v : k0 <> k -> get (set d k v) k0 = get d k0.
Proof.
  intros Hne. induction d as [|[k' v'] d IH]; simpl.
  - destruct (K_eq_dec k k0); congruence.
  - destruct (K_eq_dec k' k) as [E|N]; simpl.
    + subst k'. destruct (K_eq_dec k k0); congruence.
    + destruct (K_eq_dec k' k0); congruence.
Qed.

Lemma get_None_not_In d k : get d k = None <-> ~ In k (keys d).
Proof.
  induction d as [|[k' v'] d IH]; simpl.
  - tauto.
  - destruct (K_eq_dec k' k) as [E|N].
    + split; [discriminate | intros H; exfalso; apply H; now left].
    + rewrite IH. tauto.
Qed.

Lemma get_Some_In d k v : get d k = Some v -> In (k, v) d.
Proof.
  induction d as [|[k' v'] d IH]; simpl; [discriminate|].
  destruct (K_eq_dec k' k) as [E|N].
  - intros [= ->]. subst. now left.
  - intros H. right. auto.
Qed.

Lemma In_get_Some d k v : wf d -> In (k, v) d -> get d k = Some v.
Proof.
  unfold wf, keys. induction d as [|[k' v'] d IH]; simpl; [tauto|].
  intros Hnd [E|Hin].
  - inversion E; subst. destruct (K_eq_dec k k); congruence.
  - inversion Hnd as [|? ? Hni Hnd']; subst.
    destruct (K_eq_dec k' k) as [E|N].
    + subst k'. exfalso. apply Hni. apply (in_map fst) in Hin. exact Hin.
    + auto.
Qed.

Lemma keys_set_present d k v :
  In k (keys d) -> keys (set d k v) = keys d.
Proof.
  unfold keys. induction d as [|[k' v'] d IH]; simpl; [tauto|].
  intros H. destruct (K_eq_dec k' k) as [E|N]; simpl.
  - reflexivity.
  - f_equal. apply IH. destruct H; [contradiction|assumption].
Qed.

Lemma keys_set_absent d k v :
  ~ In k (keys d) -> keys (set d k v) = keys d ++ [k].
Proof.
  unfold keys. induction d as [|[k' v'] d IH]; simpl; [reflexivity|].
  intros H. destruct (K_eq_dec k' k) as [E|N]; simpl.
  - exfalso. apply H. now left.
  - f_equal. apply IH. tauto.
Qed.

Lemma In_keys_set d k v k0 :
  In k0 (keys (set d k v)) <-> k0 = k \/ In k0 (keys d).
Proof.
  unfold keys. induction d as [|[k' v'] d IH]; simpl.
  - intuition congruence.
  - destruct (K_eq_dec k' k) as [E|N]; simpl.
    + subst. intuition congruence.
    + rewrite IH. tauto.
Qed.

Lemma set_absent d k v : ~ In k (keys d) -> set d k v = d ++ [(k, v)].
Proof.
  unfold keys. induction d as [|[k' v'] d IH]; simpl; [reflexivity|].
  intros H. destruct (K_eq_dec k' k) as [E|N].
  - exfalso. apply H. now left.
  - f_equal. apply IH. tauto.
Qed.

Lemma wf_set d k v : wf d -> wf (set d k v).
Proof.
  unfold wf. intros H.
  destruct (in_dec K_eq_dec k (keys d)) as [Hin|Hni].
  - now rewrite keys_set_present.
  - rewrite keys_set_absent by assumption.
    apply (Permutation_NoDup (Permutation_cons_append (keys d) k)).
    now constructor.
Qed.

Lemma length_set_le d k v : (length d <= length (set d k v) <= S (length d))%nat.
Proof.
  induction d as [|[k' v'] d IH]; simpl; [lia|].
  destruct (K_eq_dec k' k); simpl; lia.
Qed.

Lemma length_del_le d k : (length (del d k) <= length d)%nat.
Proof.
  induction d as [|[k' v'] d IH]; simpl; [lia|].
  destruct (K_eq_dec k' k); simpl; lia.
Qed.

Lemma In_values d v : In v (values d) <-> exists k, In (k, v) d.
Proof.
  unfold values. rewrite in_map_iff. split.
  - intros ([k v'] & E & H). simpl in E. subst. now exists k.
  - intros (k & H). now exists (k, v).
Qed.

Lemma In_keys d k : In k (keys d) <-> exists v, In (k, v) d.
Proof.
  unfold keys. rewrite in_map_iff. split.
  - intros ([k' v] & E & H). simpl in E. subst. now exists v.
  - intros (v & H). now exists (k, v).
Qed.

Lemma set_get_None d k v : get d k = None -> set d k v = d ++ [(k, v)].
Proof. intros H. apply set_absent. now apply get_None_not_In. Qed.

Lemma In_del d k k' v' :
  wf d -> (In (k', v') (del d k) <-> In (k', v') d /\ k' <> k).
Proof.
  unfold wf, keys. induction d as [|[k0 v0] d IH]; simpl; intros Hwf.
  - tauto.
  - inversion Hwf as [|? ? Hni Hnd]; subst.
    destruct (K_eq_dec k0 k) as [->|N].
    + split.
      * intros H. split; [now right|]. intros ->.
        apply Hni. apply (in_map fst) in H. exact H.
      * intros [[E|H] Hne]; [inversion E; congruence | exact H].
    + simpl. rewrite (IH Hnd). split.
      * intros [E|[H Hne]]; [inversion E; subst; split; [now left | exact N] | tauto].
      * intros [[E|H] Hne]; [now left | right; tauto].
Qed.

Lemma wf_del d k : wf d -> wf (del d k).
Proof.
  unfold wf, keys. induction d as [|[k0 v0] d IH]; simpl; intros Hwf.
  - constructor.
  - inversion Hwf as [|? ? Hni Hnd]; subst.
    destruct (K_eq_dec k0 k) as [->|N]; [exact Hnd|].
    simpl. constructor; [|now apply IH].
    intros H. apply Hni. apply in_map_iff in H.
    destruct H as ([k1 v1] & E & H). simpl in E. subst k1.
    apply (In_del d k k0 v1 Hnd) in H. destruct H as [H _].
    apply (in_map fst) in H. exact H.
Qed.

Lemma length_del d k v :
  get d k = Some v -> S (length (del d k)) = length d.
Proof.
  induction d as [|[k0 v0] d IH]; simpl; [discriminate|].
  destruct (K_eq_dec k0 k) as [->|N]; [reflexivity|].
  intros H. simpl. now rewrite (IH H).
Qed.

End Facts.
End PyDictFacts.

(* ================================================================== *)
(** * The update endpoint: relaxation *)
(* ================================================================== *)

Module RelaxFacts.
Import PyDict PyDictFacts Json Roteador RelaxSpec.

Lemma novo_custo_info_cost custo_link info c :
  info_cost info = Some c ->
  novo_custo custo_link info = Ok (Z.min (custo_link + c) INFINITY).
Proof.
  unfold info_cost, novo_custo, py_get_default.
  destruct info as [| | | | |o]; try discriminate.
  destruct (PyDict.get string_dec o "cost") as [[| b | n | | |]|];
    try discriminate; intros [= <-]; simpl;
    match goal with
    | |- Ok (if ?x >? ?y then _ else _) = _ =>
        destruct (Z.gtb_spec x y); f_equal; lia
    end.
Qed.

Lemma novo_custo_le custo_link info novo :
  novo_custo custo_link info = Ok novo -> novo <= INFINITY.
Proof.
  unfold novo_custo.
  destruct (py_get_default info "cost" (JNum INFINITY)) as [j|]; [|discriminate].
  destruct (int_add custo_link j) as [x|]; [|discriminate].
  intros [= <-]. destruct (Z.gtb_spec x INFINITY); lia.
Qed.

Lemma relax_other sender network novo t k :
  k <> network -> tget (relax sender network novo t) k = tget t k.
Proof.
  intros Hne. unfold relax, tget, tset.
  destruct (PyDict.get string_dec t network) as [atual|].
  - destruct (novo <? cost atual).
    + now apply get_set_other.
    + destruct (String.eqb (next_hop atual) sender).
      * now apply get_set_other.
      * reflexivity.
  - now apply get_set_other.
Qed.

Lemma relax_same sender network novo t :
  tget (relax sender network novo t) network
  = relaxed sender novo (tget t network).
Proof.
  unfold relax, relaxed, tget, tset.
  destruct (PyDict.get string_dec t network) as [atual|] eqn:E.
  - destruct (novo <? cost atual).
    + apply get_set_same.
    + destruct (String.eqb (next_hop atual) sender).
      * apply get_set_same.
      * exact E.
  - apply get_set_same.
Qed.

Lemma relax_wf sender network novo t :
  PyDict.wf t -> PyDict.wf (relax sender network novo t).
Proof.
  intros H. unfold relax, tset.
  destruct (tget t network) as [atual|].
  - destruct (novo <? cost atual); [now apply wf_set|].
    destruct (String.eqb (next_hop atual) sender); [now apply wf_set|assumption].
  - now apply wf_set.
Qed.

(** Routes do not touch the destinations they do not name. *)
Lemma merge_routes_frame custo_link sender items : forall t k,
  ~ In k (PyDict.keys items) ->
  tget (fst (merge_routes custo_link sender items t)) k = tget t k.
Proof.
  induction items as [|[network info] rest IH]; intros t k Hk; simpl.
  - reflexivity.
  - simpl in Hk.
    destruct (novo_custo custo_link info) as [novo|e]; simpl.
    + rewrite IH by tauto. apply relax_other. intros ->. tauto.
    + reflexivity.
Qed.

(** Well-typed routes raise nothing, and each destination named ends with
    what [relaxed] makes of its entry before the request. *)
Lemma merge_routes_valid custo_link sender items : forall t,
  PyDict.wf items ->
  (forall p i, In (p, i) items -> exists c, info_cost i = Some c) ->
  snd (merge_routes custo_link sender items t) = None /\
  forall p i c, In (p, i) items -> info_cost i = Some c ->
    tget (fst (merge_routes custo_link sender items t)) p
    = relaxed sender (Z.min (custo_link + c) INFINITY) (tget t p).
Proof.
  induction items as [|[network info] rest IH]; intros t Hwf Hval; simpl.
  - split; [reflexivity | intros ? ? ? []].
  - destruct (Hval network info (or_introl eq_refl)) as [c0 Hc0].
    rewrite (novo_custo_info_cost custo_link info c0 Hc0).
    unfold PyDict.wf in Hwf. simpl in Hwf.
    inversion Hwf as [|? ? Hni Hnd]; subst.
    destruct (IH (relax sender network (Z.min (custo_link + c0) INFINITY) t)
                 Hnd (fun p i H => Hval p i (or_intror H))) as [IH1 IH2].
    split; [exact IH1|].
    intros p i c [E|Hin] Hc.
    + inversion E; subst p i. rewrite merge_routes_frame by exact Hni.
      rewrite relax_same. congruence.
    + rewrite (IH2 p i c Hin Hc). f_equal. apply relax_other.
      intros ->. apply Hni. apply (in_map fst) in Hin. exact Hin.
Qed.

(** Over one request's routes a destination's cost does not rise,
    unless the sender is its next hop. *)
Lemma merge_routes_monotone custo_link sender items : forall t k e,
  PyDict.wf items ->
  tget t k = Some e ->
  exists e', tget (fst (merge_routes custo_link sender items t)) k = Some e' /\
             (cost e' <= cost e \/ next_hop e = sender).
Proof.
  induction items as [|[network info] rest IH]; intros t k e Hwf Hk; simpl.
  - exists e. split; [exact Hk | left; lia].
  - unfold PyDict.wf in Hwf. simpl in Hwf.
    inversion Hwf as [|? ? Hni Hnd]; subst.
    destruct (novo_custo custo_link info) as [novo|ex]; simpl.
    2:{ exists e. split; [exact Hk | left; lia]. }
    destruct (string_dec k network) as [->|Hne].
    + rewrite merge_routes_frame by exact Hni.
      rewrite relax_same, Hk. unfold relaxed.
      destruct (Z.ltb_spec novo (cost e)).
      * eexists. split; [reflexivity|]. simpl. left. lia.
      * destruct (String.eqb_spec (next_hop e) sender).
        -- eexists. split; [reflexivity|]. now right.
        -- exists e. split; [reflexivity | left; lia].
    + apply IH; [exact Hnd|]. rewrite relax_other by exact Hne. exact Hk.
Qed.

(** Every cost the routes of a request store is capped. *)
Lemma merge_routes_capped custo_link sender items : forall t k e,
  tget (fst (merge_routes custo_link sender items t)) k = Some e ->
  cost e <= INFINITY \/ tget t k = Some e.
Proof.
  induction items as [|[network info] rest IH]; intros t k e; simpl.
  - now right.
  - destruct (novo_custo custo_link info) as [novo|ex] eqn:En; simpl.
    2:{ now right. }
    intros H. apply IH in H. destruct H as [H|H]; [now left|].
    destruct (string_dec k network) as [->|Hne].
    + rewrite relax_same in H. unfold relaxed in H.
      apply novo_custo_le in En.
      destruct (tget t network) as [cur|].
      * destruct (novo <? cost cur).
        -- inversion H; subst e. now left.
        -- destruct (String.eqb (next_hop cur) sender).
           ++ inversion H; subst e. now left.
           ++ now right.
      * inversion H; subst e. now left.
    + rewrite relax_other in H by exact Hne. now right.
Qed.

(** The table after a request: as before, or as the routes of a known
    sender make it. *)
Lemma receive_update_table r request :
  routing_table (snd (receive_update r request)) = routing_table r \/
  exists sender custo_link items,
    sender_of request = Some sender /\
    routes_of request = Some items /\
    PyDict.get string_dec (neighbors r) sender = Some custo_link /\
    routing_table (snd (receive_update r request))
    = fst (merge_routes custo_link sender items (routing_table r)).
Proof.
  unfold receive_update, sender_of, routes_of.
  destruct (negb (truthy request)); [now left|].
  destruct (py_get request "sender_address") as [sa|]; [|now left].
  destruct (py_get request "routing_table") as [st|]; [|now left].
  destruct (negb (truthy sa) || negb (is_dict st)); [now left|].
  destruct sa as [| | |sender| |]; destruct st as [| | | | |items];
    try (now left).
  destruct (PyDict.get string_dec (neighbors r) sender) as [custo_link|] eqn:En;
    [|now left].
  right. exists sender, custo_link, items.
  split; [reflexivity|]. split; [reflexivity|]. split; [exact En|].
  destruct (merge_routes custo_link sender items (routing_table r)) as [t [e|]];
    reflexivity.
Qed.

(** The reply to a well-formed advertisement of a neighbor. *)
Lemma receive_update_neighbor r o sender items custo_link :
  PyDict.get string_dec o "sender_address" = Some (JStr sender) ->
  sender <> "" ->
  PyDict.get string_dec o "routing_table" = Some (JObj items) ->
  PyDict.get string_dec (neighbors r) sender = Some custo_link ->
  receive_update r (JObj o)
  = match merge_routes custo_link sender items (routing_table r) with
    | (t, Some e) => (Raise e, with_table r t)
    | (t, None) => (Ok success, with_table r t)
    end.
Proof.
  intros Hs Hne Ht Hn. unfold receive_update.
  assert (truthy (JObj o) = true) as ->.
  { destruct o; [discriminate | reflexivity]. }
  simpl. rewrite Hs, Ht. simpl.
  destruct (String.eqb_spec sender ""); [contradiction|]. simpl.
  rewrite Hn. reflexivity.
Qed.

Lemma receive_all_app r pre post :
  receive_all r (pre ++ post) = receive_all (receive_all r pre) post.
Proof.
  revert r. induction pre as [|q pre IH]; intros r; simpl; [reflexivity|].
  apply IH.
Qed.

Lemma receive_update_capped r request k e :
  tget (routing_table (snd (receive_update r request))) k = Some e ->
  cost e <= INFINITY \/ tget (routing_table r) k = Some e.
Proof.
  destruct (receive_update_table r request)
    as [->|(sender & custo_link & items & _ & _ & _ & ->)].
  - now right.
  - apply merge_routes_capped.
Qed.

Lemma receive_all_capped requests : forall r k e,
  tget (routing_table (receive_all r requests)) k = Some e ->
  cost e <= INFINITY \/ tget (routing_table r) k = Some e.
Proof.
  induction requests as [|q rest IH]; intros r k e; simpl.
  - now right.
  - intros H. apply IH in H. destruct H as [H|H]; [now left|].
    now apply receive_update_capped in H.
Qed.

Lemma receive_update_monotone r request k e :
  routes_wf request ->
  tget (routing_table r) k = Some e ->
  exists e', tget (routing_table (snd (receive_update r request))) k = Some e' /\
             (cost e' <= cost e \/ sender_of request = Some (next_hop e)).
Proof.
  intros Hwf Hk.
  destruct (receive_update_table r request)
    as [->|(sender & custo_link & items & Hs & Hr & _ & ->)].
  - exists e. split; [exact Hk | left; lia].
  - destruct (merge_routes_monotone custo_link sender items _ k e (Hwf _ Hr) Hk)
      as (e' & He' & Hc).
    exists e'. split; [exact He'|]. destruct Hc as [Hc|Hc]; [now left|].
    right. now rewrite Hs, Hc.
Qed.

(** ** Construction *)


Lemma add_neighbor_routes_keeps items : forall t k,
  In k (PyDict.keys t) -> In k (PyDict.keys (add_neighbor_routes items t)).
Proof.
  induction items as [|[n c] rest IH]; intros t k H; simpl; [exact H|].
  apply IH. unfold tset. apply In_keys_set. now right.
Qed.

Lemma add_neighbor_routes_keys items : forall t k,
  In k (PyDict.keys (add_neighbor_routes items t)) ->
  In k (PyDict.keys t) \/ In k (PyDict.keys items).
Proof.
  induction items as [|[n c] rest IH]; intros t k H; simpl in *; [now left|].
  apply IH in H. destruct H as [H|H]; [|right; now right].
  unfold tset in H. apply In_keys_set in H.
  destruct H as [H|H]; [right; left; now symmetry | now left].
Qed.



End RelaxFacts.

(* ================================================================== *)
(** * Facts about networks: masks and arithmetic *)
(* ================================================================== *)

Module IpFacts.
Import PyDict PyDictFacts Ipaddress IpSpec.

Lemma Some_eq {A : Type} (a b : A) : Some a = Some b -> a = b.
Proof. congruence. Qed.

(** ** Finite case analysis *)

Lemma in_zrange (n : nat) (z : Z) : 0 <= z < Z.of_nat n -> In z (zrange n).
Proof.
  intros H. unfold zrange. apply in_map_iff. exists (Z.to_nat z).
  split; [lia|]. apply in_seq. lia.
Qed.

Lemma zrange_forall (f : Z -> bool) (n : nat) :
  forallb f (zrange n) = true ->
  forall z, 0 <= z < Z.of_nat n -> f z = true.
Proof.
  intros H z Hz. rewrite forallb_forall in H. apply H. now apply in_zrange.
Qed.

(** ** Masks *)

Lemma ip_int_from_prefix_eq p :
  0 <= p <= 32 -> _ip_int_from_prefix p = 2 ^ 32 - 2 ^ (32 - p).
Proof.
  intros H.
  apply Z.eqb_eq.
  apply (zrange_forall
           (fun p => _ip_int_from_prefix p =? 2 ^ 32 - 2 ^ (32 - p)) 33);
    [vm_compute; reflexivity | lia].
Qed.

Lemma hostmask_eq n :
  0 <= prefixlen n <= 32 -> hostmask n = 2 ^ (32 - prefixlen n) - 1.
Proof.
  intros H. unfold hostmask, netmask.
  apply Z.eqb_eq.
  apply (zrange_forall
           (fun p => Z.lxor (_ip_int_from_prefix p) _ALL_ONES =? 2 ^ (32 - p) - 1) 33);
    [vm_compute; reflexivity | lia].
Qed.

Lemma pow2_pos k : 0 < 2 ^ k \/ k < 0.
Proof. destruct (Z.le_gt_cases 0 k); [left; now apply Z.pow_pos_nonneg | now right]. Qed.

(** Bits that do not meet add up. *)
Lemma lor_disjoint_add a b : Z.land a b = 0 -> Z.lor a b = a + b.
Proof.
  intros H. rewrite <- Z.lxor_lor by exact H.
  symmetry. now apply Z.add_nocarry_lxor.
Qed.

Lemma broadcast_eq n :
  Valid n ->
  broadcast_address n = network_address n + 2 ^ (32 - prefixlen n) - 1.
Proof.
  intros (Hp & Ha & Hm). unfold broadcast_address.
  rewrite hostmask_eq by exact Hp.
  change (2 ^ (32 - prefixlen n) - 1) with (Z.pred (2 ^ (32 - prefixlen n))).
  rewrite <- Z.ones_equiv.
  rewrite lor_disjoint_add.
  - rewrite Z.ones_equiv. lia.
  - rewrite Z.land_ones by lia. exact Hm.
Qed.

(** Clearing the low [h] bits of a [w]-bit number. *)
Lemma land_high_mask a w h :
  0 <= h <= w -> 0 <= a < 2 ^ w ->
  Z.land a (2 ^ w - 2 ^ h) = a - a mod 2 ^ h.
Proof.
  intros Hh Ha.
  set (m := 2 ^ w - 2 ^ h).
  assert (Hm0 : Z.land m (Z.ones h) = 0).
  { rewrite Z.land_ones by lia. unfold m.
    replace w with ((w - h) + h) by lia.
    rewrite Z.pow_add_r by lia.
    replace (2 ^ (w - h) * 2 ^ h - 2 ^ h) with ((2 ^ (w - h) - 1) * 2 ^ h) by lia.
    apply Z.mod_mul. pose proof (Z.pow_pos_nonneg 2 h); lia. }
  assert (Hlor : Z.lor m (Z.ones h) = Z.ones w).
  { rewrite lor_disjoint_add by exact Hm0. unfold m.
    rewrite !Z.ones_equiv. lia. }
  assert (Hsplit : a = Z.land a m + Z.land a (Z.ones h)).
  { rewrite <- lor_disjoint_add.
    - rewrite <- Z.land_lor_distr_r, Hlor, Z.land_ones by lia.
      symmetry. apply Z.mod_small. exact Ha.
    - rewrite (Z.land_comm a m), <- Z.land_assoc, (Z.land_comm a (Z.land a _)).
      rewrite <- (Z.land_assoc a (Z.ones h) a), (Z.land_comm (Z.ones h) a).
      rewrite (Z.land_assoc a a), Z.land_diag.
      rewrite (Z.land_comm a (Z.ones h)), Z.land_assoc, Hm0. apply Z.land_0_l. }
  rewrite Z.land_ones in Hsplit by lia. lia.
Qed.

Lemma land_netmask a p :
  0 <= p <= 32 -> 0 <= a < 2 ^ 32 ->
  Z.land a (_ip_int_from_prefix p) = a - a mod 2 ^ (32 - p).
Proof.
  intros Hp Ha. rewrite ip_int_from_prefix_eq by exact Hp.
  apply land_high_mask; lia.
Qed.

Lemma mod_pow2_bounds a k : 0 <= k -> 0 <= a mod 2 ^ k < 2 ^ k.
Proof. intros H. apply Z.mod_pos_bound. now apply Z.pow_pos_nonneg. Qed.

(** Clearing host bits gives a valid network. *)
Lemma Valid_truncate a p :
  0 <= p <= 32 -> 0 <= a < 2 ^ 32 ->
  Valid (mkNet (a - a mod 2 ^ (32 - p)) p).
Proof.
  intros Hp Ha. unfold Valid. cbn [network_address prefixlen].
  pose proof (mod_pow2_bounds a (32 - p) ltac:(lia)) as Hb.
  pose proof (Z.mod_le a (2 ^ (32 - p)) ltac:(lia) ltac:(lia)) as Hle.
  repeat split; try lia.
  pose proof (Z.div_mod a (2 ^ (32 - p)) ltac:(lia)) as Hdm.
  replace (a - a mod 2 ^ (32 - p)) with (a / 2 ^ (32 - p) * 2 ^ (32 - p)) by lia.
  apply Z.mod_mul. lia.
Qed.

Lemma supernet_eq n :
  Valid n -> 0 < prefixlen n ->
  supernet n
  = mkNet (network_address n - network_address n mod 2 ^ (33 - prefixlen n))
          (prefixlen n - 1).
Proof.
  intros (Hp & Ha & Hm) Hpos. unfold supernet.
  destruct (Z.eqb_spec (prefixlen n) 0) as [E|_]; [lia|].
  f_equal. unfold netmask. rewrite ip_int_from_prefix_eq by exact Hp.
  rewrite Z.shiftl_mul_pow2 by lia.
  replace ((2 ^ 32 - 2 ^ (32 - prefixlen n)) * 2 ^ 1)
    with (2 ^ 33 - 2 ^ (33 - prefixlen n)).
  - apply land_high_mask; [lia|]. change (2 ^ 33) with (2 * 2 ^ 32). lia.
  - replace (33 - prefixlen n) with ((32 - prefixlen n) + 1) by lia.
    rewrite Z.pow_add_r by lia. change (2 ^ 33) with (2 ^ 32 * 2 ^ 1). lia.
Qed.

Lemma Valid_supernet n : Valid n -> Valid (supernet n).
Proof.
  intros Hv. destruct (Z.eq_dec (prefixlen n) 0) as [E|N].
  - unfold supernet. rewrite E. exact Hv.
  - pose proof Hv as (Hp & Ha & Hm).
    rewrite supernet_eq by (assumption || lia).
    replace (33 - prefixlen n) with (32 - (prefixlen n - 1)) by lia.
    apply Valid_truncate; lia.
Qed.

Lemma covers_iff n a :
  Valid n ->
  (covers n a <->
   network_address n <= a < network_address n + 2 ^ (32 - prefixlen n)).
Proof.
  intros Hv. unfold covers. rewrite broadcast_eq by exact Hv. lia.
Qed.

Lemma size_pos n : Valid n -> 0 < 2 ^ (32 - prefixlen n).
Proof. intros (Hp & _). apply Z.pow_pos_nonneg; lia. Qed.

(** A valid network has its own network address. *)
Lemma covers_self n : Valid n -> covers n (network_address n).
Proof.
  intros Hv. apply covers_iff; [exact Hv|]. pose proof (size_pos n Hv). lia.
Qed.

Lemma covers_range n a : Valid n -> covers n a -> 0 <= a < 2 ^ 32.
Proof.
  intros Hv Hc. apply covers_iff in Hc; [|exact Hv].
  destruct Hv as (Hp & Ha & Hm).
  assert (Hs : 0 < 2 ^ (32 - prefixlen n)) by (apply Z.pow_pos_nonneg; lia).
  split; [lia|].
  apply Z.mod_divide in Hm; [|lia]. destruct Hm as [k Hk].
  assert (2 ^ 32 = 2 ^ prefixlen n * 2 ^ (32 - prefixlen n)) as E.
  { rewrite <- Z.pow_add_r by lia. f_equal. lia. }
  assert (k < 2 ^ prefixlen n) by nia.
  nia.
Qed.

(** [covers] is Python's [address in network]: the address, masked, is
    the network address. *)
Lemma covers_contains n a :
  Valid n -> 0 <= a < 2 ^ 32 ->
  (covers n a <-> Z.land a (netmask n) = network_address n).
Proof.
  intros Hv Ha. rewrite covers_iff by exact Hv.
  pose proof (size_pos n Hv) as Hs. destruct Hv as (Hp & Hr & Hm).
  unfold netmask. rewrite land_netmask by assumption.
  set (s := 2 ^ (32 - prefixlen n)) in *.
  pose proof (Z.mod_pos_bound a s Hs) as Hb.
  split.
  - intros H. apply Z.mod_divide in Hm; [|lia]. destruct Hm as [k Hk].
    assert (a mod s = a - network_address n) as E.
    { replace a with ((a - network_address n) + k * s) at 1 by lia.
      rewrite Z_mod_plus_full. apply Z.mod_small. lia. }
    lia.
  - intros H. lia.
Qed.

(** Two valid networks are [disjoint] when no address belongs to both. *)
Lemma disjoint_iff n m :
  Valid n -> Valid m ->
  (disjoint n m <-> forall a, ~ (covers n a /\ covers m a)).
Proof.
  intros Hn Hm. unfold disjoint. split.
  - intros H a [H1 H2]. unfold covers in *. lia.
  - intros H.
    pose proof (covers_self n Hn) as Cn. pose proof (covers_self m Hm) as Cm.
    destruct (Z.le_gt_cases (network_address n) (network_address m)) as [Hle|Hgt].
    + destruct (Z.lt_ge_cases (broadcast_address n) (network_address m)) as [Hlt|Hge];
        [now left|].
      exfalso. apply (H (network_address m)). unfold covers in *. lia.
    + destruct (Z.lt_ge_cases (broadcast_address m) (network_address n)) as [Hlt|Hge];
        [now right|].
      exfalso. apply (H (network_address n)). unfold covers in *. lia.
Qed.

Lemma subnet_of_iff a b :
  Valid a -> Valid b ->
  (subnet_of a b = true <->
   network_address b <= network_address a /\
   network_address a + 2 ^ (32 - prefixlen a)
   <= network_address b + 2 ^ (32 - prefixlen b)).
Proof.
  intros Ha Hb. unfold subnet_of.
  rewrite andb_true_iff, Z.leb_le, Z.geb_le.
  rewrite !broadcast_eq by assumption. lia.
Qed.

Lemma subnet_of_covers a b x :
  Valid a -> Valid b -> subnet_of a b = true -> covers a x -> covers b x.
Proof.
  intros Ha Hb Hs Hc. apply subnet_of_iff in Hs; try assumption.
  apply covers_iff in Hc; [|exact Ha]. apply covers_iff; [exact Hb|]. lia.
Qed.

Lemma subnet_of_refl a : Valid a -> subnet_of a a = true.
Proof. intros Ha. apply subnet_of_iff; try assumption. lia. Qed.

Lemma subnet_of_trans a b c :
  Valid a -> Valid b -> Valid c ->
  subnet_of a b = true -> subnet_of b c = true -> subnet_of a c = true.
Proof.
  intros Ha Hb Hc H1 H2.
  apply subnet_of_iff in H1; try assumption.
  apply subnet_of_iff in H2; try assumption.
  apply subnet_of_iff; try assumption. lia.
Qed.

(** The two halves of a block: a multiple of [s] is, modulo [2 s],
    either 0 or [s]. *)
Lemma mod_double a s :
  0 < s -> a mod s = 0 -> a mod (2 * s) = 0 \/ a mod (2 * s) = s.
Proof.
  intros Hs Hm. apply Z.mod_divide in Hm; [|lia]. destruct Hm as [k ->].
  rewrite (Z.mul_comm k s), (Z.mul_comm 2 s).
  rewrite Z.mul_mod_distr_l by lia.
  pose proof (Z.mod_pos_bound k 2 ltac:(lia)) as Hb.
  assert (k mod 2 = 0 \/ k mod 2 = 1) as [->| ->] by lia; lia.
Qed.

Lemma pow2_double k : 0 <= k -> 2 ^ (k + 1) = 2 * 2 ^ k.
Proof. intros H. rewrite Z.pow_add_r by lia. lia. Qed.

Lemma subnet_of_supernet n : Valid n -> subnet_of n (supernet n) = true.
Proof.
  intros Hv. destruct (Z.eq_dec (prefixlen n) 0) as [E|N].
  - unfold supernet. rewrite E. simpl. now apply subnet_of_refl.
  - pose proof Hv as (Hp & Ha & Hm).
    apply subnet_of_iff; [exact Hv | now apply Valid_supernet |].
    rewrite supernet_eq by (assumption || lia).
    cbn [network_address prefixlen].
    replace (32 - (prefixlen n - 1)) with ((32 - prefixlen n) + 1) by lia.
    replace (33 - prefixlen n) with ((32 - prefixlen n) + 1) by lia.
    rewrite pow2_double by lia.
    pose proof (size_pos n Hv) as Hs.
    destruct (mod_double (network_address n) _ Hs Hm) as [-> | ->]; lia.
Qed.

(** Two different valid networks with one supernet make it up. *)
Lemma supernet_merge n1 n2 a :
  Valid n1 -> Valid n2 -> n1 <> n2 -> supernet n1 = supernet n2 ->
  (covers (supernet n1) a <-> covers n1 a \/ covers n2 a).
Proof.
  intros H1 H2 Hne Hs.
  pose proof (subnet_of_supernet n1 H1) as S1.
  pose proof (subnet_of_supernet n2 H2) as S2.
  pose proof (Valid_supernet n1 H1) as V1.
  pose proof (Valid_supernet n2 H2) as V2.
  split.
  2:{ intros [H|H].
      - exact (subnet_of_covers n1 _ a H1 V1 S1 H).
      - rewrite Hs. exact (subnet_of_covers n2 _ a H2 V2 S2 H). }
  destruct (Z.eq_dec (prefixlen n1) 0) as [E1|N1].
  { unfold supernet at 1. rewrite E1. simpl. now left. }
  destruct (Z.eq_dec (prefixlen n2) 0) as [E2|N2].
  { rewrite Hs. unfold supernet at 1. rewrite E2. simpl. now right. }
  pose proof H1 as (Hp1 & Ha1 & Hm1). pose proof H2 as (Hp2 & Ha2 & Hm2).
  rewrite (supernet_eq n1) in Hs by (assumption || lia).
  rewrite (supernet_eq n2) in Hs by (assumption || lia).
  pose proof (f_equal network_address Hs) as Haddr.
  pose proof (f_equal prefixlen Hs) as Hlen.
  cbn [network_address prefixlen] in Haddr, Hlen.
  assert (Hpe : prefixlen n1 = prefixlen n2) by lia.
  rewrite covers_iff by exact V1.
  rewrite (covers_iff n1) by exact H1. rewrite (covers_iff n2) by exact H2.
  rewrite supernet_eq by (assumption || lia).
  cbn [network_address prefixlen].
  rewrite <- Hpe in *.
  replace (32 - (prefixlen n1 - 1)) with ((32 - prefixlen n1) + 1) by lia.
  replace (33 - prefixlen n1) with ((32 - prefixlen n1) + 1) in * by lia.
  rewrite pow2_double in * by lia.
  pose proof (size_pos n1 H1) as Hsz.
  assert (network_address n1 <> network_address n2) as Hane.
  { intros E. apply Hne. destruct n1, n2. simpl in *. congruence. }
  destruct (mod_double (network_address n1) _ Hsz Hm1) as [R1|R1];
    destruct (mod_double (network_address n2) _ Hsz Hm2) as [R2|R2];
    rewrite R1, R2 in *; lia.
Qed.

(** Two different valid networks with one supernet overlap or touch. *)
Lemma supernet_shared n1 n2 :
  Valid n1 -> Valid n2 -> n1 <> n2 -> supernet n1 = supernet n2 ->
  ~ disjoint n1 n2 \/ adjacent n1 n2.
Proof.
  intros H1 H2 Hne Hs.
  pose proof (subnet_of_supernet n1 H1) as S1.
  pose proof (subnet_of_supernet n2 H2) as S2.
  unfold disjoint, adjacent.
  rewrite !broadcast_eq by assumption.
  pose proof (size_pos n1 H1) as Hsz1. pose proof (size_pos n2 H2) as Hsz2.
  destruct (Z.eq_dec (prefixlen n1) 0) as [E1|N1].
  { left. rewrite <- Hs in S2. unfold supernet in S2. rewrite E1 in S2.
    simpl in S2. apply subnet_of_iff in S2; try assumption. lia. }
  destruct (Z.eq_dec (prefixlen n2) 0) as [E2|N2].
  { left. rewrite Hs in S1. unfold supernet in S1. rewrite E2 in S1.
    simpl in S1. apply subnet_of_iff in S1; try assumption. lia. }
  pose proof H1 as (Hp1 & Ha1 & Hm1). pose proof H2 as (Hp2 & Ha2 & Hm2).
  rewrite (supernet_eq n1) in Hs by (assumption || lia).
  rewrite (supernet_eq n2) in Hs by (assumption || lia).
  pose proof (f_equal network_address Hs) as Haddr.
  pose proof (f_equal prefixlen Hs) as Hlen.
  cbn [network_address prefixlen] in Haddr, Hlen.
  assert (Hpe : prefixlen n1 = prefixlen n2) by lia.
  rewrite <- Hpe in *.
  replace (33 - prefixlen n1) with ((32 - prefixlen n1) + 1) in * by lia.
  rewrite pow2_double in * by lia.
  assert (network_address n1 <> network_address n2) as Hane.
  { intros E. apply Hne. destruct n1, n2. simpl in *. congruence. }
  right.
  destruct (mod_double (network_address n1) _ Hsz1 Hm1) as [R1|R1];
    destruct (mod_double (network_address n2) _ Hsz1 Hm2) as [R2|R2];
    rewrite R1, R2 in *; lia.
Qed.

End IpFacts.

(* ================================================================== *)
(** * Facts about networks: counting zero bits, parsing, printing *)
(* ================================================================== *)

Module IpParseFacts.
Import PyDict PyDictFacts Ipaddress IpSpec IpFacts.

(** ** [_count_righthand_zero_bits] *)

Lemma low_zeros_even n :
  Z.land (Z.lnot (2 * n)) (2 * n - 1) = 2 * Z.land (Z.lnot n) (n - 1) + 1.
Proof.
  apply Z.bits_inj'. intros i Hi.
  rewrite Z.land_spec, Z.lnot_spec by lia.
  replace (2 * n - 1) with (2 * (n - 1) + 1) by lia.
  destruct (Z.eq_dec i 0) as [->|Hne].
  - rewrite Z.testbit_even_0, !Z.testbit_odd_0. reflexivity.
  - replace i with (Z.succ (i - 1)) by lia.
    rewrite Z.testbit_even_succ, !Z.testbit_odd_succ by lia.
    rewrite Z.land_spec, Z.lnot_spec by lia. reflexivity.
Qed.

Lemma low_zeros_odd n : Z.land (Z.lnot (2 * n + 1)) (2 * n + 1 - 1) = 0.
Proof.
  apply Z.bits_inj'. intros i Hi.
  rewrite Z.land_spec, Z.lnot_spec, Z.bits_0 by lia.
  replace (2 * n + 1 - 1) with (2 * n) by lia.
  destruct (Z.eq_dec i 0) as [->|Hne].
  - rewrite Z.testbit_odd_0. reflexivity.
  - replace i with (Z.succ (i - 1)) by lia.
    rewrite Z.testbit_even_succ, Z.testbit_odd_succ by lia.
    now destruct (Z.testbit n (i - 1)).
Qed.

Lemma low_zeros_pos (p : positive) :
  exists j, 0 <= j /\
    Z.land (Z.lnot (Z.pos p)) (Z.pos p - 1) = 2 ^ j - 1 /\
    Z.pos p mod 2 ^ j = 0.
Proof.
  induction p as [p IH|p IH|].
  - exists 0. split; [lia|]. split.
    + change (Z.pos p~1) with (2 * Z.pos p + 1). apply low_zeros_odd.
    + apply Z.mod_1_r.
  - destruct IH as (j & Hj & Hf & Hm).
    exists (j + 1). split; [lia|].
    change (Z.pos p~0) with (2 * Z.pos p). split.
    + rewrite low_zeros_even, Hf, pow2_double by lia. lia.
    + rewrite pow2_double by lia.
      rewrite Z.mul_mod_distr_l by (pose proof (Z.pow_pos_nonneg 2 j); lia).
      lia.
  - exists 0. split; [lia|]. split; reflexivity.
Qed.

Lemma bit_length_nonneg x : 0 <= bit_length x.
Proof.
  unfold bit_length. destruct (x =? 0); [lia|].
  pose proof (Z.log2_nonneg (Z.abs x)). lia.
Qed.

Lemma bit_length_ones j : 0 <= j -> bit_length (2 ^ j - 1) = j.
Proof.
  intros Hj. unfold bit_length.
  destruct (Z.eq_dec j 0) as [->|Hne]; [reflexivity|].
  assert (1 < 2 ^ j) by (apply Z.pow_gt_1; lia).
  destruct (Z.eqb_spec (2 ^ j - 1) 0); [lia|].
  rewrite Z.abs_eq by lia.
  change (2 ^ j - 1) with (Z.pred (2 ^ j)).
  rewrite Z.log2_pred_pow2 by lia. lia.
Qed.

Lemma count_zero_bits_range number bits :
  0 <= bits -> 0 <= _count_righthand_zero_bits number bits <= bits.
Proof.
  intros Hb. unfold _count_righthand_zero_bits.
  destruct (number =? 0); [lia|].
  pose proof (bit_length_nonneg (Z.land (Z.lnot number) (number - 1))). lia.
Qed.

Lemma count_zero_bits_divides number bits :
  0 <= number -> 0 <= bits ->
  number mod 2 ^ _count_righthand_zero_bits number bits = 0.
Proof.
  intros Hn Hb. unfold _count_righthand_zero_bits.
  destruct (Z.eqb_spec number 0) as [->|Hne]; [apply Z.mod_0_l; pose proof (Z.pow_pos_nonneg 2 bits); lia|].
  destruct number as [|p|p]; try lia.
  destruct (low_zeros_pos p) as (j & Hj & Hf & Hm).
  rewrite Hf, bit_length_ones by exact Hj.
  apply Z.mod_divide; [pose proof (Z.pow_pos_nonneg 2 (Z.min bits j)); lia|].
  apply Z.mod_divide in Hm; [|pose proof (Z.pow_pos_nonneg 2 j); lia].
  apply Z.divide_trans with (2 ^ j); [|exact Hm].
  exists (2 ^ (j - Z.min bits j)).
  rewrite <- Z.pow_add_r by lia. f_equal. lia.
Qed.

(** ** What parsing returns is valid *)

Lemma is_digit_range c :
  is_digit c = true -> 0 <= Z.of_nat (nat_of_ascii c) - 48 <= 9.
Proof.
  unfold is_digit. rewrite andb_true_iff, !Nat.leb_le. lia.
Qed.

Lemma int_digits_nonneg s : forall acc,
  all_digits s = true -> 0 <= acc -> 0 <= int_digits acc s.
Proof.
  induction s as [|c s IH]; intros acc Hd Ha;
    cbn [int_digits all_digits] in *; [exact Ha|].
  apply andb_true_iff in Hd. destruct Hd as [Hc Hs].
  apply IH; [exact Hs|]. pose proof (is_digit_range c Hc). lia.
Qed.

Lemma isascii_isdigit_all s : isascii_isdigit s = true -> all_digits s = true.
Proof. destruct s; [discriminate | auto]. Qed.

Lemma parse_octet_range s o : _parse_octet s = Some o -> 0 <= o <= 255.
Proof.
  unfold _parse_octet.
  destruct (String.eqb s ""); [discriminate|].
  destruct (isascii_isdigit s) eqn:Ed; [|discriminate]. simpl.
  destruct (3 <? String.length s)%nat; [discriminate|].
  destruct (negb (String.eqb s "0") && _); [discriminate|].
  destruct (Z.gtb_spec (int_digits 0 s) 255); [discriminate|].
  intros [= <-]. split; [|lia].
  apply int_digits_nonneg; [now apply isascii_isdigit_all | lia].
Qed.

Lemma from_octets_range octets : forall acc v,
  from_octets acc octets = Some v -> 0 <= acc ->
  acc * 256 ^ Z.of_nat (length octets) <= v
  < (acc + 1) * 256 ^ Z.of_nat (length octets).
Proof.
  induction octets as [|o rest IH]; intros acc v H Ha; cbn [from_octets] in H.
  - inversion H; subst. cbn [length]. change (256 ^ Z.of_nat 0) with 1. lia.
  - destruct (_parse_octet o) as [b|] eqn:Eo; [|discriminate].
    apply parse_octet_range in Eo.
    apply IH in H; [|lia].
    cbn [length]. rewrite Nat2Z.inj_succ, Z.pow_succ_r by lia.
    pose proof (Z.pow_pos_nonneg 256 (Z.of_nat (length rest)) ltac:(lia) ltac:(lia)).
    nia.
Qed.

Lemma ip_int_from_string_range s v :
  _ip_int_from_string s = Some v -> 0 <= v < 2 ^ 32.
Proof.
  unfold _ip_int_from_string.
  destruct (String.eqb s ""); [discriminate|].
  destruct (Nat.eqb_spec (length (split "." s)) 4) as [E|]; [|discriminate].
  cbn [negb]. intros H. apply from_octets_range in H; [|lia].
  rewrite E in H. change (256 ^ Z.of_nat 4) with (2 ^ 32) in H. lia.
Qed.

Lemma prefix_from_ip_int_range x p :
  _prefix_from_ip_int x = Some p -> 0 <= p <= 32.
Proof.
  unfold _prefix_from_ip_int.
  destruct (negb _); [discriminate|]. intros Hp. apply Some_eq in Hp.
  assert (0 <= _max_prefixlen) as H0 by (unfold _max_prefixlen, IPV4LENGTH; lia).
  pose proof (count_zero_bits_range x _max_prefixlen H0) as H.
  change _max_prefixlen with 32 in *. lia.
Qed.

Lemma make_netmask_range s p : _make_netmask s = Some p -> 0 <= p <= 32.
Proof.
  unfold _make_netmask, _prefix_from_prefix_string, _prefix_from_ip_string.
  destruct (negb (isascii_isdigit s)).
  - destruct (_ip_int_from_string s) as [x|]; [|discriminate].
    destruct (_prefix_from_ip_int x) as [q|] eqn:E1.
    + intros [= <-]. now apply prefix_from_ip_int_range in E1.
    + apply prefix_from_ip_int_range.
  - destruct (py_int s) as [q|].
    + destruct (negb ((0 <=? q) && (q <=? _max_prefixlen))) eqn:E.
      * destruct (_ip_int_from_string s) as [x|]; [|discriminate].
        destruct (_prefix_from_ip_int x) as [q'|] eqn:E1.
        -- intros [= <-]. now apply prefix_from_ip_int_range in E1.
        -- apply prefix_from_ip_int_range.
      * intros [= <-]. apply negb_false_iff, andb_true_iff in E.
        rewrite !Z.leb_le in E. exact E.
    + destruct (_ip_int_from_string s) as [x|]; [|discriminate].
      destruct (_prefix_from_ip_int x) as [q'|] eqn:E1.
      * intros [= <-]. now apply prefix_from_ip_int_range in E1.
      * apply prefix_from_ip_int_range.
Qed.

(** Every network the parser returns is valid. *)
Lemma IPv4Network_Valid s n : IPv4Network_of_string s = Some n -> Valid n.
Proof.
  unfold IPv4Network_of_string.
  destruct (2 <? length (split "/" s))%nat; [discriminate|].
  destruct (split "/" s) as [|addr rest]; [discriminate|].
  unfold IPv4Address.
  destruct (contains_char "/" addr); [discriminate|].
  destruct (_ip_int_from_string addr) as [packed|] eqn:Ea; [|discriminate].
  apply ip_int_from_string_range in Ea.
  assert (forall p, 0 <= p <= 32 ->
            (if negb (Z.land packed (_ip_int_from_prefix p) =? packed)
             then Some (mkNet (Z.land packed (_ip_int_from_prefix p)) p)
             else Some (mkNet packed p)) = Some n -> Valid n) as Hfin.
  { intros p Hp H.
    assert (n = mkNet (Z.land packed (_ip_int_from_prefix p)) p) as ->.
    { destruct (Z.eqb_spec (Z.land packed (_ip_int_from_prefix p)) packed) as [E|];
        simpl in H; inversion H; subst; [now rewrite E | reflexivity]. }
    rewrite land_netmask by assumption. now apply Valid_truncate. }
  destruct rest as [|mask rest'].
  - apply Hfin. unfold _max_prefixlen, IPV4LENGTH. lia.
  - destruct (_make_netmask mask) as [p|] eqn:Em; [|discriminate].
    apply Hfin. now apply make_netmask_range in Em.
Qed.

(** ** Printing, then parsing *)

Lemma contains_char_app c a b :
  contains_char c (a ++ b)%string = contains_char c a || contains_char c b.
Proof.
  induction a as [|x a IH]; simpl; [reflexivity|].
  rewrite IH. now rewrite orb_assoc.
Qed.

Lemma split_none c s : contains_char c s = false -> split c s = [s].
Proof.
  induction s as [|x s IH]; simpl; [reflexivity|].
  intros H. apply orb_false_iff in H. destruct H as [Hx Hs].
  rewrite Hx, (IH Hs). reflexivity.
Qed.

Lemma split_app c s t :
  contains_char c s = false ->
  split c (s ++ String c t)%string = s :: split c t.
Proof.
  induction s as [|x s IH]; simpl.
  - intros _. now rewrite Ascii.eqb_refl.
  - intros H. apply orb_false_iff in H. destruct H as [Hx Hs].
    rewrite Hx, (IH Hs). reflexivity.
Qed.

Lemma octet_text o :
  0 <= o < 256 ->
  _parse_octet (py_str o) = Some o /\
  contains_char "." (py_str o) = false /\
  contains_char "/" (py_str o) = false.
Proof.
  intros Ho.
  assert (octet_text_ok o = true) as H.
  { apply (zrange_forall octet_text_ok 256); [vm_compute; reflexivity | lia]. }
  unfold octet_text_ok in H.
  apply andb_true_iff in H. destruct H as [H H3].
  apply andb_true_iff in H. destruct H as [H1 H2].
  apply negb_true_iff in H2, H3.
  destruct (_parse_octet (py_str o)) as [o'|]; [|discriminate].
  apply Z.eqb_eq in H1. subst o'. auto.
Qed.

Lemma prefix_text p :
  0 <= p <= 32 ->
  _make_netmask (py_str p) = Some p /\
  contains_char "/" (py_str p) = false.
Proof.
  intros Hp.
  assert (prefix_text_ok p = true) as H.
  { apply (zrange_forall prefix_text_ok 33); [vm_compute; reflexivity | lia]. }
  unfold prefix_text_ok in H.
  apply andb_true_iff in H. destruct H as [H1 H2].
  apply negb_true_iff in H2.
  destruct (_make_netmask (py_str p)) as [p'|]; [|discriminate].
  apply Z.eqb_eq in H1. subst p'. auto.
Qed.

Lemma to_bytes4_value a :
  0 <= a < 2 ^ 32 ->
  256 * (256 * (256 * (256 * 0 + (a / 2 ^ 24) mod 256) + (a / 2 ^ 16) mod 256)
         + (a / 2 ^ 8) mod 256) + a mod 256 = a.
Proof.
  intros Ha.
  change (2 ^ 24) with (2 ^ 8 * (2 ^ 8 * 2 ^ 8)).
  change (2 ^ 16) with (2 ^ 8 * 2 ^ 8).
  rewrite <- !Z.div_div by lia.
  change (2 ^ 8) with 256.
  set (q1 := a / 256). set (q2 := q1 / 256). set (q3 := q2 / 256).
  pose proof (Z.div_mod a 256 ltac:(lia)) as E0. fold q1 in E0.
  pose proof (Z.div_mod q1 256 ltac:(lia)) as E1. fold q2 in E1.
  pose proof (Z.div_mod q2 256 ltac:(lia)) as E2. fold q3 in E2.
  pose proof (Z.mod_pos_bound a 256 ltac:(lia)).
  pose proof (Z.mod_pos_bound q1 256 ltac:(lia)).
  pose proof (Z.mod_pos_bound q2 256 ltac:(lia)).
  assert (0 <= q3 < 256) as Hq3.
  { assert (0 <= q1 < 2 ^ 24) by (unfold q1; split;
      [apply Z.div_pos; lia | apply Z.div_lt_upper_bound; lia]).
    assert (0 <= q2 < 2 ^ 16) by (unfold q2; split;
      [apply Z.div_pos; lia | apply Z.div_lt_upper_bound; lia]).
    unfold q3; split; [apply Z.div_pos; lia | apply Z.div_lt_upper_bound; lia]. }
  rewrite (Z.mod_small q3 256) by exact Hq3.
  lia.
Qed.

(** [str] and [IPv4Network_of_string] on a valid network: the text denotes the
    network. *)
Lemma IPv4Network_str n : Valid n -> IPv4Network_of_string (str n) = Some n.
Proof.
  intros (Hp & Ha & Hm).
  set (a := network_address n) in *. set (p := prefixlen n) in *.
  assert (H1 : 0 <= (a / 2 ^ 24) mod 256 < 256) by (apply Z.mod_pos_bound; lia).
  assert (H2 : 0 <= (a / 2 ^ 16) mod 256 < 256) by (apply Z.mod_pos_bound; lia).
  assert (H3 : 0 <= (a / 2 ^ 8) mod 256 < 256) by (apply Z.mod_pos_bound; lia).
  assert (H4 : 0 <= a mod 256 < 256) by (apply Z.mod_pos_bound; lia).
  destruct (octet_text _ H1) as (P1 & D1 & S1).
  destruct (octet_text _ H2) as (P2 & D2 & S2).
  destruct (octet_text _ H3) as (P3 & D3 & S3).
  destruct (octet_text _ H4) as (P4 & D4 & S4).
  destruct (prefix_text _ Hp) as (PP & SP).
  set (O1 := py_str ((a / 2 ^ 24) mod 256)) in *.
  set (O2 := py_str ((a / 2 ^ 16) mod 256)) in *.
  set (O3 := py_str ((a / 2 ^ 8) mod 256)) in *.
  set (O4 := py_str (a mod 256)) in *.
  set (P := py_str p) in *.
  assert (Hstr : str n
                 = ((O1 ++ String "." (O2 ++ String "." (O3 ++ String "." O4)))
                      ++ String "/" P)%string) by reflexivity.
  set (A := (O1 ++ String "." (O2 ++ String "." (O3 ++ String "." O4)))%string) in *.
  assert (HA : contains_char "/" A = false).
  { unfold A. rewrite !contains_char_app. cbn [contains_char].
    rewrite !contains_char_app. cbn [contains_char].
    rewrite !contains_char_app. cbn [contains_char].
    rewrite S1, S2, S3, S4. reflexivity. }
  assert (HsplitA : split "." A = [O1; O2; O3; O4]).
  { unfold A. rewrite split_app by exact D1. rewrite split_app by exact D2.
    rewrite split_app by exact D3. now rewrite split_none by exact D4. }
  assert (HAne : String.eqb A "" = false).
  { unfold A. destruct O1; reflexivity. }
  unfold IPv4Network_of_string.
  rewrite Hstr, split_app by exact HA. rewrite split_none by exact SP.
  cbn [length Nat.ltb Nat.leb].
  unfold IPv4Address. rewrite HA.
  unfold _ip_int_from_string. rewrite HAne, HsplitA.
  cbn [length Nat.eqb negb from_octets].
  rewrite P1, P2, P3, P4, PP.
  rewrite to_bytes4_value by exact Ha.
  rewrite land_netmask by assumption.
  fold a p. rewrite Hm, Z.sub_0_r, Z.eqb_refl. cbn [negb].
  destruct n; reflexivity.
Qed.

Lemma str_inj n m : Valid n -> Valid m -> str n = str m -> n = m.
Proof.
  intros Hn Hm E. apply Some_eq.
  rewrite <- (IPv4Network_str n Hn), <- (IPv4Network_str m Hm). now rewrite E.
Qed.

(** ** Text with a colon is no IPv4 network *)

Lemma split_nonempty c s : split c s <> [].
Proof.
  destruct s as [|x s]; simpl; [discriminate|].
  destruct (Ascii.eqb x c); [discriminate|].
  destruct (split c s); discriminate.
Qed.

(** A character that is in no part is not in the text. *)
Lemma contains_char_split c sep s :
  Ascii.eqb sep c = false ->
  (forall part, In part (split sep s) -> contains_char c part = false) ->
  contains_char c s = false.
Proof.
  intros Hsep. induction s as [|x s IH]; intros Hparts; [reflexivity|].
  cbn [contains_char]. cbn [split] in Hparts.
  destruct (Ascii.eqb_spec x sep) as [->|Hne].
  - rewrite Hsep. apply IH. intros part H. apply Hparts. now right.
  - pose proof (split_nonempty sep s) as Hn.
    destruct (split sep s) as [|h t]; [contradiction|].
    pose proof (Hparts _ (or_introl eq_refl)) as Hh. cbn [contains_char] in Hh.
    apply orb_false_iff in Hh. destruct Hh as [Hx Hh]. rewrite Hx.
    apply IH. intros part [<-|H]; [exact Hh | apply Hparts; now right].
Qed.

Lemma all_digits_no_colon s :
  all_digits s = true -> contains_char ":" s = false.
Proof.
  induction s as [|x s IH]; [reflexivity|]. cbn [all_digits contains_char].
  intros H. apply andb_true_iff in H. destruct H as [Hx Hs].
  rewrite (IH Hs), orb_false_r.
  destruct (Ascii.eqb_spec x ":") as [->|]; [discriminate | reflexivity].
Qed.

Lemma parse_octet_no_colon o v :
  _parse_octet o = Some v -> contains_char ":" o = false.
Proof.
  unfold _parse_octet.
  destruct (String.eqb o ""); [discriminate|].
  destruct (isascii_isdigit o) eqn:E; [|discriminate].
  intros _. now apply all_digits_no_colon, isascii_isdigit_all.
Qed.

Lemma from_octets_no_colon octets : forall acc v,
  from_octets acc octets = Some v ->
  forall o, In o octets -> contains_char ":" o = false.
Proof.
  induction octets as [|o rest IH]; intros acc v H o' Hin; [destruct Hin|].
  cbn [from_octets] in H.
  destruct (_parse_octet o) as [b|] eqn:E; [|discriminate].
  destruct Hin as [<-|Hin]; [now apply parse_octet_no_colon in E|].
  now apply (IH _ _ H).
Qed.

Lemma ip_int_from_string_no_colon s v :
  _ip_int_from_string s = Some v -> contains_char ":" s = false.
Proof.
  unfold _ip_int_from_string.
  destruct (String.eqb s ""); [discriminate|].
  destruct (negb _); [discriminate|].
  intros H. apply (contains_char_split ":" "." s); [reflexivity|].
  now apply (from_octets_no_colon _ _ _ H).
Qed.

Lemma make_netmask_no_colon s p :
  _make_netmask s = Some p -> contains_char ":" s = false.
Proof.
  unfold _make_netmask, _prefix_from_prefix_string, _prefix_from_ip_string.
  destruct (isascii_isdigit s) eqn:Ed.
  - intros _. now apply all_digits_no_colon, isascii_isdigit_all.
  - cbn [negb].
    destruct (_ip_int_from_string s) as [x|] eqn:E; [|discriminate].
    intros _. now apply ip_int_from_string_no_colon in E.
Qed.

(** No text with a colon, such as an address [ip:port], is an IPv4
    network.  (CPython then tries IPv6, which wants three parts between
    colons: a text with one colon is no network at all.) *)
Lemma IPv4Network_no_colon s :
  contains_char ":" s = true -> IPv4Network_of_string s = None.
Proof.
  intros Hc. destruct (IPv4Network_of_string s) as [n|] eqn:E; [|reflexivity].
  exfalso. revert E.
  unfold IPv4Network_of_string.
  pose proof (contains_char_split ":" "/" s eq_refl) as Hs.
  destruct (split "/" s) as [|addr [|mask [|x rest]]];
    cbn [length Nat.ltb Nat.leb]; try discriminate.
  - unfold IPv4Address.
    destruct (contains_char "/" addr); [discriminate|].
    destruct (_ip_int_from_string addr) as [packed|] eqn:Ea; [|discriminate].
    apply ip_int_from_string_no_colon in Ea. intros _.
    rewrite Hs in Hc; [discriminate|].
    intros part [<-|[]]. exact Ea.
  - unfold IPv4Address.
    destruct (contains_char "/" addr); [discriminate|].
    destruct (_ip_int_from_string addr) as [packed|] eqn:Ea; [|discriminate].
    apply ip_int_from_string_no_colon in Ea.
    destruct (_make_netmask mask) as [p|] eqn:Em; [|discriminate].
    apply make_netmask_no_colon in Em. intros _.
    rewrite Hs in Hc; [discriminate|].
    intros part [<-|[<-|[]]]; assumption.
Qed.

End IpParseFacts.

(* ================================================================== *)
(** * Facts about [sorted], address ranges and their summaries *)
(* ================================================================== *)

Module RangeFacts.
Import PyDict PyDictFacts Ipaddress IpSpec IpFacts IpParseFacts.

(** ** [sorted] *)

Section SortedFacts.
Context {A : Type} (ltb : A -> A -> bool) (le : A -> A -> Prop).
Hypothesis le_trans : forall x y z, le x y -> le y z -> le x z.
Hypothesis ltb_le : forall x y, ltb x y = true -> le x y.
Hypothesis nltb_le : forall x y, ltb x y = false -> le y x.

Lemma insert_perm x l : Permutation (insert ltb x l) (x :: l).
Proof.
  induction l as [|y l IH]; simpl; [reflexivity|].
  destruct (ltb y x); [|reflexivity].
  rewrite IH. apply perm_swap.
Qed.

Lemma sorted_perm l : Permutation (sorted ltb l) l.
Proof.
  induction l as [|x l IH]; simpl; [reflexivity|].
  rewrite insert_perm. now constructor.
Qed.

Lemma insert_sorted x l :
  StronglySorted le l -> StronglySorted le (insert ltb x l).
Proof.
  induction l as [|y l IH]; simpl; intros Hs.
  - repeat constructor.
  - inversion Hs as [|? ? Hs' Hall]; subst.
    destruct (ltb y x) eqn:E.
    + constructor; [now apply IH|].
      rewrite Forall_forall in *. intros z Hz.
      apply (Permutation_in _ (insert_perm x l)) in Hz.
      destruct Hz as [<-|Hz]; [now apply ltb_le | now apply Hall].
    + constructor; [exact Hs|].
      constructor; [now apply nltb_le|].
      rewrite Forall_forall in *. intros z Hz.
      apply le_trans with y; [now apply nltb_le | now apply Hall].
Qed.

Lemma sorted_sorted l : StronglySorted le (sorted ltb l).
Proof.
  induction l as [|x l IH]; simpl; [constructor | now apply insert_sorted].
Qed.
End SortedFacts.

Lemma sorted_In {A : Type} (ltb : A -> A -> bool) l x :
  In x (sorted ltb l) <-> In x l.
Proof.
  split; apply Permutation_in;
    [apply sorted_perm | symmetry; apply sorted_perm].
Qed.

Lemma sorted_length {A : Type} (ltb : A -> A -> bool) l :
  length (sorted ltb l) = length l.
Proof. apply Permutation_length, sorted_perm. Qed.

Lemma sorted_by_address l : StronglySorted by_address (sorted net_ltb l).
Proof.
  apply sorted_sorted; unfold by_address, net_ltb.
  - intros; lia.
  - intros x y.
    destruct (Z.eqb_spec (network_address x) (network_address y)); simpl.
    + lia.
    + rewrite Z.ltb_lt. lia.
  - intros x y.
    destruct (Z.eqb_spec (network_address x) (network_address y)); simpl.
    + lia.
    + rewrite Z.ltb_ge. lia.
Qed.

(** ** The second loop of [_collapse_addresses_internal] *)

Lemma skip_subsumed_In last l x : In x (skip_subsumed last l) -> In x l.
Proof.
  revert last. induction l as [|net l IH]; intros last; simpl; [tauto|].
  destruct last as [la|].
  - destruct (broadcast_address la >=? broadcast_address net).
    + intros H. right. eapply IH; eauto.
    + intros [<-|H]; [now left | right; eapply IH; eauto].
  - intros [<-|H]; [now left | right; eapply IH; eauto].
Qed.

Lemma skip_subsumed_length last l :
  (length (skip_subsumed last l) <= length l)%nat.
Proof.
  revert last. induction l as [|net l IH]; intros last; simpl; [lia|].
  destruct last as [la|].
  - destruct (broadcast_address la >=? broadcast_address net); simpl.
    + specialize (IH (Some la)). lia.
    + specialize (IH (Some net)). lia.
  - specialize (IH (Some net)). simpl. lia.
Qed.

(** What is skipped is covered by the last network kept. *)
Lemma skip_subsumed_covers l : forall last a,
  StronglySorted by_address l ->
  (forall la, last = Some la -> Forall (by_address la) l) ->
  covered l a ->
  covered (skip_subsumed last l) a \/
  (exists la, last = Some la /\ covers la a).
Proof.
  induction l as [|net l IH]; intros last a Hs Hla (n & Hin & Hc).
  - destruct Hin.
  - inversion Hs as [|? ? Hs' Hall]; subst. simpl.
    assert (Hrest : covered l a ->
              covered (skip_subsumed (Some net) l) a \/ covers net a).
    { intros H. destruct (IH (Some net) a Hs') as [H1|(la & E & H1)]; trivial.
      - intros la [= <-]. exact Hall.
      - now left.
      - inversion E; subst. now right. }
    destruct last as [la|].
    + pose proof (Hla la eq_refl) as Hf.
      inversion Hf as [|? ? Hnet Hf']; subst.
      destruct (Z.geb_spec (broadcast_address la) (broadcast_address net)) as [Hge|Hlt].
      * destruct Hin as [<-|Hin].
        -- right. exists la. split; [reflexivity|].
           unfold covers, by_address in *. lia.
        -- apply (IH (Some la) a Hs'); [|now exists n].
           intros ? [= <-]. exact Hf'.
      * left. destruct Hin as [<-|Hin].
        -- exists net. split; [now left | exact Hc].
        -- destruct Hrest as [(m & Hm & Hcm)|Hcn]; [now exists n | |].
           ++ exists m. split; [now right | exact Hcm].
           ++ exists net. split; [now left | exact Hcn].
    + left. destruct Hin as [<-|Hin].
      * exists net. split; [now left | exact Hc].
      * destruct Hrest as [(m & Hm & Hcm)|Hcn]; [now exists n | |].
        -- exists m. split; [now right | exact Hcm].
        -- exists net. split; [now left | exact Hcn].
Qed.

(** Networks that share no address are all kept. *)
Lemma skip_subsumed_disjoint l : forall last,
  Forall Valid l ->
  StronglySorted by_address l ->
  ForallOrdPairs disjoint l ->
  (forall la, last = Some la ->
              Forall (by_address la) l /\ Forall (disjoint la) l) ->
  skip_subsumed last l = l.
Proof.
  induction l as [|net l IH]; intros last Hv Hs Hd Hla; simpl; [reflexivity|].
  inversion Hv as [|? ? Hvn Hv']; subst.
  inversion Hs as [|? ? Hs' Hall]; subst.
  inversion Hd as [|? ? Hdn Hd']; subst.
  assert (Hrec : skip_subsumed (Some net) l = l).
  { apply IH; trivial. intros la [= <-]. split; assumption. }
  destruct last as [la|]; [|now rewrite Hrec].
  destruct (Hla la eq_refl) as [Hf1 Hf2].
  inversion Hf1 as [|? ? Hb _]; subst. inversion Hf2 as [|? ? Hdis _]; subst.
  destruct (Z.geb_spec (broadcast_address la) (broadcast_address net)) as [Hge|Hlt].
  - exfalso. unfold disjoint, by_address in *.
    pose proof (covers_self net Hvn) as Hc. unfold covers in Hc. lia.
  - now rewrite Hrec.
Qed.

(** ** [_find_address_range] *)

Lemma find_range_loop_covers it : forall first last a,
  first <= last ->
  (in_ranges (find_range_loop first last it) a <->
   first <= a <= last \/ In a it).
Proof.
  induction it as [|ip it IH]; intros first last a Hfl; simpl.
  - unfold in_ranges. split.
    + intros (f & l & [E|[]] & H). inversion E; subst. now left.
    + intros [H|[]]. exists first, last. split; [now left | exact H].
  - destruct (Z.eqb_spec ip (last + 1)) as [E|N]; simpl.
    + rewrite IH by lia. subst ip. split.
      * intros [H|H]; [|tauto].
        destruct (Z.eq_dec a (last + 1)); [right; now left | left; lia].
      * intros [H|[H|H]]; [left; lia | left; lia | tauto].
    + unfold in_ranges. split.
      * intros (f & l & [E|Hin] & H).
        -- inversion E; subst. now left.
        -- assert (in_ranges (find_range_loop ip ip it) a) as Hr
             by (exists f, l; tauto).
           apply IH in Hr; [|lia]. destruct Hr as [Hr|Hr]; [|tauto].
           right. left. lia.
      * intros [H|[H|H]].
        -- exists first, last. split; [now left | exact H].
        -- assert (in_ranges (find_range_loop ip ip it) a) as (f & l & Hin & Hr)
             by (apply IH; [lia | left; lia]).
           exists f, l. split; [now right | exact Hr].
        -- assert (in_ranges (find_range_loop ip ip it) a) as (f & l & Hin & Hr)
             by (apply IH; [lia | now right]).
           exists f, l. split; [now right | exact Hr].
Qed.

Lemma find_range_loop_ordered it : forall first last f l,
  first <= last -> In (f, l) (find_range_loop first last it) -> f <= l.
Proof.
  induction it as [|ip it IH]; intros first last f l Hfl; simpl.
  - intros [E|[]]. inversion E; subst. exact Hfl.
  - destruct (Z.eqb_spec ip (last + 1)) as [E|N]; simpl.
    + apply IH. lia.
    + intros [E|H]; [inversion E; subst; exact Hfl | eapply IH; [|exact H]; lia].
Qed.

Lemma find_range_loop_size it : forall first last,
  ranges_size (find_range_loop first last it)
  = (last - first + 1) + Z.of_nat (length it).
Proof.
  induction it as [|ip it IH]; intros first last; cbn [find_range_loop].
  - cbn [ranges_size length]. lia.
  - destruct (Z.eqb_spec ip (last + 1)) as [E|N]; cbn [negb].
    + rewrite IH. cbn [length]. lia.
    + cbn [ranges_size]. rewrite IH. cbn [length]. lia.
Qed.

Lemma find_address_range_covers ips a :
  in_ranges (_find_address_range ips) a <-> In a ips.
Proof.
  destruct ips as [|first it]; simpl.
  - split; [intros (f & l & [] & _) | tauto].
  - rewrite find_range_loop_covers by lia. split.
    + intros [H|H]; [left; lia | now right].
    + intros [H|H]; [left; lia | now right].
Qed.

Lemma find_address_range_size ips :
  ranges_size (_find_address_range ips) = Z.of_nat (length ips).
Proof.
  destruct ips as [|first it]; [reflexivity|].
  cbn [_find_address_range]. rewrite find_range_loop_size. cbn [length]. lia.
Qed.

Lemma find_address_range_ordered ips f l :
  In (f, l) (_find_address_range ips) -> f <= l.
Proof.
  destruct ips as [|first it]; simpl; [tauto|].
  apply find_range_loop_ordered. lia.
Qed.

(** ** [summarize_address_range] *)

Lemma mod_pow2_le a j k : 0 <= k <= j -> a mod 2 ^ j = 0 -> a mod 2 ^ k = 0.
Proof.
  intros Hk Hm.
  assert (0 < 2 ^ j) by (apply Z.pow_pos_nonneg; lia).
  assert (0 < 2 ^ k) by (apply Z.pow_pos_nonneg; lia).
  apply Z.mod_divide; [lia|]. apply Z.mod_divide in Hm; [|lia].
  apply Z.divide_trans with (2 ^ j); [|exact Hm].
  exists (2 ^ (j - k)). rewrite <- Z.pow_add_r by lia. f_equal. lia.
Qed.

(** The size of the block one turn of the loop takes. *)
Lemma summarize_nbits first last :
  0 <= first -> first <= last ->
  let nbits := Z.min (_count_righthand_zero_bits first IPV4LENGTH)
                     (bit_length (last - first + 1) - 1) in
  0 <= nbits <= 32 /\ first mod 2 ^ nbits = 0 /\
  1 <= 2 ^ nbits <= last - first + 1.
Proof.
  intros Hf Hfl nbits.
  assert (H32 : 0 <= IPV4LENGTH) by (unfold IPV4LENGTH; lia).
  pose proof (count_zero_bits_range first IPV4LENGTH H32) as Hc.
  pose proof (count_zero_bits_divides first IPV4LENGTH Hf H32) as Hd.
  set (c := _count_righthand_zero_bits first IPV4LENGTH) in *.
  assert (Hb : bit_length (last - first + 1) - 1 = Z.log2 (last - first + 1)).
  { unfold bit_length. destruct (Z.eqb_spec (last - first + 1) 0); [lia|].
    rewrite Z.abs_eq by lia. lia. }
  unfold nbits. rewrite Hb.
  set (b := Z.log2 (last - first + 1)).
  pose proof (Z.log2_nonneg (last - first + 1)) as Hb0. fold b in Hb0.
  pose proof (Z.log2_spec (last - first + 1) ltac:(lia)) as [Hlo _]. fold b in Hlo.
  change IPV4LENGTH with 32 in Hc.
  split; [lia|]. split.
  - apply mod_pow2_le with c; [lia | exact Hd].
  - split.
    + pose proof (Z.pow_pos_nonneg 2 (Z.min c b)). lia.
    + apply Z.le_trans with (2 ^ b); [|exact Hlo].
      apply Z.pow_le_mono_r; lia.
Qed.

Lemma summarize_loop_spec fuel : forall first last,
  0 <= first -> last < 2 ^ 32 -> last - first + 1 <= Z.of_nat fuel ->
  let out := summarize_loop fuel first last in
  Forall Valid out /\
  (forall a, covered out a <-> first <= a <= last) /\
  Z.of_nat (length out) <= Z.max 0 (last - first + 1) /\
  (forall n, In n out -> first <= network_address n <= last).
Proof.
  induction fuel as [|fuel IH]; intros first last Hf Hl Hfuel; cbn [summarize_loop].
  - split; [constructor|]. split; [|split].
    + intros a. split; [intros (n & [] & _) | lia].
    + cbn [length]. lia.
    + intros n [].
  - destruct (Z.leb_spec first last) as [Hfl|Hfl].
    2:{ split; [constructor|]. split; [|split].
        - intros a. split; [intros (n & [] & _) | lia].
        - cbn [length]. lia.
        - intros n []. }
    destruct (summarize_nbits first last Hf Hfl) as (Hn & Hdiv & Hsz).
    set (nbits := Z.min (_count_righthand_zero_bits first IPV4LENGTH)
                        (bit_length (last - first + 1) - 1)) in *.
    rewrite Z.shiftl_mul_pow2, Z.mul_1_l by lia.
    set (net := mkNet first (IPV4LENGTH - nbits)).
    assert (Hv : Valid net).
    { unfold Valid, net. cbn [network_address prefixlen].
      change IPV4LENGTH with 32.
      replace (32 - (32 - nbits)) with nbits by lia. repeat split; lia. }
    assert (Hcov : forall a, covers net a <-> first <= a < first + 2 ^ nbits).
    { intros a. rewrite covers_iff by exact Hv. unfold net.
      cbn [network_address prefixlen]. change IPV4LENGTH with 32.
      replace (32 - (32 - nbits)) with nbits by lia. reflexivity. }
    destruct (Z.eqb_spec (first + 2 ^ nbits - 1) _ALL_ONES) as [Etop|Ntop].
    + change _ALL_ONES with (2 ^ 32 - 1) in Etop.
      split; [constructor; [exact Hv | constructor]|]. split; [|split].
      * intros a. split.
        -- intros (n & [<-|[]] & Hc). apply Hcov in Hc. lia.
        -- intros Ha. exists net. split; [now left|]. apply Hcov. lia.
      * cbn [length]. lia.
      * intros n [<-|[]]. unfold net. cbn [network_address]. lia.
    + destruct (IH (first + 2 ^ nbits) last ltac:(lia) Hl ltac:(lia))
        as (IHv & IHc & IHlen & IHin).
      split; [constructor; assumption|]. split; [|split].
      * intros a. split.
        -- intros (n & [<-|Hin] & Hc).
           ++ apply Hcov in Hc. lia.
           ++ assert (covered (summarize_loop fuel (first + 2 ^ nbits) last) a)
                as Hc' by (now exists n).
              apply IHc in Hc'. lia.
        -- intros Ha. destruct (Z.lt_ge_cases a (first + 2 ^ nbits)) as [Hlt|Hge].
           ++ exists net. split; [now left|]. apply Hcov. lia.
           ++ destruct (proj2 (IHc a) ltac:(lia)) as (n & Hin & Hc).
              exists n. split; [now right | exact Hc].
      * cbn [length]. lia.
      * intros n [<-|Hin]; [unfold net; cbn [network_address]; lia|].
        apply IHin in Hin. lia.
Qed.

Lemma summarize_address_range_spec first last :
  0 <= first -> last < 2 ^ 32 ->
  let out := summarize_address_range first last in
  Forall Valid out /\
  (forall a, covered out a <-> first <= a <= last) /\
  Z.of_nat (length out) <= Z.max 0 (last - first + 1) /\
  (forall n, In n out -> first <= network_address n <= last).
Proof.
  intros Hf Hl. unfold summarize_address_range.
  apply summarize_loop_spec; [exact Hf | exact Hl | lia].
Qed.

(** A range of one address is that address as a /32. *)
Lemma summarize_address_range_single a :
  0 <= a < 2 ^ 32 -> summarize_address_range a a = [mkNet a 32].
Proof.
  intros Ha. unfold summarize_address_range.
  replace (a - a + 1) with 1 by lia. change (Z.to_nat 1) with 1%nat.
  cbn [summarize_loop].
  destruct (Z.leb_spec a a) as [_|]; [|lia].
  assert (Z.min (_count_righthand_zero_bits a IPV4LENGTH)
                (bit_length (a - a + 1) - 1) = 0) as ->.
  { replace (a - a + 1) with 1 by lia. change (bit_length 1 - 1) with 0.
    pose proof (count_zero_bits_range a IPV4LENGTH
                  ltac:(unfold IPV4LENGTH; lia)). lia. }
  change (IPV4LENGTH - 0) with 32.
  destruct (a + Z.shiftl 1 0 - 1 =? _ALL_ONES); reflexivity.
Qed.

End RangeFacts.

(* ================================================================== *)
(** * Facts about [collapse_addresses] *)
(* ================================================================== *)

Module CollapseFacts.
Import PyDict PyDictFacts Ipaddress IpSpec IpFacts IpParseFacts RangeFacts.

Local Abbreviation sget := (PyDict.get net_eq_dec).
Local Abbreviation sset := (PyDict.set net_eq_dec).
Local Abbreviation sdel := (PyDict.del net_eq_dec).

Lemma net_eqb_eq a b : net_eqb a b = true <-> a = b.
Proof. unfold net_eqb. destruct (net_eq_dec a b); split; congruence. Qed.

(** ** The first loop: an invariant is kept to the end *)

Lemma merge_loop_invariant (I : list IPv4Network -> subnets_dict -> Prop) :
  (forall net tm sn,
      I (net :: tm) sn -> sget sn (supernet net) = None ->
      I tm (sset sn (supernet net) net)) ->
  (forall net tm sn existing,
      I (net :: tm) sn -> sget sn (supernet net) = Some existing ->
      existing <> net ->
      I (supernet net :: tm) (sdel sn (supernet net))) ->
  (forall net tm sn,
      I (net :: tm) sn -> sget sn (supernet net) = Some net -> I tm sn) ->
  forall fuel tm sn out,
    I tm sn -> merge_loop fuel tm sn = Some out -> I [] out.
Proof.
  intros Hnew Hmerge Hdup.
  induction fuel as [|fuel IH]; intros tm sn out Hi; cbn [merge_loop].
  - discriminate.
  - destruct tm as [|net tm].
    + intros H. apply Some_eq in H. now subst out.
    + destruct (sget sn (supernet net)) as [existing|] eqn:Eg.
      * destruct (net_eqb existing net) eqn:Ee; cbn [negb].
        -- apply net_eqb_eq in Ee. subst existing.
           apply IH. now apply (Hdup net).
        -- apply IH. apply (Hmerge net tm sn existing); trivial.
           intros E. apply net_eqb_eq in E. congruence.
      * apply IH. now apply Hnew.
Qed.

(** ** The first loop ends *)

Lemma weight_app l1 l2 : weight (l1 ++ l2) = (weight l1 + weight l2)%nat.
Proof. induction l1 as [|n l1 IH]; simpl; [reflexivity | lia]. Qed.

Lemma weight_rev l : weight (rev l) = weight l.
Proof.
  induction l as [|n l IH]; [reflexivity|].
  cbn [rev]. rewrite weight_app, IH. simpl. lia.
Qed.

Lemma merge_fuel_weight l : merge_fuel l = S (weight l).
Proof. induction l as [|n l IH]; simpl; [reflexivity | lia]. Qed.

Lemma weight_supernet net tm :
  (weight (supernet net :: tm) <= weight (net :: tm))%nat.
Proof.
  cbn [weight]. unfold supernet.
  destruct (Z.eqb_spec (prefixlen net) 0); cbn [prefixlen]; lia.
Qed.

Lemma merge_loop_total fuel : forall tm sn,
  (weight tm + length sn < fuel)%nat ->
  exists out, merge_loop fuel tm sn = Some out.
Proof.
  induction fuel as [|fuel IH]; intros tm sn Hlt; [lia|].
  cbn [merge_loop].
  destruct tm as [|net tm]; [eexists; reflexivity|].
  destruct (sget sn (supernet net)) as [existing|] eqn:Eg.
  - destruct (net_eqb existing net); cbn [negb].
    + apply IH. cbn [weight] in Hlt. lia.
    + apply IH. pose proof (weight_supernet net tm).
      pose proof (length_del net_eq_dec sn _ _ Eg). lia.
  - apply IH. cbn [weight] in Hlt.
    pose proof (length_set_le net_eq_dec sn (supernet net) net). lia.
Qed.

(** ** The first loop keeps the addresses, the count and the members *)

Lemma covered_cons x l a : covered (x :: l) a <-> covers x a \/ covered l a.
Proof.
  unfold covered. split.
  - intros (n & [<-|H] & Hc); [now left | right; now exists n].
  - intros [H|(n & H & Hc)]; [exists x; split; [now left | exact H]|].
    exists n. split; [now right | exact Hc].
Qed.

Lemma covered_app l1 l2 a :
  covered (l1 ++ l2) a <-> covered l1 a \/ covered l2 a.
Proof.
  unfold covered. split.
  - intros (n & H & Hc). apply in_app_iff in H.
    destruct H; [left | right]; now exists n.
  - intros [(n & H & Hc)|(n & H & Hc)]; exists n;
      (split; [apply in_app_iff; tauto | exact Hc]).
Qed.

Lemma covered_In n l a : In n l -> covers n a -> covered l a.
Proof. intros H Hc. now exists n. Qed.

Lemma values_app {K V : Type} (d1 d2 : PyDict.dict K V) :
  PyDict.values (d1 ++ d2) = PyDict.values d1 ++ PyDict.values d2.
Proof. unfold PyDict.values. apply map_app. Qed.

Section MergeInv.
Variables (U : Z -> Prop) (N : nat) (inputs : list IPv4Network).
Hypothesis inputs_valid : Forall Valid inputs.

Lemma has_member_supernet n :
  Valid n -> has_member inputs n -> has_member inputs (supernet n).
Proof.
  intros Hv (m & Hin & Hs). exists m. split; [exact Hin|].
  rewrite Forall_forall in inputs_valid.
  apply subnet_of_trans with n; auto using Valid_supernet, subnet_of_supernet.
Qed.

Lemma merge_inv_new net tm sn :
  merge_inv U N inputs (net :: tm) sn ->
  sget sn (supernet net) = None ->
  merge_inv U N inputs tm (sset sn (supernet net) net).
Proof.
  intros (Hv & Hwf & Hk & Hc & Hl & Hm) Eg.
  inversion Hv as [|? ? Hvn Hvt]; subst.
  pose proof (set_get_None net_eq_dec sn _ net Eg) as Eset.
  split; [exact Hvt|]. split; [now apply wf_set|].
  split; [|split; [|split]].
  - intros k v. rewrite Eset, in_app_iff.
    intros [H|[E|[]]]; [now apply Hk | inversion E; subst; auto].
  - intros a. rewrite <- Hc, Eset, values_app, covered_app, covered_cons.
    cbn [PyDict.values map snd]. rewrite covered_cons.
    unfold covered at 3. split.
    + intros [H|[H|[H|(n & [] & _)]]]; tauto.
    + tauto.
  - rewrite Eset, length_app. cbn [length] in *. lia.
  - intros n. rewrite Eset, values_app, in_app_iff.
    cbn [PyDict.values map snd In].
    intros [H|[H|[<-|[]]]]; apply Hm; simpl; tauto.
Qed.

Lemma merge_inv_merge net tm sn existing :
  merge_inv U N inputs (net :: tm) sn ->
  sget sn (supernet net) = Some existing ->
  existing <> net ->
  merge_inv U N inputs (supernet net :: tm) (sdel sn (supernet net)).
Proof.
  intros (Hv & Hwf & Hk & Hc & Hl & Hm) Eg Hne.
  inversion Hv as [|? ? Hvn Hvt]; subst.
  pose proof (get_Some_In net_eq_dec sn _ _ Eg) as Hin.
  destruct (Hk _ _ Hin) as [Hve Hse].
  split; [constructor; [now apply Valid_supernet | exact Hvt]|].
  split; [now apply wf_del|].
  split; [|split; [|split]].
  - intros k v H. apply (In_del net_eq_dec) in H; [|exact Hwf]. apply Hk, H.
  - intros a. rewrite <- Hc, !covered_cons.
    rewrite (supernet_merge net existing a Hvn Hve) by congruence.
    assert (covered (PyDict.values sn) a
            <-> covers existing a
                \/ covered (PyDict.values (sdel sn (supernet net))) a) as ->.
    { unfold covered. split.
      - intros (n & Hn & Hcn). apply In_values in Hn. destruct Hn as (k & Hn).
        destruct (net_eq_dec k (supernet net)) as [->|Nk].
        + left. rewrite (In_get_Some net_eq_dec sn _ _ Hwf Hn) in Eg.
          apply Some_eq in Eg. now subst.
        + right. exists n. split; [|exact Hcn].
          apply In_values. exists k. apply (In_del net_eq_dec); auto.
      - intros [H|(n & Hn & Hcn)].
        + exists existing. split; [|exact H]. apply In_values. eauto.
        + exists n. split; [|exact Hcn].
          apply In_values in Hn. destruct Hn as (k & Hn).
          apply (In_del net_eq_dec) in Hn; [|exact Hwf].
          apply In_values. exists k. tauto. }
    tauto.
  - pose proof (length_del net_eq_dec sn _ _ Eg). cbn [length] in *. lia.
  - intros n [[<-|H]|H].
    + apply has_member_supernet; [exact Hvn|]. apply Hm. left. now left.
    + apply Hm. left. now right.
    + apply Hm. right. apply In_values in H. destruct H as (k & H).
      apply (In_del net_eq_dec) in H; [|exact Hwf].
      apply In_values. exists k. tauto.
Qed.

Lemma merge_inv_dup net tm sn :
  merge_inv U N inputs (net :: tm) sn ->
  sget sn (supernet net) = Some net ->
  merge_inv U N inputs tm sn.
Proof.
  intros (Hv & Hwf & Hk & Hc & Hl & Hm) Eg.
  inversion Hv as [|? ? Hvn Hvt]; subst.
  pose proof (get_Some_In net_eq_dec sn _ _ Eg) as Hin.
  assert (Hnv : In net (PyDict.values sn)) by (apply In_values; eauto).
  split; [exact Hvt|]. split; [exact Hwf|]. split; [exact Hk|].
  split; [|split].
  - intros a. rewrite <- Hc, covered_cons. split; [tauto|].
    intros [[H|H]|H]; try tauto. right. now exists net.
  - cbn [length] in Hl. lia.
  - intros n [H|H]; apply Hm; [left; now right | now right].
Qed.

Lemma merge_loop_keeps fuel tm sn out :
  merge_inv U N inputs tm sn ->
  merge_loop fuel tm sn = Some out ->
  merge_inv U N inputs [] out.
Proof.
  apply (merge_loop_invariant (merge_inv U N inputs)).
  - apply merge_inv_new.
  - apply merge_inv_merge.
  - apply merge_inv_dup.
Qed.
End MergeInv.

(** ** The first loop on networks that do not merge *)

Lemma move_inv_new L net tm sn :
  move_inv L (net :: tm) sn ->
  sget sn (supernet net) = None ->
  move_inv L tm (sset sn (supernet net) net).
Proof.
  intros (Hnd & Hwf & Hk & Hs & Hset) Eg.
  pose proof (set_get_None net_eq_dec sn _ net Eg) as Eset.
  split; [|split; [|split; [|split]]].
  - rewrite Eset, values_app, app_assoc. cbn [PyDict.values map snd].
    apply (Permutation_NoDup (Permutation_cons_append _ net)). exact Hnd.
  - now apply wf_set.
  - intros k v. rewrite Eset, in_app_iff.
    intros [H|[E|[]]]; [now apply Hk | inversion E; subst; auto].
  - exact Hs.
  - intros n. rewrite <- Hset, Eset, values_app, in_app_iff.
    cbn [PyDict.values map snd In]. tauto.
Qed.

Lemma move_inv_keeps L fuel tm sn out :
  move_inv L tm sn -> merge_loop fuel tm sn = Some out -> move_inv L [] out.
Proof.
  apply (merge_loop_invariant (move_inv L)).
  - apply move_inv_new.
  - intros net tm' sn' existing (Hnd & Hwf & Hk & Hs & Hset) Eg Hne.
    exfalso.
    pose proof (get_Some_In net_eq_dec sn' _ _ Eg) as Hin.
    apply (Hs existing net).
    + apply Hset. right. apply In_values. eauto.
    + apply Hset. left. now left.
    + exact Hne.
    + symmetry. now apply Hk.
  - intros net tm' sn' (Hnd & Hwf & Hk & Hs & Hset) Eg.
    exfalso.
    pose proof (get_Some_In net_eq_dec sn' _ _ Eg) as Hin.
    cbn [app] in Hnd. inversion Hnd as [|? ? Hni _]; subst.
    apply Hni, in_app_iff. right. apply In_values. eauto.
Qed.

Lemma pairwise_ForallOrdPairs {A : Type} (R : A -> A -> Prop) l :
  NoDup l ->
  (forall x y, In x l -> In y l -> x <> y -> R x y) ->
  ForallOrdPairs R l.
Proof.
  induction l as [|x l IH]; intros Hnd HR; [constructor|].
  inversion Hnd as [|? ? Hni Hnd']; subst.
  constructor.
  - apply Forall_forall. intros y Hy.
    apply HR; [now left | now right | intros ->; contradiction].
  - apply IH; [exact Hnd'|]. intros y z Hy Hz. apply HR; now right.
Qed.

(** ** [_collapse_addresses_internal] *)

Lemma internal_total l :
  exists subnets, merge_loop (merge_fuel l) (rev l) [] = Some subnets.
Proof.
  apply merge_loop_total. rewrite merge_fuel_weight, weight_rev. simpl. lia.
Qed.

Lemma covered_rev l a : covered (rev l) a <-> covered l a.
Proof.
  unfold covered. split; intros (n & H & Hc); exists n;
    (split; [|exact Hc]); [now apply in_rev | now apply in_rev in H].
Qed.

(** It finishes, on valid networks with valid ones, covering the same
    addresses, with no more networks, each with a member among the
    [inputs] when its arguments have. *)
Lemma internal_spec l inputs :
  Forall Valid l -> Forall Valid inputs ->
  (forall n, In n l -> has_member inputs n) ->
  exists out,
    _collapse_addresses_internal l = Some out /\
    Forall Valid out /\
    (forall a, covered out a <-> covered l a) /\
    (length out <= length l)%nat /\
    (forall n, In n out -> has_member inputs n).
Proof.
  intros Hv Hiv Hm. unfold _collapse_addresses_internal.
  destruct (internal_total l) as (subnets & Erun). rewrite Erun.
  eexists. split; [reflexivity|].
  assert (merge_inv (covered l) (length l) inputs [] subnets)
    as (_ & Hwf & Hk & Hc & Hl & Hmem).
  { apply (merge_loop_keeps (covered l) (length l) inputs Hiv
             (merge_fuel l) (rev l) [] subnets); [|exact Erun].
    split; [now apply Forall_rev|]. split; [constructor|].
    split; [intros k v []|]. split; [|split].
    - intros a. rewrite covered_rev. split; [|tauto].
      intros [H|(n & [] & _)]. exact H.
    - rewrite length_rev. simpl. lia.
    - intros n [H|[]]. apply Hm. now apply in_rev. }
  set (vals := PyDict.values subnets) in *.
  assert (Hvv : Forall Valid vals).
  { apply Forall_forall. intros v Hin. apply In_values in Hin.
    destruct Hin as (k & Hin). now apply (Hk k v). }
  assert (Hin : forall n, In n (skip_subsumed None (sorted net_ltb vals)) ->
                          In n vals).
  { intros n H. apply skip_subsumed_In in H. now apply sorted_In in H. }
  split; [|split; [|split]].
  - apply Forall_forall. intros n H. rewrite Forall_forall in Hvv. auto.
  - intros a. rewrite <- Hc. split.
    + intros (n & H & Hcn). right. exists n. auto.
    + intros [(n & [] & _)|(n & H & Hcn)].
      destruct (skip_subsumed_covers (sorted net_ltb vals) None a) as [H1|(la & E & _)].
      * apply sorted_by_address.
      * discriminate.
      * exists n. split; [now apply sorted_In | exact Hcn].
      * exact H1.
      * discriminate.
  - pose proof (skip_subsumed_length None (sorted net_ltb vals)) as H1.
    rewrite sorted_length in H1.
    assert (length vals = length subnets) as E
      by (unfold vals, PyDict.values; apply length_map).
    simpl in Hl. lia.
  - intros n H. apply Hmem. right. now apply Hin.
Qed.

(** On networks that are apart it returns its arguments, sorted. *)
Lemma internal_apart l :
  Forall Valid l -> NoDup l -> apart l ->
  exists out,
    _collapse_addresses_internal l = Some out /\
    (forall n, In n out <-> In n l).
Proof.
  intros Hv Hnd Hap. unfold _collapse_addresses_internal.
  destruct (internal_total l) as (subnets & Erun). rewrite Erun.
  eexists. split; [reflexivity|].
  rewrite Forall_forall in Hv.
  assert (move_inv l [] subnets) as (Hnd' & Hwf & Hk & _ & Hset).
  { apply (move_inv_keeps l (merge_fuel l) (rev l) [] subnets); [|exact Erun].
    split; [|split; [|split; [|split]]].
    - rewrite app_nil_r. apply NoDup_rev. exact Hnd.
    - constructor.
    - intros k v [].
    - intros x y Hx Hy Hne E.
      destruct (Hap x y Hx Hy Hne) as [Hd Ha].
      destruct (supernet_shared x y (Hv x Hx) (Hv y Hy) Hne E); contradiction.
    - intros n. rewrite <- in_rev. simpl. tauto. }
  cbn [app] in Hnd'.
  set (vals := PyDict.values subnets) in *.
  assert (Hvals : forall n, In n vals <-> In n l).
  { intros n. rewrite <- Hset. simpl. tauto. }
  rewrite skip_subsumed_disjoint.
  - intros n. rewrite sorted_In. apply Hvals.
  - apply Forall_forall. intros n H. apply sorted_In in H. apply Hv, Hvals, H.
  - apply sorted_by_address.
  - apply pairwise_ForallOrdPairs.
    + apply (Permutation_NoDup (Permutation_sym (sorted_perm net_ltb vals))).
      exact Hnd'.
    + intros x y Hx Hy Hne. apply sorted_In in Hx, Hy.
      apply Hap; [now apply Hvals | now apply Hvals | exact Hne].
  - discriminate.
Qed.

(** ** [collapse_addresses] *)

(** The summaries of a list of ranges. *)
Lemma flat_summarize_spec rs :
  (forall f la, In (f, la) rs -> 0 <= f /\ f <= la /\ la < 2 ^ 32) ->
  let addrs :=
    flat_map (fun '(first, last) => summarize_address_range first last) rs in
  Forall Valid addrs /\
  (forall a, covered addrs a <-> in_ranges rs a) /\
  Z.of_nat (length addrs) <= ranges_size rs /\
  (forall n, In n addrs -> in_ranges rs (network_address n)).
Proof.
  induction rs as [|[f la] rs IH]; intros Hr; cbn [flat_map].
  - split; [constructor|]. split; [|split].
    + intros a. split; [intros (n & [] & _) | intros (? & ? & [] & _)].
    + simpl. lia.
    + intros n [].
  - destruct (Hr f la (or_introl eq_refl)) as (Hf & Hfl & Hl).
    destruct (summarize_address_range_spec f la Hf Hl) as (Sv & Sc & Sl & Sn).
    destruct (IH (fun f' la' H => Hr f' la' (or_intror H))) as (Iv & Ic & Il & In_).
    split; [apply Forall_app; now split|]. split; [|split].
    + intros a. rewrite covered_app, Sc, Ic. unfold in_ranges. split.
      * intros [H|(f' & la' & H & Hb)].
        -- exists f, la. split; [now left | exact H].
        -- exists f', la'. split; [now right | exact Hb].
      * intros (f' & la' & [E|H] & Hb).
        -- inversion E; subst. now left.
        -- right. exists f', la'. tauto.
    + rewrite length_app, Nat2Z.inj_add. cbn [ranges_size]. lia.
    + intros n H. apply in_app_iff in H. destruct H as [H|H].
      * exists f, la. split; [now left | now apply Sn].
      * destruct (In_ n H) as (f' & la' & H' & Hb).
        exists f', la'. split; [now right | exact Hb].
Qed.

Lemma In_host_addresses l a :
  In a (host_addresses l) <->
  exists n, In n l /\ prefixlen n = 32 /\ network_address n = a.
Proof.
  unfold host_addresses, sorted_set.
  rewrite sorted_In, nodup_In, in_map_iff. split.
  - intros (n & E & H). apply filter_In in H. destruct H as [H Hp].
    apply Z.eqb_eq in Hp. exists n. auto.
  - intros (n & H & Hp & E). exists n. split; [exact E|].
    apply filter_In. split; [exact H|]. now apply Z.eqb_eq.
Qed.

Lemma NoDup_host_addresses l : NoDup (host_addresses l).
Proof.
  unfold host_addresses, sorted_set.
  apply (Permutation_NoDup (Permutation_sym (sorted_perm Z.ltb _))).
  apply NoDup_nodup.
Qed.

Lemma length_host_addresses l :
  (length (host_addresses l)
   <= length (filter (fun ip => (prefixlen ip =? _max_prefixlen)%Z) l))%nat.
Proof.
  unfold host_addresses, sorted_set. rewrite sorted_length.
  rewrite <- (length_map network_address (filter _ l)).
  apply NoDup_incl_length; [apply NoDup_nodup|].
  intros a H. now apply nodup_In in H.
Qed.

(** A /32 network covers its own address only. *)
Lemma covers_host n a :
  Valid n -> prefixlen n = 32 -> (covers n a <-> a = network_address n).
Proof.
  intros Hv Hp. rewrite covers_iff by exact Hv. rewrite Hp.
  change (2 ^ (32 - 32)) with 1. lia.
Qed.

Lemma covered_filter (f : IPv4Network -> bool) l a :
  covered l a <->
  covered (filter f l) a \/ covered (filter (fun x => negb (f x)) l) a.
Proof.
  unfold covered. split.
  - intros (n & H & Hc). destruct (f n) eqn:E; [left | right]; exists n;
      (split; [apply filter_In; split; [exact H | now rewrite ?E] | exact Hc]).
  - intros [(n & H & Hc)|(n & H & Hc)]; apply filter_In in H; exists n; tauto.
Qed.

Lemma ranges_of_hosts l f la :
  Forall Valid l ->
  In (f, la) (_find_address_range (host_addresses l)) ->
  0 <= f /\ f <= la /\ la < 2 ^ 32.
Proof.
  intros Hv H. rewrite Forall_forall in Hv.
  pose proof (find_address_range_ordered _ _ _ H) as Hfl.
  assert (In f (host_addresses l)) as Hf.
  { apply find_address_range_covers. exists f, la. split; [exact H | lia]. }
  assert (In la (host_addresses l)) as Hla.
  { apply find_address_range_covers. exists f, la. split; [exact H | lia]. }
  apply In_host_addresses in Hf, Hla.
  destruct Hf as (n & Hn & _ & <-). destruct Hla as (m & Hm_ & _ & <-).
  destruct (Hv n Hn) as (_ & Hr & _). destruct (Hv m Hm_) as (_ & Hr' & _).
  lia.
Qed.

(** [collapse_addresses] finishes on valid networks, with valid networks
    that cover the same addresses, no more of them, each one holding one
    of its arguments. *)
Lemma collapse_spec l :
  Forall Valid l ->
  exists out,
    collapse_addresses l = Some out /\
    Forall Valid out /\
    (forall a, covered out a <-> covered l a) /\
    (length out <= length l)%nat /\
    (forall n, In n out -> has_member l n).
Proof.
  intros Hv. unfold collapse_addresses.
  fold (host_addresses l).
  set (is32 := fun ip => prefixlen ip =? _max_prefixlen).
  set (rs := _find_address_range (host_addresses l)).
  destruct (flat_summarize_spec rs (fun f la H => ranges_of_hosts l f la Hv H))
    as (Av & Ac & Al & An).
  set (addrs := flat_map (fun '(first, last) => summarize_address_range first last) rs) in *.
  set (nets := filter (fun ip => negb (is32 ip)) l).
  pose proof Hv as Hv'. rewrite Forall_forall in Hv'.
  assert (Hnets : forall n, In n nets -> In n l /\ prefixlen n <> 32).
  { intros n H. apply filter_In in H. destruct H as [H Hp]. split; [exact H|].
    unfold is32 in Hp. apply negb_true_iff, Z.eqb_neq in Hp. exact Hp. }
  assert (Hall : Forall Valid (addrs ++ nets)).
  { apply Forall_app. split; [exact Av|]. apply Forall_forall.
    intros n H. apply Hv', Hnets, H. }
  assert (Hmem : forall n, In n (addrs ++ nets) -> has_member l n).
  { intros n H. apply in_app_iff in H. destruct H as [H|H].
    - pose proof (An n H) as Hr. apply find_address_range_covers in Hr.
      apply In_host_addresses in Hr. destruct Hr as (m & Hm_ & Hp & Ea).
      rewrite Forall_forall in Av.
      exists m. split; [exact Hm_|].
      apply subnet_of_iff; [now apply Hv' | now apply Av |].
      rewrite Ea, Hp. change (2 ^ (32 - 32)) with 1.
      pose proof (size_pos n (Av n H)). lia.
    - exists n. split; [apply Hnets, H|]. apply subnet_of_refl, Hv', Hnets, H. }
  destruct (internal_spec (addrs ++ nets) l Hall Hv Hmem)
    as (out & Erun & Ov & Oc & Ol & Om).
  exists out. split; [exact Erun|]. split; [exact Ov|]. split; [|split].
  - intros a. rewrite Oc, covered_app, Ac.
    rewrite (covered_filter is32 l a). fold nets.
    assert (in_ranges rs a <-> covered (filter is32 l) a) as ->; [|tauto].
    unfold rs. rewrite find_address_range_covers, In_host_addresses.
    unfold covered. split.
    + intros (n & H & Hp & E). exists n. split.
      * apply filter_In. split; [exact H|]. unfold is32. now apply Z.eqb_eq.
      * apply covers_host; auto.
    + intros (n & H & Hc). apply filter_In in H. destruct H as [H Hp].
      unfold is32 in Hp. apply Z.eqb_eq in Hp. change _max_prefixlen with 32 in Hp.
      exists n. split; [exact H|]. split; [exact Hp|].
      apply covers_host in Hc; auto.
  - rewrite length_app in Ol.
    pose proof (filter_length is32 l) as Hfl. fold nets in Hfl.
    pose proof (length_host_addresses l) as Hh. fold is32 in Hh.
    pose proof (find_address_range_size (host_addresses l)) as Hs. fold rs in Hs.
    lia.
  - exact Om.
Qed.

(** ** [collapse_addresses] on networks that are apart *)

Lemma find_range_singletons (L : list Z) :
  (forall a, In a L -> ~ In (a + 1) L) ->
  forall it first,
    In first L -> (forall x, In x it -> In x L) ->
    find_range_loop first first it = map (fun a => (a, a)) (first :: it).
Proof.
  intros Hgap. induction it as [|ip it IH]; intros first Hf Hit.
  - reflexivity.
  - cbn [find_range_loop].
    destruct (Z.eqb_spec ip (first + 1)) as [E|N].
    + exfalso. apply (Hgap first Hf). rewrite <- E. apply Hit. now left.
    + cbn [negb]. rewrite IH.
      * reflexivity.
      * apply Hit. now left.
      * intros x Hx. apply Hit. now right.
Qed.

Lemma find_address_range_singletons ips :
  (forall a, In a ips -> ~ In (a + 1) ips) ->
  _find_address_range ips = map (fun a => (a, a)) ips.
Proof.
  intros Hgap. destruct ips as [|first it]; [reflexivity|].
  cbn [_find_address_range].
  apply (find_range_singletons (first :: it) Hgap).
  - now left.
  - intros x Hx. now right.
Qed.

Lemma flat_summarize_singletons ips :
  (forall a, In a ips -> 0 <= a < 2 ^ 32) ->
  flat_map (fun '(first, last) => summarize_address_range first last)
           (map (fun a => (a, a)) ips)
  = map (fun a => mkNet a 32) ips.
Proof.
  induction ips as [|a ips IH]; intros Hr; [reflexivity|].
  cbn [map flat_map].
  rewrite summarize_address_range_single by (apply Hr; now left).
  rewrite IH by (intros x Hx; apply Hr; now right).
  reflexivity.
Qed.

Lemma collapse_apart l :
  Forall Valid l -> NoDup l -> apart l ->
  exists out,
    collapse_addresses l = Some out /\
    (forall n, In n out <-> In n l).
Proof.
  intros Hv Hnd Hap. unfold collapse_addresses.
  fold (host_addresses l).
  pose proof Hv as Hv'. rewrite Forall_forall in Hv'.
  assert (Hgap : forall a, In a (host_addresses l) ->
                           ~ In (a + 1) (host_addresses l)).
  { intros a Ha Hb. apply In_host_addresses in Ha, Hb.
    destruct Ha as (n & Hn & Hpn & En). destruct Hb as (m & Hm_ & Hpm & Em).
    assert (n <> m) as Hne by (intros ->; lia).
    destruct (Hap n m Hn Hm_ Hne) as [_ Hadj]. apply Hadj. left.
    rewrite broadcast_eq by (now apply Hv'). rewrite Hpn.
    change (2 ^ (32 - 32)) with 1. lia. }
  assert (Hrange : forall a, In a (host_addresses l) -> 0 <= a < 2 ^ 32).
  { intros a Ha. apply In_host_addresses in Ha.
    destruct Ha as (n & Hn & _ & <-). now destruct (Hv' n Hn) as (_ & Hr & _). }
  rewrite find_address_range_singletons by exact Hgap.
  rewrite flat_summarize_singletons by exact Hrange.
  set (is32 := fun ip => prefixlen ip =? _max_prefixlen).
  set (addrs := map (fun a => mkNet a 32) (host_addresses l)).
  set (nets := filter (fun ip => negb (is32 ip)) l).
  assert (Haddrs : forall n, In n addrs <-> In n l /\ prefixlen n = 32).
  { intros n. unfold addrs. rewrite in_map_iff. split.
    - intros (a & <- & Ha). apply In_host_addresses in Ha.
      destruct Ha as (m & Hm_ & Hp & <-).
      assert (mkNet (network_address m) 32 = m) as -> by (destruct m; simpl in *; congruence).
      auto.
    - intros [Hn Hp]. exists (network_address n). split.
      + destruct n; simpl in *; congruence.
      + apply In_host_addresses. exists n. auto. }
  assert (Hnets : forall n, In n nets <-> In n l /\ prefixlen n <> 32).
  { intros n. unfold nets. rewrite filter_In. unfold is32.
    rewrite negb_true_iff, Z.eqb_neq. reflexivity. }
  assert (Hset : forall n, In n (addrs ++ nets) <-> In n l).
  { intros n. rewrite in_app_iff, Haddrs, Hnets.
    destruct (Z.eq_dec (prefixlen n) 32); tauto. }
  destruct (internal_apart (addrs ++ nets)) as (out & Erun & Hout).
  - apply Forall_forall. intros n H. apply Hv', Hset, H.
  - apply NoDup_app.
    + unfold addrs. apply Finite.Injective_map_NoDup_in.
      * intros x y _ _ E. now inversion E.
      * apply NoDup_host_addresses.
    + apply NoDup_filter. exact Hnd.
    + intros n H1 H2. apply Haddrs in H1. apply Hnets in H2. tauto.
  - intros n m Hn Hm_ Hne. apply Hap; [now apply Hset | now apply Hset | exact Hne].
  - exists out. split; [exact Erun|]. intros n. rewrite Hout. apply Hset.
Qed.

End CollapseFacts.

(* ================================================================== *)
(** * Facts about the summary of a table of IPv4 keys *)
(* ================================================================== *)

Module SummarizeFacts.
Import PyDict PyDictFacts Json Ipaddress Roteador.
Import IpSpec SummarizeSpec IpFacts IpParseFacts RangeFacts CollapseFacts.

Local Abbreviation rset := (PyDict.set net_eq_dec).

(** ** The networks of a table *)

Lemma In_prefixes {V : Type} (t : PyDict.dict string V) n :
  In n (prefixes t) <-> exists k, In k (PyDict.keys t) /\ IPv4Network_of_string k = Some n.
Proof.
  unfold prefixes. rewrite in_flat_map. split.
  - intros (k & Hk & H). exists k. split; [exact Hk|].
    destruct (IPv4Network_of_string k) as [m|]; [|destruct H].
    destruct H as [<-|[]]. reflexivity.
  - intros (k & Hk & E). exists k. split; [exact Hk|]. rewrite E. now left.
Qed.

Lemma prefixes_Valid {V : Type} (t : PyDict.dict string V) :
  Forall Valid (prefixes t).
Proof.
  apply Forall_forall. intros n H. apply In_prefixes in H.
  destruct H as (k & _ & E). now apply IPv4Network_Valid in E.
Qed.

Lemma prefixes_cons {V : Type} k (v : V) (t : PyDict.dict string V) :
  prefixes ((k, v) :: t)
  = match IPv4Network_of_string k with Some n => [n] | None => [] end ++ prefixes t.
Proof. reflexivity. Qed.

(** ** Lines 144-149 *)

Lemma redes_obj_of_spec items : forall acc,
  PyDict.wf acc ->
  PyDict.wf (redes_obj_of items acc) /\
  (forall n, In n (PyDict.keys (redes_obj_of items acc))
             <-> In n (PyDict.keys acc) \/ In n (prefixes items)) /\
  (length (redes_obj_of items acc) <= length acc + length items)%nat.
Proof.
  induction items as [|[k info] rest IH]; intros acc Hwf; cbn [redes_obj_of].
  - split; [exact Hwf|]. split; [|lia]. intros n. simpl. tauto.
  - rewrite prefixes_cons.
    destruct (IPv4Network_of_string k) as [m|].
    + destruct (IH (rset acc m info) (wf_set net_eq_dec acc m info Hwf))
        as (W & Hs & L).
      split; [exact W|]. split.
      * intros n. rewrite Hs, In_keys_set. simpl. intuition congruence.
      * pose proof (length_set_le net_eq_dec acc m info). cbn [length]. lia.
    + destruct (IH acc Hwf) as (W & Hs & L).
      split; [exact W|]. split; [exact Hs|]. cbn [length]. lia.
Qed.

Lemma redes_obj_spec (t : table) :
  let redes_obj := redes_obj_of t [] in
  PyDict.wf redes_obj /\
  (forall n, In n (PyDict.keys redes_obj) <-> In n (prefixes t)) /\
  Forall Valid (PyDict.keys redes_obj) /\
  (length redes_obj <= length t)%nat.
Proof.
  destruct (redes_obj_of_spec t [] ltac:(constructor)) as (W & Hs & L).
  assert (S' : forall n, In n (PyDict.keys (redes_obj_of t [])) <-> In n (prefixes t)).
  { intros n. rewrite Hs. simpl. tauto. }
  split; [exact W|]. split; [exact S'|]. split; [|simpl in L; lia].
  apply Forall_forall. intros n H. apply S' in H.
  pose proof (prefixes_Valid t) as Hv. rewrite Forall_forall in Hv. auto.
Qed.

(** ** Lines 156-179 *)

Lemma build_table_keys ro nets : forall acc k,
  In k (PyDict.keys (build_table ro nets acc)) <->
  In k (PyDict.keys acc) \/
  exists s, In s nets /\ entry_of ro s <> None /\ k = str s.
Proof.
  induction nets as [|s nets IH]; intros acc k; cbn [build_table].
  - split; [tauto | intros [H|(s & [] & _)]; exact H].
  - unfold entry_of at 1.
    destruct (redes_contidas ro s) as [|first others] eqn:E.
    + rewrite IH. split.
      * intros [H|(s' & H & Hs)]; [now left | right; exists s'; split; [now right | exact Hs]].
      * intros [H|(s' & [<-|H] & Hn & Hk)]; [now left | |].
        -- unfold entry_of in Hn. rewrite E in Hn. congruence.
        -- right. exists s'. auto.
    + rewrite IH. unfold tset. rewrite In_keys_set. split.
      * intros [[->|H]|(s' & H & Hs)].
        -- right. exists s. split; [now left|]. split; [|reflexivity].
           unfold entry_of. rewrite E. discriminate.
        -- now left.
        -- right. exists s'. split; [now right | exact Hs].
      * intros [H|(s' & [<-|H] & Hn & Hk)]; [tauto | tauto |].
        right. exists s'. auto.
Qed.

Lemma build_table_length ro summarized : forall acc,
  (length (build_table ro summarized acc) <= length acc + length summarized)%nat.
Proof.
  induction summarized as [|s rest IH]; intros acc; cbn [build_table].
  - simpl. lia.
  - destruct (redes_contidas ro s) as [|first others].
    + apply Nat.le_trans with (1 := IH acc). simpl. lia.
    + set (e := mkEntry _ _).
      apply Nat.le_trans with (1 := IH (tset acc (str s) e)).
      pose proof (length_set_le string_dec acc (str s) e) as H.
      unfold tset. simpl. lia.
Qed.

(** The entry stored under the text of a covering prefix. *)
Lemma build_table_get ro nets : forall acc s e,
  Forall Valid nets -> Valid s ->
  (In s nets /\ entry_of ro s = Some e) \/
  (~ In s nets /\ tget acc (str s) = Some e) ->
  tget (build_table ro nets acc) (str s) = Some e.
Proof.
  induction nets as [|s0 nets IH]; intros acc s e Hv Hs H; cbn [build_table].
  - destruct H as [[[] _]|[_ H]]. exact H.
  - inversion Hv as [|? ? Hv0 Hv']; subst.
    destruct (in_dec net_eq_dec s nets) as [Hin|Hni].
    + assert (entry_of ro s = Some e) as He.
      { destruct H as [[_ H]|[Hn _]]; [exact H|]. exfalso. apply Hn. now right. }
      destruct (redes_contidas ro s0); apply IH; auto.
    + destruct (net_eq_dec s0 s) as [->|Hne].
      * assert (entry_of ro s = Some e) as He.
        { destruct H as [[_ H]|[Hn _]]; [exact H|]. exfalso. apply Hn. now left. }
        unfold entry_of in He.
        destruct (redes_contidas ro s) as [|first others]; [discriminate|].
        apply Some_eq in He. subst e.
        apply IH; auto. right. split; [exact Hni|].
        unfold tget, tset. apply get_set_same.
      * assert (tget acc (str s) = Some e) as He.
        { destruct H as [[[E|Hin] _]|[_ H]]; [congruence | contradiction | exact H]. }
        destruct (redes_contidas ro s0) as [|first others].
        -- apply IH; auto.
        -- apply IH; auto. right. split; [exact Hni|].
           unfold tget, tset. rewrite get_set_other; [exact He|].
           intros E. apply Hne. symmetry. now apply str_inj.
Qed.

Lemma has_member_entry ro s :
  has_member (PyDict.keys ro) s -> entry_of ro s <> None.
Proof.
  intros (n & Hin & Hs). apply In_keys in Hin. destruct Hin as (info & Hin).
  unfold entry_of.
  assert (In (n, info) (redes_contidas ro s)) as H.
  { unfold redes_contidas. apply filter_In. split; [exact Hin | exact Hs]. }
  destruct (redes_contidas ro s); [destruct H | discriminate].
Qed.

(** ** [summary_of] *)

(** It always has a value; the keys of its result are the texts of the
    collapsed networks of the keys of the table; they parse back to these
    networks. *)
Lemma summary_of_spec (t : table) :
  exists summarized out,
    collapse_addresses (PyDict.keys (redes_obj_of t [])) = Some summarized /\
    summary_of t = Some out /\
    Forall Valid summarized /\
    (forall k, In k (PyDict.keys out) <-> exists s, In s summarized /\ k = str s) /\
    (forall n, In n (prefixes out) <-> In n summarized) /\
    (forall s e, In s summarized -> entry_of (redes_obj_of t []) s = Some e ->
                 tget out (str s) = Some e) /\
    (length out <= length summarized)%nat.
Proof.
  destruct (redes_obj_spec t) as (W & Hset & V & L).
  destruct (collapse_spec _ V) as (summarized & Erun & Sv & Sc & Sl & Sm).
  exists summarized, (build_table (redes_obj_of t []) summarized []).
  unfold summary_of. rewrite Erun.
  split; [reflexivity|]. split; [reflexivity|]. split; [exact Sv|].
  assert (Hkeys : forall k,
            In k (PyDict.keys (build_table (redes_obj_of t []) summarized []))
            <-> exists s, In s summarized /\ k = str s).
  { intros k. rewrite build_table_keys. split.
    - intros [[]|(s & H & _ & E)]. now exists s.
    - intros (s & H & E). right. exists s. split; [exact H|]. split; [|exact E].
      apply has_member_entry. now apply Sm. }
  rewrite Forall_forall in Sv.
  split; [exact Hkeys|]. split; [|split].
  - intros n. rewrite In_prefixes. split.
    + intros (k & Hk & E). apply Hkeys in Hk. destruct Hk as (s & Hs & ->).
      rewrite IPv4Network_str in E by (now apply Sv).
      apply Some_eq in E. now subst.
    + intros H. exists (str n). split.
      * apply Hkeys. now exists n.
      * apply IPv4Network_str. now apply Sv.
  - intros s e Hs He. apply build_table_get.
    + now apply Forall_forall.
    + now apply Sv.
    + now left.
  - pose proof (build_table_length (redes_obj_of t []) summarized []) as H.
    simpl in H. exact H.
Qed.

(** ** Poison reverse *)

Lemma poison_reverse_keys N (t : table) :
  PyDict.keys (poison_reverse N t) = PyDict.keys t.
Proof.
  unfold poison_reverse, PyDict.keys. rewrite map_map.
  apply map_ext. intros [k e]. now destruct (String.eqb (next_hop e) N).
Qed.


(** ** The minimum, when no two keys denote one network *)

Lemma keys_entradas t : PyDict.keys (entradas t) = prefixes t.
Proof.
  unfold entradas, prefixes, PyDict.keys.
  induction t as [|[k e] t IH]; [reflexivity|].
  cbn [flat_map map fst snd]. rewrite map_app, IH.
  now destruct (IPv4Network_of_string k).
Qed.

Lemma redes_obj_of_distinct items : forall acc,
  NoDup (PyDict.keys acc ++ prefixes items) ->
  redes_obj_of items acc = acc ++ entradas items.
Proof.
  induction items as [|[k info] rest IH]; intros acc Hnd; cbn [redes_obj_of].
  - unfold entradas. simpl. now rewrite app_nil_r.
  - rewrite prefixes_cons in Hnd. unfold entradas. cbn [flat_map fst snd].
    fold (entradas rest).
    destruct (IPv4Network_of_string k) as [n|]; cbn [app] in *.
    + rewrite set_absent.
      * rewrite IH.
        -- now rewrite <- app_assoc.
        -- unfold PyDict.keys in *. rewrite map_app, <- app_assoc. exact Hnd.
      * apply NoDup_remove_2 in Hnd. intros H. apply Hnd.
        apply in_app_iff. now left.
    + now apply IH.
Qed.

Lemma redes_obj_distinct t :
  NoDup (prefixes t) -> redes_obj_of t [] = entradas t.
Proof. intros H. now rewrite redes_obj_of_distinct. Qed.

Lemma py_min_spec l : forall x,
  (forall y, In y (x :: l) -> py_min x l <= y) /\ In (py_min x l) (x :: l).
Proof.
  induction l as [|z l IH]; intros x; cbn [py_min].
  - split; [intros y [<-|[]]; lia | now left].
  - destruct (IH (if z <? x then z else x)) as [Hle Hin]. split.
    + pose proof (Hle _ (or_introl eq_refl)) as H0.
      intros y [E|[E|H]].
      * subst y. destruct (Z.ltb_spec z x); lia.
      * subst y. destruct (Z.ltb_spec z x); lia.
      * apply Hle. now right.
    + destruct Hin as [E|H]; [|right; now right].
      rewrite <- E. destruct (z <? x); [right; now left | now left].
Qed.

(** [py_min_by] returns the first element of least key. *)
Lemma py_min_by_first {A : Type} (key : A -> Z) l : forall pre x post,
  (forall y, In y pre -> key x < key y) ->
  (forall y, In y post -> key x <= key y) ->
  exists pre' post',
    pre ++ x :: post ++ l = pre' ++ py_min_by key x l :: post' /\
    (forall y, In y pre' -> key (py_min_by key x l) < key y) /\
    (forall y, In y post' -> key (py_min_by key x l) <= key y).
Proof.
  induction l as [|z l IH]; intros pre x post Hpre Hpost; cbn [py_min_by].
  - exists pre, post. rewrite app_nil_r. auto.
  - destruct (Z.ltb_spec (key z) (key x)) as [Hlt|Hge].
    + destruct (IH (pre ++ x :: post) z []) as (pre' & post' & E & H1 & H2).
      * intros y H. apply in_app_iff in H. destruct H as [H|[<-|H]].
        -- specialize (Hpre y H). lia.
        -- exact Hlt.
        -- specialize (Hpost y H). lia.
      * intros y [].
      * exists pre', post'. split; [|auto].
        rewrite <- E. cbn [app]. now rewrite <- app_assoc.
    + destruct (IH pre x (post ++ [z])) as (pre' & post' & E & H1 & H2).
      * exact Hpre.
      * intros y H. apply in_app_iff in H. destruct H as [H|[<-|[]]]; auto.
      * exists pre', post'. split; [|auto].
        rewrite <- E. now rewrite <- (app_assoc post [z] l).
Qed.

Lemma build_table_wf ro nets : forall acc,
  PyDict.wf acc -> PyDict.wf (build_table ro nets acc).
Proof.
  induction nets as [|s nets IH]; intros acc Hwf; cbn [build_table]; [exact Hwf|].
  destruct (redes_contidas ro s); apply IH; [exact Hwf|].
  unfold tset. now apply wf_set.
Qed.

(** When no two keys of the table denote one network, every entry of the
    summarized table has the least cost of the members of its prefix, and
    the next hop of the first member of that cost. *)
Lemma summary_of_minimum t :
  NoDup (prefixes t) ->
  exists out,
    summary_of t = Some out /\
    forall k e, In (k, e) out ->
      exists s, k = str s /\ IPv4Network_of_string k = Some s /\
        (forall m, In m (membros t s) -> cost e <= item_cost m) /\
        exists pre m post,
          membros t s = pre ++ m :: post /\
          item_cost m = cost e /\
          next_hop (snd m) = next_hop e /\
          (forall y, In y pre -> cost e < item_cost y).
Proof.
  intros Hnd.
  destruct (summary_of_spec t)
    as (summarized & out & Ecol & Erun & Sv & Hkeys & _ & Hget & _).
  exists out. split; [exact Erun|].
  assert (Hwf : PyDict.wf out).
  { unfold summary_of in Erun. rewrite Ecol in Erun.
    apply Some_eq in Erun. subst out. apply build_table_wf. constructor. }
  rewrite Forall_forall in Sv.
  intros k e Hin.
  assert (In k (PyDict.keys out)) as Hk by (apply In_keys; eauto).
  apply Hkeys in Hk. destruct Hk as (s & Hs & ->).
  exists s. split; [reflexivity|]. split; [now apply IPv4Network_str, Sv|].
  pose proof (In_get_Some string_dec out _ _ Hwf Hin) as Hg.
  rewrite (redes_obj_distinct t Hnd) in Hget.
  assert (Hent : forall e', entry_of (entradas t) s = Some e' ->
                            tget out (str s) = Some e') by (intros; now apply Hget).
  unfold entry_of in Hent.
  change (redes_contidas (entradas t) s) with (membros t s) in Hent.
  destruct (membros t s) as [|first others] eqn:Em.
  - exfalso.
    destruct (redes_obj_spec t) as (_ & _ & V & _).
    destruct (collapse_spec _ V) as (sm & E & _ & _ & _ & Hm).
    rewrite Ecol in E. apply Some_eq in E. subst sm.
    pose proof (has_member_entry _ _ (Hm s Hs)) as Hne.
    rewrite (redes_obj_distinct t Hnd) in Hne.
    unfold entry_of in Hne.
    change (redes_contidas (entradas t) s) with (membros t s) in Hne.
    rewrite Em in Hne. now apply Hne.
  - specialize (Hent _ eq_refl). unfold tget in Hent.
    rewrite Hg in Hent. apply Some_eq in Hent. subst e. cbn [cost next_hop].
    destruct (py_min_spec (map item_cost others) (item_cost first)) as [Hle Hmin].
    destruct (py_min_by_first item_cost others [] first [])
      as (pre & post & E & H1 & H2); try (intros y []).
    cbn [app] in E.
    assert (Hbest : item_cost (py_min_by item_cost first others)
                    = py_min (item_cost first) (map item_cost others)).
    { apply Z.le_antisymm.
      - change (item_cost first :: map item_cost others)
          with (map item_cost (first :: others)) in Hmin.
        apply in_map_iff in Hmin. destruct Hmin as (m & <- & Hm).
        rewrite E in Hm. apply in_app_iff in Hm.
        destruct Hm as [Hm|[<-|Hm]]; [specialize (H1 m Hm) | | specialize (H2 m Hm)]; lia.
      - apply Hle.
        change (item_cost first :: map item_cost others)
          with (map item_cost (first :: others)).
        apply in_map. rewrite E. apply in_app_iff. right. now left. }
    split.
    + intros m Hm. apply Hle.
      change (item_cost first :: map item_cost others)
        with (map item_cost (first :: others)). now apply in_map.
    + exists pre, (py_min_by item_cost first others), post.
      split; [exact E|]. split; [exact Hbest|]. split; [reflexivity|].
      intros y Hy. rewrite <- Hbest. now apply H1.
Qed.

End SummarizeFacts.

(* ================================================================== *)
(** * Facts about [ip_network], [summarize_table] and the posts *)
(* ================================================================== *)

Module VersionFacts.
Import PyDict PyDictFacts Json Ipaddress Roteador.
Import IpSpec SummarizeSpec IpFacts IpParseFacts SummarizeFacts.

(** ** Texts with fewer than two colons *)

Lemma split_not_nil sep s : split sep s <> [].
Proof.
  destruct s as [|c s]; simpl; [discriminate|].
  destruct (Ascii.eqb c sep); [discriminate|].
  destruct (split sep s); discriminate.
Qed.

Lemma split_colon_length s : length (split ":" s) = S (colons s).
Proof.
  induction s as [|c s IH]; [reflexivity|].
  cbn [split colons]. destruct (Ascii.eqb c ":").
  - cbn [length]. now rewrite IH.
  - destruct (split ":" s) as [|h t] eqn:E; [now apply split_not_nil in E|].
    cbn [length] in *. exact IH.
Qed.

(** The text before the first separator has no more colons than the
    whole. *)
Lemma colons_hd_split sep s :
  (colons (hd "" (split sep s)) <= colons s)%nat.
Proof.
  induction s as [|c s IH]; [simpl; lia|].
  cbn [split colons]. destruct (Ascii.eqb c sep).
  - simpl. lia.
  - destruct (split sep s) as [|h t] eqn:E; [now apply split_not_nil in E|].
    cbn [hd colons] in *. lia.
Qed.

Lemma _split_scope_id_colons ip_str addr :
  _split_scope_id ip_str = Some addr -> (colons addr <= colons ip_str)%nat.
Proof.
  unfold _split_scope_id. intros H.
  pose proof (colons_hd_split "%" ip_str) as Hc.
  destruct (split "%" ip_str) as [|a [|scope_id [|x l]]]; try discriminate.
  - apply Some_eq in H. subst a. exact Hc.
  - destruct (String.eqb scope_id ""); [discriminate|].
    apply Some_eq in H. subst a. exact Hc.
Qed.

(** [IPv6Network] refuses every text with fewer than two colons. *)
Lemma few_colons_refused s :
  (colons s < 2)%nat -> IPv6Network_refuses s = true.
Proof.
  intros Hs. unfold IPv6Network_refuses.
  destruct (2 <? length (split "/" s))%nat; [reflexivity|].
  pose proof (colons_hd_split "/" s) as Hc.
  destruct (split "/" s) as [|addr rest]; [reflexivity|]. cbn [hd] in Hc.
  destruct (_split_scope_id addr) as [ip_str|] eqn:E; [|reflexivity].
  apply _split_scope_id_colons in E.
  destruct (String.eqb ip_str ""); [reflexivity|].
  rewrite split_colon_length. apply Nat.ltb_lt. lia.
Qed.

Lemma colons_contains s :
  (0 < colons s)%nat -> contains_char ":" s = true.
Proof.
  induction s as [|c s IH]; cbn [colons contains_char]; [lia|].
  destruct (Ascii.eqb c ":"); [reflexivity|]. simpl. exact IH.
Qed.

(** The hypothesis, by computation. *)
Lemma no_ipv6_forallb {V : Type} (t : dict string V) :
  forallb (fun k => (colons k <? 2)%nat) (keys t) = true -> no_ipv6 t.
Proof.
  intros H k Hk. rewrite forallb_forall in H.
  apply Nat.ltb_lt. now apply H.
Qed.

(** ** [ip_network] *)

Lemma ip_network_IPv4 s n :
  ip_network s = IPv4 n <-> IPv4Network_of_string s = Some n.
Proof.
  unfold ip_network. destruct (IPv4Network_of_string s) as [m|].
  - split; intros H; inversion H; reflexivity.
  - destruct (IPv6Network_refuses s); split; discriminate.
Qed.

Lemma ip_network_ValueError s :
  ip_network s = ValueError -> IPv4Network_of_string s = None.
Proof.
  unfold ip_network. destruct (IPv4Network_of_string s); [discriminate|].
  reflexivity.
Qed.

Lemma ip_network_few_colons s :
  (colons s < 2)%nat -> ip_network s <> MaybeIPv6.
Proof.
  intros Hs. unfold ip_network.
  destruct (IPv4Network_of_string s); [discriminate|].
  now rewrite few_colons_refused.
Qed.

(** A text with one colon, as an address [ip:port], is no network. *)
Lemma ip_network_one_colon s :
  colons s = 1%nat -> ip_network s = ValueError.
Proof.
  intros Hs. unfold ip_network.
  rewrite IPv4Network_no_colon by (apply colons_contains; lia).
  rewrite few_colons_refused by lia. reflexivity.
Qed.

Lemma ip_network_str n : Valid n -> ip_network (str n) = IPv4 n.
Proof. intros Hv. apply ip_network_IPv4. now apply IPv4Network_str. Qed.

(** ** Lines 144-149 *)

(** When the loop ends in the model, it leaves [redes_obj_of]. *)
Lemma parse_table_Some items : forall acc redes_obj,
  parse_table items acc = Some redes_obj -> redes_obj = redes_obj_of items acc.
Proof.
  induction items as [|[k info] rest IH]; intros acc ro;
    cbn [parse_table redes_obj_of].
  - intros H. now apply Some_eq in H.
  - unfold ip_network.
    destruct (IPv4Network_of_string k) as [n|]; [apply IH|].
    destruct (IPv6Network_refuses k); [apply IH | discriminate].
Qed.

(** It ends when no key is left to [IPv6Network]. *)
Lemma parse_table_decided items : forall acc,
  (forall k, In k (keys items) -> ip_network k <> MaybeIPv6) ->
  parse_table items acc = Some (redes_obj_of items acc).
Proof.
  induction items as [|[k info] rest IH]; intros acc H;
    cbn [parse_table redes_obj_of]; [reflexivity|].
  assert (Hk : ip_network k <> MaybeIPv6) by (apply H; now left).
  assert (Hr : forall k', In k' (keys rest) -> ip_network k' <> MaybeIPv6)
    by (intros k' Hin; apply H; now right).
  unfold ip_network in Hk |- *.
  destruct (IPv4Network_of_string k) as [n|]; [now apply IH|].
  destruct (IPv6Network_refuses k); [now apply IH | contradiction].
Qed.

(** ** [summarize_table] *)

Lemma summarize_table_Some t out :
  summarize_table t = Some out -> summary_of t = Some out.
Proof.
  unfold summarize_table, summary_of.
  destruct (parse_table t []) as [ro|] eqn:E; [|discriminate].
  apply parse_table_Some in E. now subst ro.
Qed.

Lemma summarize_table_decided t :
  (forall k, In k (keys t) -> ip_network k <> MaybeIPv6) ->
  summarize_table t = summary_of t.
Proof.
  intros H. unfold summarize_table. now rewrite parse_table_decided.
Qed.

Lemma summarize_table_no_ipv6 (t : table) :
  no_ipv6 t -> summarize_table t = summary_of t.
Proof.
  intros H. apply summarize_table_decided.
  intros k Hk. apply ip_network_few_colons. now apply H.
Qed.

(** ** The posts *)

Lemma send_loop_spec r addresses out :
  summarize_table (routing_table r) = Some out ->
  exists posts,
    send_loop r addresses = Some posts /\
    map fst posts = addresses /\
    forall N p, In (N, p) posts ->
      p = mkPayload (my_address r) (poison_reverse N out).
Proof.
  intros Es.
  induction addresses as [|N rest IH]; cbn [send_loop].
  - exists []. split; [reflexivity|]. split; [reflexivity|]. intros ? ? [].
  - destruct IH as (posts & E & Hk & Hp). rewrite E.
    unfold advertisement. rewrite Es.
    eexists. split; [reflexivity|]. split; [simpl; now rewrite Hk|].
    intros N' p [H|H].
    + now inversion H.
    + now apply Hp.
Qed.

(** Posts are advertisements: the summarizer has returned. *)
Lemma send_loop_In r addresses : forall posts,
  send_loop r addresses = Some posts ->
  forall N p, In (N, p) posts -> advertisement r N = Some p.
Proof.
  induction addresses as [|N rest IH]; cbn [send_loop]; intros posts H.
  - apply Some_eq in H. subst posts. intros ? ? [].
  - destruct (advertisement r N) as [p0|] eqn:Ea; [|discriminate].
    destruct (send_loop r rest) as [ps|]; [|discriminate].
    apply Some_eq in H. subst posts.
    intros N' p [Hin|Hin].
    + inversion Hin; subst. exact Ea.
    + now apply (IH ps).
Qed.

End VersionFacts.

(* ================================================================== *)
(** * The update endpoint: what a request can and cannot change *)
(* ================================================================== *)

Module UpdateFacts.
Import PyDict PyDictFacts Json Roteador RelaxSpec RelaxFacts UpdateSpec.

Lemma Ok_eq {A : Type} (a b : A) : Ok a = Ok b -> a = b.
Proof. intros H. congruence. Qed.

(** Storing the value a key already has changes nothing. *)
Lemma set_same {K V : Type} (dec : forall a b : K, {a = b} + {a <> b})
    (d : dict K V) k v :
  get dec d k = Some v -> set dec d k v = d.
Proof.
  induction d as [|[k' v'] d IH]; simpl; [discriminate|].
  destruct (dec k' k) as [E|N]; intros H.
  - congruence.
  - now rewrite IH.
Qed.

Lemma relaxed_idem sender novo atual :
  exists e, relaxed sender novo atual = Some e /\
            relaxed sender novo (Some e) = Some e.
Proof.
  destruct atual as [cur|]; simpl.
  - destruct (novo <? cost cur) eqn:E.
    + eexists; split; [reflexivity|]. simpl.
      rewrite Z.ltb_irrefl, String.eqb_refl. reflexivity.
    + destruct (String.eqb_spec (next_hop cur) sender) as [Eh|Nh].
      * eexists; split; [reflexivity|]. simpl.
        rewrite Z.ltb_irrefl.
        destruct (String.eqb_spec (next_hop cur) sender); congruence.
      * eexists; split; [reflexivity|]. simpl. rewrite E.
        destruct (String.eqb_spec (next_hop cur) sender); congruence.
  - eexists; split; [reflexivity|]. simpl.
    rewrite Z.ltb_irrefl, String.eqb_refl. reflexivity.
Qed.

(** A route whose relaxation gives the entry the table holds leaves the
    table as it is, position of the key included. *)
Lemma relax_fixed sender network novo t e :
  tget t network = Some e ->
  relaxed sender novo (Some e) = Some e ->
  relax sender network novo t = t.
Proof.
  unfold relax, relaxed, tget, tset. intros Hg Hr. rewrite Hg.
  destruct (novo <? cost e).
  - apply set_same. congruence.
  - destruct (String.eqb (next_hop e) sender); [|reflexivity].
    apply set_same. congruence.
Qed.

Lemma novo_custo_inv custo_link info novo :
  novo_custo custo_link info = Ok novo ->
  exists c, info_cost info = Some c /\ novo = Z.min (custo_link + c) INFINITY.
Proof.
  unfold info_cost, novo_custo, py_get_default.
  destruct info as [| | | | |o]; try discriminate.
  destruct (PyDict.get string_dec o "cost") as [[| b | n | | |]|];
    simpl; try discriminate; intros H; apply Ok_eq in H; subst novo;
    eexists; (split; [reflexivity|]);
    unfold INFINITY;
    match goal with |- context [?a >? ?b] =>
      destruct (Z.gtb_spec a b); lia end.
Qed.

(** Whether a route entry raises, and what, does not depend on the link
    cost. *)
Lemma novo_custo_raise custo_link custo_link' info e :
  novo_custo custo_link info = Raise e ->
  novo_custo custo_link' info = Raise e.
Proof.
  unfold novo_custo, py_get_default.
  destruct info as [| | | | |o]; try (intros H; exact H).
  destruct (PyDict.get string_dec o "cost") as [[| b | n | | |]|];
    simpl; try discriminate; intros H; exact H.
Qed.

Lemma is_dict_false_raises custo_link info :
  is_dict info = false -> novo_custo custo_link info = Raise AttributeError.
Proof. destruct info; simpl; try discriminate; reflexivity. Qed.

(** The exception that leaves the loop does not depend on the table. *)
Lemma merge_routes_snd custo_link sender items : forall t t',
  snd (merge_routes custo_link sender items t)
  = snd (merge_routes custo_link sender items t').
Proof.
  induction items as [|[p i] items IH]; intros t t'; simpl; [reflexivity|].
  destruct (novo_custo custo_link i); [apply IH | reflexivity].
Qed.

(** The loop runs over the routes before the first one that raises. *)
Lemma merge_routes_prefix custo_link sender items :
  exists pre post,
    items = pre ++ post /\
    (forall p i, In (p, i) pre -> exists c, info_cost i = Some c) /\
    (forall t, fst (merge_routes custo_link sender items t)
               = fst (merge_routes custo_link sender pre t)) /\
    (post = [] \/
     exists p i e rest, post = (p, i) :: rest /\
                        novo_custo custo_link i = Raise e).
Proof.
  induction items as [|[p i] items IH].
  - exists [], []. repeat split; try easy. now left.
  - destruct (novo_custo custo_link i) as [novo|e] eqn:E.
    + destruct IH as (pre & post & -> & Hv & Hf & Hp).
      exists ((p, i) :: pre), post. split; [reflexivity|].
      split; [|split].
      * intros p' i' [H|H].
        -- inversion H; subst. apply novo_custo_inv in E.
           destruct E as (c & Hc & _). now exists c.
        -- now apply (Hv p').
      * intros t. simpl. rewrite E. apply Hf.
      * exact Hp.
    + exists [], ((p, i) :: items). split; [reflexivity|].
      split; [easy|]. split.
      * intros t. simpl. now rewrite E.
      * right. now exists p, i, e, items.
Qed.

(** Routes that all relax to what the table holds leave it unchanged. *)
Lemma merge_routes_fixed custo_link sender items : forall t,
  (forall p i, In (p, i) items -> exists c, info_cost i = Some c) ->
  (forall p i c, In (p, i) items -> info_cost i = Some c ->
     exists e, tget t p = Some e /\
               relaxed sender (Z.min (custo_link + c) INFINITY) (Some e)
               = Some e) ->
  fst (merge_routes custo_link sender items t) = t.
Proof.
  induction items as [|[p i] items IH]; intros t Hv Hf; simpl; [reflexivity|].
  destruct (Hv p i (or_introl eq_refl)) as (c & Hc).
  rewrite (novo_custo_info_cost custo_link i c Hc).
  destruct (Hf p i c (or_introl eq_refl) Hc) as (e & Hg & Hr).
  rewrite (relax_fixed sender p _ t e Hg Hr).
  apply IH.
  - intros p' i' H. apply (Hv p' i'). now right.
  - intros p' i' c' H. apply (Hf p' i' c'). now right.
Qed.

Lemma wf_app_l {K V : Type} (a b : dict K V) : wf (a ++ b) -> wf a.
Proof.
  unfold wf, keys. rewrite map_app. apply NoDup_app_remove_r.
Qed.

(** Running the loop again over the same routes changes nothing more. *)
Lemma merge_routes_idem custo_link sender items t :
  wf items ->
  fst (merge_routes custo_link sender items
         (fst (merge_routes custo_link sender items t)))
  = fst (merge_routes custo_link sender items t).
Proof.
  intros Hwf.
  destruct (merge_routes_prefix custo_link sender items)
    as (pre & post & -> & Hv & Hf & _).
  rewrite !Hf.
  assert (Hwp : wf pre) by exact (wf_app_l _ _ Hwf).
  destruct (merge_routes_valid custo_link sender pre t Hwp Hv) as [_ Hr].
  apply merge_routes_fixed; [exact Hv|].
  intros p i c Hin Hc. rewrite (Hr p i c Hin Hc).
  destruct (relaxed_idem sender (Z.min (custo_link + c) INFINITY) (tget t p))
    as (e & He & Hi).
  exists e. now rewrite He.
Qed.

Lemma relax_keys sender network novo t k :
  In k (keys (relax sender network novo t)) <-> k = network \/ In k (keys t).
Proof.
  unfold relax, tget, tset.
  destruct (get string_dec t network) as [atual|] eqn:Hg.
  - assert (Hin : In network (keys t)).
    { apply In_keys. exists atual. now apply (get_Some_In string_dec). }
    destruct (novo <? cost atual);
      [|destruct (String.eqb (next_hop atual) sender)];
      rewrite ?In_keys_set; intuition (subst; auto).
  - rewrite In_keys_set. reflexivity.
Qed.

(** The loop drops no key, and adds only keys of the routes. *)
Lemma merge_routes_keys custo_link sender items : forall t k,
  (In k (keys t) -> In k (keys (fst (merge_routes custo_link sender items t))))
  /\ (In k (keys (fst (merge_routes custo_link sender items t))) ->
      In k (keys t) \/ In k (keys items)).
Proof.
  induction items as [|[p i] items IH]; intros t k; simpl.
  - split; auto.
  - destruct (novo_custo custo_link i) as [novo|e]; simpl.
    + destruct (IH (relax sender p novo t) k) as [H1 H2]. split.
      * intros H. apply H1. apply relax_keys. now right.
      * intros H. apply H2 in H. rewrite relax_keys in H.
        destruct H as [[->|H]|H]; [right; now left | now left |].
        right. now right.
    + split; auto.
Qed.

Lemma merge_routes_wf custo_link sender items : forall t,
  wf t -> wf (fst (merge_routes custo_link sender items t)).
Proof.
  induction items as [|[p i] items IH]; intros t Hwf; simpl; [exact Hwf|].
  destruct (novo_custo custo_link i) as [novo|e]; simpl; [|exact Hwf].
  apply IH. now apply relax_wf.
Qed.

(** The two ways the endpoint ends: without running the loop, with a
    reply that depends on the request and on the neighbors only and the
    router untouched; or through the loop, on the routes of the request,
    for a sender that is a neighbor. *)
Lemma receive_update_cases r request :
  (exists reply, forall r0, neighbors r0 = neighbors r ->
      receive_update r0 request = (reply, r0)) \/
  (exists sender custo_link items,
      sender_of request = Some sender /\
      routes_of request = Some items /\
      get string_dec (neighbors r) sender = Some custo_link /\
      forall r0, neighbors r0 = neighbors r ->
        receive_update r0 request
        = merged r0 (merge_routes custo_link sender items (routing_table r0))).
Proof.
  unfold receive_update, sender_of, routes_of.
  destruct (negb (truthy request)); [left; eexists; reflexivity|].
  destruct (py_get request "sender_address") as [sa|];
    [|left; eexists; reflexivity].
  destruct (py_get request "routing_table") as [st|];
    [|left; eexists; reflexivity].
  destruct (negb (truthy sa) || negb (is_dict st));
    [left; eexists; reflexivity|].
  destruct sa as [| | |sender| |]; destruct st as [| | | | |items];
    try (left; eexists; reflexivity).
  destruct (get string_dec (neighbors r) sender) as [custo_link|] eqn:En.
  - right. exists sender, custo_link, items.
    split; [reflexivity|]. split; [reflexivity|]. split; [exact En|].
    intros r0 ->. rewrite En. unfold merged.
    destruct (merge_routes custo_link sender items (routing_table r0))
      as [t [e|]]; reflexivity.
  - left. eexists. intros r0 ->. rewrite En. reflexivity.
Qed.

Lemma with_table_table r t : routing_table (with_table r t) = t.
Proof. reflexivity. Qed.

Lemma with_table_twice r t t' :
  with_table (with_table r t) t' = with_table r t'.
Proof. reflexivity. Qed.

Lemma merged_snd r m : snd (merged r m) = with_table r (fst m).
Proof. destruct m as [t [e|]]; reflexivity. Qed.

Lemma merged_fst r r' m m' :
  snd m = snd m' -> fst (merged r m) = fst (merged r' m').
Proof.
  destruct m as [t [e|]], m' as [t' [e'|]]; simpl; congruence.
Qed.


Lemma receive_update_neighbors r request :
  neighbors (snd (receive_update r request)) = neighbors r.
Proof.
  destruct (receive_update_cases r request)
    as [(reply & H)|(sender & cl & items & _ & _ & _ & H)];
    rewrite (H r eq_refl); [reflexivity|].
  now rewrite merged_snd.
Qed.

Lemma receive_all_neighbors requests : forall r,
  neighbors (receive_all r requests) = neighbors r.
Proof.
  induction requests as [|q requests IH]; intros r; simpl; [reflexivity|].
  now rewrite IH, receive_update_neighbors.
Qed.


Lemma add_neighbor_routes_other items : forall t k,
  ~ In k (keys items) -> tget (add_neighbor_routes items t) k = tget t k.
Proof.
  induction items as [|[n c] items IH]; intros t k Hk; simpl; [reflexivity|].
  rewrite IH.
  - unfold tget, tset. apply get_set_other. intros ->. apply Hk. now left.
  - intros H. apply Hk. now right.
Qed.

(** A route entry without an integer cost raises, whatever the link
    cost. *)
Lemma info_cost_none_raises info :
  info_cost info = None ->
  exists e, forall custo_link, novo_custo custo_link info = Raise e.
Proof.
  unfold info_cost, novo_custo, py_get_default.
  destruct info as [| | | | |o];
    try (intros _; exists AttributeError; reflexivity).
  destruct (get string_dec o "cost") as [[| b | n | | |]|];
    try discriminate; intros _; exists TypeError; reflexivity.
Qed.

Lemma merge_routes_app custo_link sender pre post t :
  (forall p i, In (p, i) pre -> exists c, info_cost i = Some c) ->
  merge_routes custo_link sender (pre ++ post) t
  = merge_routes custo_link sender post
      (fst (merge_routes custo_link sender pre t)).
Proof.
  revert t. induction pre as [|[p i] pre IH]; intros t Hv; simpl;
    [reflexivity|].
  destruct (Hv p i (or_introl eq_refl)) as (c & Hc).
  rewrite (novo_custo_info_cost custo_link i c Hc).
  apply IH. intros p' i' H. apply (Hv p' i'). now right.
Qed.

End UpdateFacts.

(* ================================================================== *)
(** * The summarizer: where the entries of its result come from *)
(* ================================================================== *)

Module MemberFacts.
Import PyDict PyDictFacts Json Ipaddress Roteador.
Import IpSpec IpFacts SummarizeSpec SummarizeFacts CollapseFacts.

Lemma In_set {K V : Type} (dec : forall a b : K, {a = b} + {a <> b})
    (d : dict K V) k v k0 v0 :
  In (k0, v0) (set dec d k v) -> (k0 = k /\ v0 = v) \/ In (k0, v0) d.
Proof.
  induction d as [|[k' v'] d IH]; simpl.
  - intros [H|[]]. inversion H. now left.
  - destruct (dec k' k) as [E|N]; simpl.
    + intros [H|H]; [inversion H; subst; now left | right; now right].
    + intros [H|H]; [right; now left|].
      destruct (IH H) as [H1|H1]; [now left | right; now right].
Qed.

(** Every entry of [redes_obj] is the entry of a key of the table that
    parses to its network. *)
Lemma redes_obj_of_In items : forall acc n e,
  In (n, e) (redes_obj_of items acc) ->
  In (n, e) acc \/ exists k, In (k, e) items /\ IPv4Network_of_string k = Some n.
Proof.
  induction items as [|[k0 e0] items IH]; intros acc n e; simpl;
    [now left|].
  destruct (IPv4Network_of_string k0) as [n0|] eqn:E; intros H; apply IH in H.
  - destruct H as [H|(k & Hin & Hk)].
    + apply In_set in H. destruct H as [[-> ->]|H]; [|now left].
      right. exists k0. split; [now left | exact E].
    + right. exists k. split; [now right | exact Hk].
  - destruct H as [H|(k & Hin & Hk)]; [now left|].
    right. exists k. split; [now right | exact Hk].
Qed.

Lemma redes_obj_of_none items : forall acc,
  (forall k, In k (keys items) -> IPv4Network_of_string k = None) ->
  redes_obj_of items acc = acc.
Proof.
  induction items as [|[k0 e0] items IH]; intros acc H; simpl; [reflexivity|].
  rewrite (H k0) by now left. apply IH. intros k Hk. apply H. now right.
Qed.

Lemma py_min_by_In {A : Type} (key : A -> Z) l : forall x,
  In (py_min_by key x l) (x :: l).
Proof.
  induction l as [|y l IH]; intros x; simpl; [now left|].
  destruct (IH (if key y <? key x then y else x)) as [H|H].
  - destruct (key y <? key x); [right; left | left]; exact H.
  - right. now right.
Qed.

(** The element [min] picks by key has the least key. *)
Lemma py_min_by_cost {A : Type} (key : A -> Z) l : forall x,
  key (py_min_by key x l) = py_min (key x) (map key l).
Proof.
  induction l as [|y l IH]; intros x; simpl; [reflexivity|].
  rewrite IH. now destruct (key y <? key x).
Qed.

Lemma build_table_In ro nets : forall acc k e,
  In (k, e) (build_table ro nets acc) ->
  In (k, e) acc \/ exists s, In s nets /\ k = str s /\ entry_of ro s = Some e.
Proof.
  induction nets as [|s nets IH]; intros acc k e; simpl; [now left|].
  unfold entry_of.
  destruct (redes_contidas ro s) as [|first others] eqn:E; intros H;
    apply IH in H.
  - destruct H as [H|(s' & Hin & Hk & He)]; [now left|].
    right. exists s'. split; [now right|]. split; [exact Hk | exact He].
  - destruct H as [H|(s' & Hin & Hk & He)].
    + apply In_set in H. destruct H as [[-> ->]|H]; [|now left].
      right. exists s. split; [now left|]. split; [reflexivity|].
      now rewrite E.
    + right. exists s'. split; [now right|]. split; [exact Hk | exact He].
Qed.

(** The entry of a covering prefix has the cost and the next hop of one
    of the entries it covers. *)
Lemma entry_of_member ro s e :
  entry_of ro s = Some e ->
  exists n0 e0, In (n0, e0) ro /\ subnet_of n0 s = true /\
                cost e = cost e0 /\ next_hop e = next_hop e0.
Proof.
  unfold entry_of.
  destruct (redes_contidas ro s) as [|first others] eqn:E; [discriminate|].
  intros H. apply Some_eq in H. subst e. cbn [cost next_hop].
  pose proof (py_min_by_In item_cost others first) as Hin.
  rewrite <- E in Hin. unfold redes_contidas in Hin.
  apply filter_In in Hin. destruct Hin as [Hin Hs].
  destruct (py_min_by item_cost first others) as [n0 e0] eqn:Eb.
  exists n0, e0. split; [exact Hin|]. split; [exact Hs|].
  split; [|reflexivity].
  rewrite <- py_min_by_cost, Eb. reflexivity.
Qed.

Lemma entradas_set_none (t : table) k e :
  IPv4Network_of_string k = None -> entradas (tset t k e) = entradas t.
Proof.
  intros Hk. unfold tset.
  induction t as [|[k' e'] t IH]; simpl.
  - now rewrite Hk.
  - destruct (string_dec k' k) as [->|N]; simpl.
    + now rewrite Hk.
    + now rewrite IH.
Qed.

Lemma entradas_add_neighbor_routes items : forall t,
  (forall k, In k (keys items) -> IPv4Network_of_string k = None) ->
  entradas (add_neighbor_routes items t) = entradas t.
Proof.
  induction items as [|[k c] items IH]; intros t H; simpl; [reflexivity|].
  rewrite IH.
  - apply entradas_set_none. apply H. now left.
  - intros k' Hk. apply H. now right.
Qed.

(** One network collapses to itself. *)
Lemma collapse_single n :
  Valid n -> collapse_addresses [n] = Some [n].
Proof.
  intros Hv.
  assert (Hf : Forall Valid [n]) by (constructor; [exact Hv | constructor]).
  destruct (collapse_apart [n] Hf) as (out & E & Hin).
  - constructor; [intros [] | constructor].
  - intros a b [<-|[]] [<-|[]] Hne. contradiction.
  - destruct (collapse_spec [n] Hf) as (out' & E' & _ & _ & Hl & _).
    rewrite E in E'. apply Some_eq in E'. subst out'.
    rewrite E. f_equal.
    destruct out as [|x [|y out]].
    + exfalso. apply (Hin n). now left.
    + f_equal. destruct (proj1 (Hin x) (or_introl eq_refl)) as [H|[]].
      now symmetry.
    + simpl in Hl. lia.
Qed.

End MemberFacts.

(* ================================================================== *)
(** * The collapsed networks are disjoint and in rising order *)
(* ================================================================== *)

Module OrderFacts.
Import PyDict PyDictFacts Ipaddress IpSpec IpFacts RangeFacts CollapseFacts.
Import OrderSpec.

Lemma le_net_trans a b c : le_net a b -> le_net b c -> le_net a c.
Proof. unfold le_net. lia. Qed.

Lemma net_ltb_le a b : net_ltb a b = true -> le_net a b.
Proof.
  unfold net_ltb, le_net.
  destruct (Z.eqb_spec (network_address a) (network_address b)); simpl.
  - destruct (Z.eqb_spec (netmask a) (netmask b)); simpl; [discriminate|].
    intros H. apply Z.ltb_lt in H. lia.
  - intros H. apply Z.ltb_lt in H. lia.
Qed.

Lemma net_nltb_le a b : net_ltb a b = false -> le_net b a.
Proof.
  unfold net_ltb, le_net.
  destruct (Z.eqb_spec (network_address a) (network_address b)); simpl.
  - destruct (Z.eqb_spec (netmask a) (netmask b)); simpl; [lia|].
    intros H. apply Z.ltb_ge in H. lia.
  - intros H. apply Z.ltb_ge in H. lia.
Qed.

Lemma sorted_le_net l : StronglySorted le_net (sorted net_ltb l).
Proof.
  apply (sorted_sorted net_ltb le_net le_net_trans net_ltb_le net_nltb_le).
Qed.

Lemma netmask_eq n :
  Valid n -> netmask n = 2 ^ 32 - 2 ^ (32 - prefixlen n).
Proof. intros (Hp & _). unfold netmask. now apply ip_int_from_prefix_eq. Qed.

(** A multiple of [2 ^ j] inside a block of [2 ^ k] addresses that starts
    at a multiple of [2 ^ k], with [j <= k], has its own block of
    [2 ^ j] addresses inside it. *)
Lemma block_inside a b j k :
  0 <= j <= k -> a mod 2 ^ k = 0 -> b mod 2 ^ j = 0 ->
  a <= b < a + 2 ^ k -> b + 2 ^ j <= a + 2 ^ k.
Proof.
  intros Hjk Ha Hb Hab.
  assert (Hs : 2 ^ k = 2 ^ (k - j) * 2 ^ j).
  { rewrite <- Z.pow_add_r by lia. f_equal. lia. }
  assert (Hj : 0 < 2 ^ j) by (apply Z.pow_pos_nonneg; lia).
  assert (Hd : 0 < 2 ^ (k - j)) by (apply Z.pow_pos_nonneg; lia).
  assert (Hk : 0 < 2 ^ k) by (apply Z.pow_pos_nonneg; lia).
  apply Z.mod_divide in Ha; [|lia]. destruct Ha as (qa & Ea).
  apply Z.mod_divide in Hb; [|lia]. destruct Hb as (qb & Eb).
  rewrite Hs in *. set (d := 2 ^ (k - j)) in *. set (s := 2 ^ j) in *.
  subst a b.
  assert (qa * d <= qb) by nia.
  assert (qb < (qa + 1) * d) by nia.
  nia.
Qed.

(** Two networks are nested or disjoint: of two networks in sorted
    order, the second ends no later than the first or starts after its
    end. *)
Lemma le_net_laminar a b :
  Valid a -> Valid b -> le_net a b ->
  broadcast_address a < broadcast_address b -> before a b.
Proof.
  intros Va Vb Hle Hbc. unfold before.
  rewrite (broadcast_eq a Va) in *. rewrite (broadcast_eq b Vb) in Hbc.
  pose proof (netmask_eq a Va) as Ma. pose proof (netmask_eq b Vb) as Mb.
  destruct Va as (Hpa & Hra & Hma), Vb as (Hpb & Hrb & Hmb).
  set (ja := 32 - prefixlen a) in *. set (jb := 32 - prefixlen b) in *.
  assert (Hja : 0 < 2 ^ ja) by (apply Z.pow_pos_nonneg; lia).
  assert (Hjb : 0 < 2 ^ jb) by (apply Z.pow_pos_nonneg; lia).
  destruct (Z_lt_le_dec (network_address a + 2 ^ ja - 1) (network_address b))
    as [H|H]; [exact H|exfalso].
  assert (Hab : network_address a <= network_address b).
  { destruct Hle as [Hle|[Hle _]]; lia. }
  destruct (Z_le_gt_dec jb ja) as [Hj|Hj].
  - pose proof (block_inside (network_address a) (network_address b) jb ja
                  ltac:(lia) Hma Hmb ltac:(lia)).
    lia.
  - assert (Hpw : 2 ^ ja < 2 ^ jb) by (apply Z.pow_lt_mono_r; lia).
    assert (Hmb' : network_address b mod 2 ^ ja = 0).
    { apply (mod_pow2_le _ jb ja); [lia | exact Hmb]. }
    assert (E : network_address a = network_address b).
    { apply Z.mod_divide in Hma; [|lia]. destruct Hma as (qa & Ea).
      apply Z.mod_divide in Hmb'; [|lia]. destruct Hmb' as (qb & Eb).
      clear Hmb Hbc Ma Mb Hle Hpw.
      set (s := 2 ^ ja) in *. rewrite Ea, Eb in H, Hab. rewrite Ea, Eb.
      assert (qa <= qb) by nia. assert (qb < qa + 1) by nia.
      f_equal. lia. }
    destruct Hle as [Hle|[_ Hle]]; lia.
Qed.

(** The second loop of [_collapse_addresses_internal] keeps networks
    each of which starts after the end of the one kept before it. *)
Lemma skip_subsumed_before l : forall last,
  Forall Valid l ->
  StronglySorted le_net l ->
  (forall la, last = Some la -> Valid la /\ Forall (le_net la) l) ->
  (forall la n, last = Some la -> In n (skip_subsumed last l) -> before la n)
  /\ StronglySorted before (skip_subsumed last l).
Proof.
  induction l as [|net l IH]; intros last Hv Hs Hl; simpl.
  - split; [intros la n _ []|constructor].
  - inversion Hv as [|? ? Vn Hv']; subst.
    inversion Hs as [|? ? Hs' Hn]; subst.
    assert (Hkeep :
      (forall x, In x (skip_subsumed (Some net) l) -> before net x) /\
      StronglySorted before (skip_subsumed (Some net) l)).
    { destruct (IH (Some net) Hv' Hs') as [H1 H2].
      - intros la E. apply Some_eq in E. subst la. split; assumption.
      - split; [|exact H2]. intros x Hx. now apply (H1 net). }
    destruct Hkeep as [Hk1 Hk2].
    destruct last as [la|].
    + destruct (Hl la eq_refl) as [Vla Hla].
      inversion Hla as [|? ? Hlan Hla']; subst.
      destruct (Z.geb_spec (broadcast_address la) (broadcast_address net))
        as [Hge|Hlt].
      * apply IH; [exact Hv' | exact Hs' |].
        intros la' E. apply Some_eq in E. subst la'. split; assumption.
      * assert (Hb : before la net) by now apply le_net_laminar.
        split.
        -- intros la' n E [<-|Hin]; apply Some_eq in E; subst la'.
           ++ exact Hb.
           ++ pose proof (Hk1 n Hin) as H1. unfold before in *.
              assert (network_address net <= broadcast_address net).
              { rewrite (broadcast_eq net Vn).
                pose proof (size_pos net Vn). lia. }
              lia.
        -- constructor; [exact Hk2|].
           apply Forall_forall. exact Hk1.
    + split; [intros la n E; discriminate|].
      constructor; [exact Hk2|]. apply Forall_forall. exact Hk1.
Qed.

Lemma internal_before l out :
  Forall Valid l ->
  _collapse_addresses_internal l = Some out ->
  StronglySorted before out.
Proof.
  intros Hv. unfold _collapse_addresses_internal.
  destruct (merge_loop (merge_fuel l) (rev l) []) as [subnets|] eqn:Erun;
    [|discriminate].
  intros E. apply Some_eq in E. subst out.
  assert (merge_inv (covered l) (length l) l [] subnets)
    as (_ & _ & Hk & _).
  { apply (merge_loop_keeps (covered l) (length l) l Hv
             (merge_fuel l) (rev l) [] subnets); [|exact Erun].
    split; [now apply Forall_rev|]. split; [constructor|].
    split; [intros k v []|]. split; [|split].
    - intros a. rewrite covered_rev. split; [|tauto].
      intros [H|(n & [] & _)]. exact H.
    - rewrite length_rev. simpl. lia.
    - intros n [H|[]]. apply in_rev in H. exists n. split; [exact H|].
      rewrite Forall_forall in Hv. now apply subnet_of_refl, Hv. }
  apply skip_subsumed_before.
  - apply Forall_forall. intros v Hin. apply sorted_In in Hin.
    apply In_values in Hin. destruct Hin as (k & Hin). now apply (Hk k v).
  - apply sorted_le_net.
  - intros la E. discriminate.
Qed.

Lemma collapse_before l out :
  Forall Valid l ->
  collapse_addresses l = Some out ->
  StronglySorted before out.
Proof.
  intros Hv. unfold collapse_addresses.
  fold (host_addresses l).
  set (rs := _find_address_range (host_addresses l)).
  destruct (flat_summarize_spec rs (fun f la H => ranges_of_hosts l f la Hv H))
    as (Av & _).
  apply internal_before. apply Forall_app. split; [exact Av|].
  apply Forall_forall. intros n H. apply filter_In in H.
  rewrite Forall_forall in Hv. now apply Hv.
Qed.

(** In a list in that order any two different networks are disjoint. *)
Lemma before_disjoint l n m :
  StronglySorted before l -> In n l -> In m l -> n <> m -> disjoint n m.
Proof.
  unfold disjoint, before.
  induction 1 as [|x l Hs IH Hx]; intros Hn Hm Hne; [destruct Hn|].
  rewrite Forall_forall in Hx.
  destruct Hn as [<-|Hn], Hm as [<-|Hm].
  - contradiction.
  - left. now apply Hx.
  - right. now apply Hx.
  - now apply IH.
Qed.

End OrderFacts.

(* ================================================================== *)
(** * The CRC: the loops compute a long division *)
(* ================================================================== *)

Module CrcFacts.
Import PySeq CrcSpec Crc.

Lemma skipn_nth_error {A : Type} (l : list A) : forall i x,
  nth_error l i = Some x -> skipn i l = x :: skipn (S i) l.
Proof.
  induction l as [|y l IH]; intros [|i] x H; simpl in *; try discriminate.
  - now inversion H.
  - now apply IH.
Qed.

Lemma index_lt {A : Type} (l : list A) i :
  (i < length l)%nat -> exists x, index l i = Ok x /\ nth_error l i = Some x.
Proof.
  intros H. unfold index.
  destruct (nth_error l i) as [x|] eqn:E.
  - now exists x.
  - apply nth_error_None in E. lia.
Qed.

Lemma index_ge {A : Type} (l : list A) i :
  (length l <= i)%nat -> index l i = IndexError.
Proof.
  intros H. unfold index. apply nth_error_None in H. now rewrite H.
Qed.

Lemma index_app {A : Type} (pre : list A) c rest :
  index (pre ++ c :: rest) (length pre) = Ok c.
Proof.
  unfold index. rewrite nth_error_app2 by lia.
  now rewrite Nat.sub_diag.
Qed.

(** ** [xor_bits] *)

Lemma xor_loop_spec a b : forall k i acc,
  (i + k = length a)%nat -> (length a <= length b)%nat ->
  xor_loop a b (seq i k) acc
  = Ok (acc ++ xor_front (skipn i a) (skipn i b)).
Proof.
  induction k as [|k IH]; intros i acc Hk Hab; simpl.
  - rewrite skipn_all2 by lia. simpl. now rewrite app_nil_r.
  - destruct (index_lt a i ltac:(lia)) as (x & -> & Hx).
    destruct (index_lt b i ltac:(lia)) as (y & -> & Hy).
    simpl. rewrite IH by lia.
    rewrite (skipn_nth_error a i x Hx), (skipn_nth_error b i y Hy).
    simpl. now rewrite <- app_assoc.
Qed.

Lemma xor_loop_short a b : forall k i acc,
  (i + k = length a)%nat -> (i <= length b < length a)%nat ->
  xor_loop a b (seq i k) acc = IndexError.
Proof.
  induction k as [|k IH]; intros i acc Hk Hab; [lia|]. simpl.
  destruct (index_lt a i ltac:(lia)) as (x & -> & _). simpl.
  destruct (Nat.eq_dec i (length b)) as [E|N].
  - rewrite index_ge by lia. reflexivity.
  - destruct (index_lt b i ltac:(lia)) as (y & -> & _). simpl.
    apply IH; lia.
Qed.

Lemma xor_bits_ok a b :
  (length a <= length b)%nat -> xor_bits a b = Ok (xor_front a b).
Proof.
  intros H. unfold xor_bits.
  now rewrite (xor_loop_spec a b (length a) 0 []) by lia.
Qed.

Lemma xor_bits_short a b :
  (length b < length a)%nat -> xor_bits a b = IndexError.
Proof.
  intros H. unfold xor_bits. apply xor_loop_short; lia.
Qed.

Lemma xor_front_length l : forall g, length (xor_front l g) = length l.
Proof.
  induction l as [|x l IH]; intros [|y g]; simpl; auto.
Qed.

Lemma xor_char_binary x y : xor_char x y = "0"%char \/ xor_char x y = "1"%char.
Proof. unfold xor_char. destruct (Ascii.eqb x y); auto. Qed.

Lemma xor_front_binary_le l : forall g,
  (length l <= length g)%nat -> binary (xor_front l g).
Proof.
  induction l as [|x l IH]; intros [|y g] H; simpl in *; try lia;
    constructor.
  - apply xor_char_binary.
  - apply IH. lia.
Qed.

Lemma xor_front_nil l : xor_front l [] = l.
Proof. now destruct l. Qed.

Lemma xor_front_app l : forall g t,
  (length g <= length l)%nat ->
  xor_front (l ++ t) g = xor_front l g ++ t.
Proof.
  induction l as [|x l IH]; intros [|y g] t H; simpl in *; try lia;
    rewrite ?xor_front_nil; try reflexivity.
  rewrite IH by lia. reflexivity.
Qed.

Lemma xor_front_firstn l : forall g,
  (length g <= length l)%nat ->
  xor_front l g = xor_front (firstn (length g) l) g ++ skipn (length g) l.
Proof.
  intros g H.
  rewrite <- (firstn_skipn (length g) l) at 1.
  apply xor_front_app. rewrite length_firstn. lia.
Qed.

(** ** The loop that writes the xor back *)

Lemma setitem_app {A : Type} (pre : list A) y rest x :
  setitem (pre ++ y :: rest) (length pre) x = Ok (pre ++ x :: rest).
Proof.
  unfold setitem. rewrite length_app. cbn [length].
  destruct (Nat.ltb_spec (length pre) (length pre + S (length rest))); [|lia].
  rewrite firstn_app, Nat.sub_diag, firstn_all.
  change (firstn 0 (y :: rest)) with (@nil A). rewrite app_nil_r.
  replace (S (length pre)) with (length pre + 1)%nat by lia.
  rewrite skipn_app, skipn_all2 by lia.
  replace (length pre + 1 - length pre)%nat with 1%nat by lia.
  reflexivity.
Qed.

(** The turns from [j] on overwrite [old] with what is left of
    [resultado_xor]. *)
Lemma write_loop_spec res i : forall k j pre old post,
  (j + k = length res)%nat -> length old = k ->
  length pre = (i + j)%nat ->
  write_loop res i (seq j k) (pre ++ old ++ post)
  = Ok (pre ++ skipn j res ++ post).
Proof.
  induction k as [|k IH]; intros j pre old post Hk Ho Hp; simpl.
  - destruct old; [|discriminate]. rewrite skipn_all2 by lia. reflexivity.
  - destruct old as [|y old]; [discriminate|].
    destruct (index_lt res j ltac:(lia)) as (x & -> & Hx). simpl.
    rewrite <- Hp. simpl. rewrite setitem_app. simpl.
    rewrite (skipn_nth_error res j x Hx).
    replace (pre ++ x :: old ++ post) with ((pre ++ [x]) ++ old ++ post)
      by now rewrite <- app_assoc.
    rewrite IH.
    + now rewrite <- app_assoc.
    + lia.
    + simpl in Ho. lia.
    + rewrite length_app. simpl. lia.
Qed.

(** ** The division loop *)

Lemma slice_app {A : Type} (pre : list A) rest n :
  slice (pre ++ rest) (Z.of_nat (length pre)) (Z.of_nat (length pre) + Z.of_nat n)
  = firstn n rest.
Proof.
  unfold slice.
  replace (Z.of_nat (length pre) + Z.of_nat n - Z.of_nat (length pre))
    with (Z.of_nat n) by lia.
  rewrite !Nat2Z.id.
  rewrite skipn_app, skipn_all, Nat.sub_diag. reflexivity.
Qed.

(** One turn at a 1, for a generator [g0 :: gt]. *)
Lemma division_step g0 gt pre rest :
  (length gt <= length rest)%nat ->
  let m := pre ++ "1"%char :: rest in
  let i := length pre in
  let r := Z.of_nat (length gt) in
  let janela := slice m (Z.of_nat i) (Z.of_nat i + r + 1) in
  exists res,
    xor_bits janela (g0 :: gt) = Ok res /\
    write_loop res i (seq 1 (length res - 1)) m
    = Ok (pre ++ "1"%char :: xor_front rest gt).
Proof.
  intros H m i r janela.
  assert (Ej : janela = "1"%char :: firstn (length gt) rest).
  { unfold janela, m, i, r.
    replace (Z.of_nat (length pre) + Z.of_nat (length gt) + 1)
      with (Z.of_nat (length pre) + Z.of_nat (S (length gt))) by lia.
    now rewrite slice_app. }
  exists (xor_front janela (g0 :: gt)). split.
  - apply xor_bits_ok. rewrite Ej. simpl. rewrite length_firstn. lia.
  - rewrite Ej. cbn [xor_front length].
    rewrite xor_front_length, length_firstn.
    replace (S (Nat.min (length gt) (length rest)) - 1)%nat
      with (length gt) by lia.
    unfold m.
    replace (pre ++ "1"%char :: rest)
      with ((pre ++ ["1"%char])
              ++ firstn (length gt) rest ++ skipn (length gt) rest)
      by now rewrite firstn_skipn, <- app_assoc.
    rewrite write_loop_spec.
    + cbn [skipn]. rewrite <- app_assoc. simpl.
      now rewrite <- xor_front_firstn.
    + simpl. rewrite xor_front_length, length_firstn. lia.
    + rewrite length_firstn. lia.
    + rewrite length_app. simpl. unfold i. lia.
Qed.

Lemma divided_length gt : forall k l, length (divided gt k l) = length l.
Proof.
  induction k as [|k IH]; intros [|c rest]; simpl; try reflexivity.
  rewrite IH. destruct (Ascii.eqb c "1"); [|reflexivity].
  now rewrite xor_front_length.
Qed.

Lemma division_loop_spec g0 gt : forall k pre rest,
  (k + length gt <= length rest)%nat ->
  division_loop (g0 :: gt) (Z.of_nat (length gt)) (seq (length pre) k)
                (pre ++ rest)
  = Ok (pre ++ divided gt k rest).
Proof.
  induction k as [|k IH]; intros pre rest H; simpl.
  - now destruct rest.
  - destruct rest as [|c rest]; simpl in H; [lia|].
    rewrite index_app. simpl.
    replace (S (length pre)) with (length (pre ++ [c]))
      by (rewrite length_app; simpl; lia).
    destruct (Ascii.eqb_spec c "1") as [->|Hc].
    + destruct (division_step g0 gt pre rest ltac:(lia)) as (res & -> & Hw).
      simpl. simpl in Hw. rewrite Hw. simpl.
      replace (pre ++ "1"%char :: xor_front rest gt)
        with ((pre ++ ["1"%char]) ++ xor_front rest gt)
        by now rewrite <- app_assoc.
      rewrite IH by (rewrite xor_front_length; lia).
      now rewrite <- app_assoc.
    + replace (pre ++ c :: rest) with ((pre ++ [c]) ++ rest)
        by now rewrite <- app_assoc.
      rewrite IH by lia. now rewrite <- app_assoc.
Qed.

(** With an empty generator no turn writes anything. *)
Lemma division_loop_nil : forall range m,
  (forall i, In i range -> (i < length m)%nat) ->
  division_loop [] (-1) range m = Ok m.
Proof.
  induction range as [|i range IH]; intros m H; simpl; [reflexivity|].
  destruct (index_lt m i (H i (or_introl eq_refl))) as (c & -> & _). simpl.
  assert (IH' : division_loop [] (-1) range m = Ok m).
  { apply IH. intros j Hj. apply H. now right. }
  destruct (Ascii.eqb c "1"); [|exact IH'].
  unfold slice. replace (Z.of_nat i + -1 + 1 - Z.of_nat i) with 0 by lia.
  simpl. exact IH'.
Qed.

Lemma zeros_length r : length (zeros r) = Z.to_nat r.
Proof. apply repeat_length. Qed.

(** The function is the long division. *)
Lemma calcular_crc_manual_spec dados g0 gt :
  gt <> [] ->
  calcular_crc_manual dados (g0 :: gt)
  = Ok (remainder gt (length dados)
                  (dados ++ zeros (Z.of_nat (length gt)))).
Proof.
  intros Hgt. unfold calcular_crc_manual.
  assert (Hr : Z.of_nat (length (g0 :: gt)) - 1 = Z.of_nat (length gt))
    by (simpl length; lia).
  rewrite Hr.
  pose proof (division_loop_spec g0 gt (length dados) []
                (dados ++ zeros (Z.of_nat (length gt)))) as H.
  simpl in H. rewrite H.
  - simpl. unfold slice_from, remainder.
    assert (0 < length gt)%nat by (destruct gt; [contradiction|simpl; lia]).
    destruct (Z.ltb_spec (- Z.of_nat (length gt)) 0); [|lia].
    rewrite divided_length, length_app, zeros_length.
    rewrite Z.opp_involutive, !Nat2Z.id.
    now rewrite Nat.add_sub.
  - rewrite length_app, zeros_length, Nat2Z.id. lia.
Qed.

Lemma divided_nil : forall k l, divided [] k l = l.
Proof.
  induction k as [|k IH]; intros [|c rest]; simpl; try reflexivity.
  rewrite xor_front_nil. destruct (Ascii.eqb c "1"); now rewrite IH.
Qed.

Lemma division_loop_single g0 dados :
  division_loop [g0] 0 (seq 0 (length dados)) dados = Ok dados.
Proof.
  pose proof (division_loop_spec g0 [] (length dados) [] dados) as H.
  simpl in H. rewrite H by lia. now rewrite divided_nil.
Qed.

(** ** The remainder *)

Lemma remainder_0 gt l : remainder gt 0 l = l.
Proof. unfold remainder. now destruct l. Qed.

Lemma remainder_S gt k c rest :
  remainder gt (S k) (c :: rest)
  = remainder gt k (if Ascii.eqb c "1" then xor_front rest gt else rest).
Proof. reflexivity. Qed.

Lemma remainder_nil gt k : remainder gt k [] = [].
Proof. unfold remainder. now destruct k. Qed.

Lemma remainder_length gt k l :
  length (remainder gt k l) = (length l - k)%nat.
Proof. unfold remainder. now rewrite length_skipn, divided_length. Qed.

Lemma skipn_binary s : forall j, binary s -> binary (skipn j s).
Proof.
  induction s as [|c s IH]; intros [|j] H; simpl; auto.
  inversion H; subst. now apply IH.
Qed.

(** Where [l] is binary from position [j] on, so is [l] with [g] xor-ed
    into its front. *)
Lemma xor_front_binary_from l : forall g j,
  binary (skipn j l) -> binary (skipn j (xor_front l g)).
Proof.
  induction l as [|x l IH]; intros [|y g] j H; simpl; try exact H.
  destruct j as [|j]; simpl in *.
  - inversion H; subst. constructor; [apply xor_char_binary|].
    now apply (IH g 0%nat).
  - now apply IH.
Qed.

Lemma remainder_binary_from gt : forall k l,
  binary (skipn k l) -> binary (remainder gt k l).
Proof.
  induction k as [|k IH]; intros l H.
  - now rewrite remainder_0.
  - destruct l as [|c rest]; [rewrite remainder_nil; constructor|].
    rewrite remainder_S. apply IH. simpl in H.
    destruct (Ascii.eqb c "1"); [|exact H].
    now apply xor_front_binary_from.
Qed.

Lemma zeros_binary r : binary (zeros r).
Proof.
  unfold zeros. induction (Z.to_nat r); simpl; constructor; auto.
Qed.

Lemma binary_app a b : binary a -> binary b -> binary (a ++ b).
Proof. intros Ha Hb. apply Forall_app. now split. Qed.

Lemma xor_front_binary l : forall g, binary l -> binary (xor_front l g).
Proof.
  intros g H. apply (xor_front_binary_from l g 0%nat). exact H.
Qed.

(** ** The algebra of xor on binary texts *)

Ltac bin_cases :=
  repeat match goal with
         | H : _ = "0"%char \/ _ = "1"%char |- _ => destruct H; subst
         end.

Lemma xor_front_comm3 a : forall b g,
  binary a -> binary b -> binary g -> length a = length b ->
  xor_front (xor_front a b) g = xor_front (xor_front a g) b.
Proof.
  induction a as [|x a IH]; intros [|y b] g Ha Hb Hg Hl; simpl in *;
    try discriminate; [now destruct g|].
  destruct g as [|z g]; simpl; [reflexivity|].
  inversion Ha; inversion Hb; inversion Hg; subst.
  f_equal; [bin_cases; reflexivity|]. apply IH; auto.
Qed.

Lemma xor_front_assoc3 a : forall b g,
  binary a -> binary b -> binary g -> length a = length b ->
  xor_front (xor_front a b) g = xor_front a (xor_front b g).
Proof.
  induction a as [|x a IH]; intros [|y b] g Ha Hb Hg Hl; simpl in *;
    try discriminate; [now destruct g|].
  destruct g as [|z g]; simpl; [reflexivity|].
  inversion Ha; inversion Hb; inversion Hg; subst.
  f_equal; [bin_cases; reflexivity|]. apply IH; auto.
Qed.

Lemma xor_front_cancel a : forall b g,
  binary a -> binary b -> binary g -> length a = length b ->
  xor_front (xor_front a g) (xor_front b g) = xor_front a b.
Proof.
  induction a as [|x a IH]; intros [|y b] g Ha Hb Hg Hl; simpl in *;
    try discriminate; [reflexivity|].
  destruct g as [|z g]; simpl; [reflexivity|].
  inversion Ha; inversion Hb; inversion Hg; subst.
  f_equal; [bin_cases; reflexivity|]. apply IH; auto.
Qed.

Lemma xor_front_self a : binary a ->
  xor_front a a = zeros (Z.of_nat (length a)).
Proof.
  unfold zeros. rewrite Nat2Z.id.
  induction 1 as [|x a Hx Ha IH]; simpl; [reflexivity|].
  rewrite IH. f_equal. unfold xor_char. now rewrite Ascii.eqb_refl.
Qed.

Lemma xor_front_zeros_r a n :
  binary a -> xor_front a (repeat "0"%char n) = a.
Proof.
  intros Ha. revert n. induction Ha as [|x a Hx Ha IH]; intros [|n]; simpl;
    try reflexivity.
  rewrite IH. f_equal. destruct Hx; subst; reflexivity.
Qed.

Lemma xor_front_zeros_l a n :
  binary a -> n = length a -> xor_front (repeat "0"%char n) a = a.
Proof.
  intros Ha ->. induction Ha as [|x a Hx Ha IH]; simpl; [reflexivity|].
  rewrite IH. f_equal. destruct Hx; subst; reflexivity.
Qed.

Lemma xor_front_app2 a : forall b c d,
  length a = length b ->
  xor_front (a ++ c) (b ++ d) = xor_front a b ++ xor_front c d.
Proof.
  induction a as [|x a IH]; intros [|y b] c d H; simpl in *;
    try discriminate; [reflexivity|].
  f_equal. apply IH. lia.
Qed.

(** The remainder of a xor is the xor of the remainders. *)
Lemma remainder_linear gt : binary gt -> forall k a b,
  binary a -> binary b -> length a = length b ->
  remainder gt k (xor_front a b)
  = xor_front (remainder gt k a) (remainder gt k b).
Proof.
  intros Hg. induction k as [|k IH]; intros a b Ha Hb Hl.
  - now rewrite !remainder_0.
  - destruct a as [|x a], b as [|y b]; try discriminate.
    + now rewrite !remainder_nil.
    + inversion Ha as [|? ? Hx Ha']; inversion Hb as [|? ? Hy Hb']; subst.
      simpl in Hl. apply Nat.succ_inj in Hl.
      cbn [xor_front]. rewrite !remainder_S.
      destruct Hx, Hy; subst; cbn [xor_char Ascii.eqb Bool.eqb andb].
      * apply IH; auto.
      * rewrite <- IH; auto using xor_front_binary.
        -- f_equal. apply xor_front_assoc3; auto.
        -- now rewrite xor_front_length.
      * rewrite <- IH; auto using xor_front_binary.
        -- f_equal. apply xor_front_comm3; auto.
        -- now rewrite xor_front_length.
      * rewrite <- IH; auto using xor_front_binary.
        -- f_equal. symmetry. apply xor_front_cancel; auto.
        -- now rewrite !xor_front_length.
Qed.

Lemma remainder_app gt : forall k l t,
  (k + length gt <= length l)%nat ->
  remainder gt k (l ++ t) = remainder gt k l ++ t.
Proof.
  induction k as [|k IH]; intros l t H.
  - now rewrite !remainder_0.
  - destruct l as [|c rest]; simpl in H; [lia|].
    simpl app. rewrite !remainder_S.
    destruct (Ascii.eqb c "1").
    + rewrite xor_front_app by lia. apply IH.
      rewrite xor_front_length. lia.
    + apply IH. lia.
Qed.

Lemma remainder_zeros gt : forall k c,
  remainder gt k (repeat "0"%char k ++ c) = c.
Proof.
  induction k as [|k IH]; intros c.
  - now rewrite remainder_0.
  - simpl repeat. simpl app. rewrite remainder_S. simpl. apply IH.
Qed.

Lemma remainder_add gt : forall j k l,
  remainder gt (j + k) l = remainder gt k (remainder gt j l).
Proof.
  induction j as [|j IH]; intros k l.
  - now rewrite remainder_0.
  - destruct l as [|c rest].
    + now rewrite !remainder_nil.
    + simpl Nat.add. rewrite !remainder_S. apply IH.
Qed.

(** The remainder of the data followed by their remainder is zero. *)
Lemma remainder_check gt dados :
  binary gt -> binary dados ->
  let r := length gt in
  let n := length dados in
  let crc := remainder gt n (dados ++ repeat "0"%char r) in
  remainder gt (n + r) ((dados ++ crc) ++ repeat "0"%char r)
  = repeat "0"%char r.
Proof.
  intros Hg Hd r n crc.
  assert (Hzb : forall k, binary (repeat "0"%char k)).
  { induction k; simpl; constructor; auto. }
  assert (Hcl : length crc = r).
  { unfold crc. rewrite remainder_length, length_app, repeat_length. lia. }
  assert (Hcb : binary crc).
  { unfold crc. apply remainder_binary_from. apply skipn_binary.
    apply binary_app; auto. }
  rewrite remainder_add, remainder_app
    by (rewrite length_app; unfold n, r in *; lia).
  assert (E : dados ++ crc
              = xor_front (dados ++ repeat "0"%char r)
                          (repeat "0"%char n ++ crc)).
  { rewrite xor_front_app2 by (now rewrite repeat_length).
    rewrite xor_front_zeros_r by exact Hd.
    rewrite xor_front_zeros_l; auto. }
  rewrite E, remainder_linear; auto.
  - rewrite remainder_zeros. fold crc.
    rewrite xor_front_self by exact Hcb.
    unfold zeros. rewrite Nat2Z.id, Hcl.
    apply (remainder_zeros gt r (repeat "0"%char r)).
  - apply binary_app; auto.
  - apply binary_app; auto.
  - rewrite !length_app, !repeat_length. lia.
Qed.

Lemma xor_front_involutive a : forall b,
  binary a -> binary b -> (length a <= length b)%nat ->
  xor_front (xor_front a b) b = a.
Proof.
  induction a as [|x a IH]; intros [|y b] Ha Hb Hl; simpl in *;
    try reflexivity; try lia.
  inversion Ha; inversion Hb; subst.
  f_equal; [bin_cases; reflexivity|]. apply IH; auto. lia.
Qed.

(** The function on a generator of two characters or more. *)
Lemma calcular_crc_manual_ok dados g :
  (2 <= length g)%nat ->
  exists g0 gt,
    g = g0 :: gt /\ length gt = (length g - 1)%nat /\ (0 < length gt)%nat /\
    zeros (Z.of_nat (length g) - 1) = repeat "0"%char (length gt) /\
    calcular_crc_manual dados g
    = Ok (remainder gt (length dados) (dados ++ repeat "0"%char (length gt))).
Proof.
  intros H. destruct g as [|g0 gt]; simpl in H; [lia|].
  exists g0, gt. split; [reflexivity|]. simpl length.
  split; [lia|]. split; [lia|].
  assert (Ez : zeros (Z.of_nat (S (length gt)) - 1)
               = repeat "0"%char (length gt)).
  { unfold zeros. f_equal. lia. }
  split; [exact Ez|].
  rewrite calcular_crc_manual_spec by (destruct gt; [simpl in H; lia|easy]).
  unfold zeros. now rewrite Nat2Z.id.
Qed.

End CrcFacts.

(* ================================================================== *)
(** * CRC-16/MODBUS, byte by byte *)
(* ================================================================== *)

Module Crc16Facts.
Import IpSpec IpFacts CrcSpec BenchmarkCrc.

Lemma byte_value_range b : 0 <= byte_value b < 256.
Proof.
  unfold byte_value. pose proof (Byte.to_N_bounded b). lia.
Qed.

Lemma lxor_range a b n :
  0 <= n -> 0 <= a < 2 ^ n -> 0 <= b < 2 ^ n -> 0 <= Z.lxor a b < 2 ^ n.
Proof.
  intros Hn Ha Hb.
  assert (H0 : 0 <= Z.lxor a b) by (apply Z.lxor_nonneg; lia).
  split; [exact H0|].
  destruct (Z.eq_dec (Z.lxor a b) 0) as [E|N].
  - rewrite E. apply Z.pow_pos_nonneg; lia.
  - assert (Hn0 : 0 < n).
    { destruct (Z.eq_dec n 0) as [->|]; [|lia].
      change (2 ^ 0) with 1 in *.
      assert (a = 0) by lia. assert (b = 0) by lia. subst.
      now contradiction N. }
    apply Z.log2_lt_pow2; [lia|].
    pose proof (Z.log2_lxor a b ltac:(lia) ltac:(lia)) as Hl.
    assert (Z.log2 a < n).
    { destruct (Z.eq_dec a 0) as [->|]; [simpl; lia|].
      apply Z.log2_lt_pow2; lia. }
    assert (Z.log2 b < n).
    { destruct (Z.eq_dec b 0) as [->|]; [simpl; lia|].
      apply Z.log2_lt_pow2; lia. }
    lia.
Qed.

Lemma bit_loop_range : forall turns crc,
  0 <= crc < 2 ^ 16 -> 0 <= bit_loop turns crc < 2 ^ 16.
Proof.
  induction turns as [|turns IH]; intros crc H; simpl; [exact H|].
  apply IH.
  assert (Hs : 0 <= Z.shiftr crc 1 < 2 ^ 16).
  { rewrite Z.shiftr_div_pow2 by lia. change (2 ^ 1) with 2.
    split; [apply Z.div_pos; lia|].
    apply Z.div_lt_upper_bound; lia. }
  destruct (negb (Z.land crc 1 =? 0)); [|exact Hs].
  apply lxor_range; [lia | exact Hs | lia].
Qed.

Lemma crc16_loop_range : forall data crc,
  0 <= crc < 2 ^ 16 -> 0 <= crc16_loop data crc < 2 ^ 16.
Proof.
  induction data as [|byte data IH]; intros crc H; cbn [crc16_loop];
    [exact H|].
  apply IH, bit_loop_range, lxor_range; [lia | exact H |].
  pose proof (byte_value_range byte). lia.
Qed.

Lemma crc16_loop_app : forall data more crc,
  crc16_loop (data ++ more) crc = crc16_loop more (crc16_loop data crc).
Proof.
  induction data as [|byte data IH]; intros more crc;
    cbn [crc16_loop app]; [reflexivity|].
  apply IH.
Qed.

Lemma land_1_even x : (Z.land (2 * x) 1 =? 0) = true.
Proof.
  apply Z.eqb_eq. change 1 with (Z.ones 1). rewrite Z.land_ones by lia.
  change (2 ^ 1) with 2. rewrite Z.mul_comm. apply Z.mod_mul. lia.
Qed.

Lemma shiftr_1_double x : Z.shiftr (2 * x) 1 = x.
Proof.
  rewrite Z.shiftr_div_pow2 by lia. change (2 ^ 1) with 2.
  rewrite Z.mul_comm. apply Z.div_mul. lia.
Qed.

(** On a multiple of [2 ^ k] the first [k] turns only shift. *)
Lemma bit_loop_shift : forall k h,
  bit_loop k (2 ^ Z.of_nat k * h) = h.
Proof.
  induction k as [|k IH]; intros h.
  - change (2 ^ Z.of_nat 0) with 1. rewrite Z.mul_1_l. reflexivity.
  - rewrite Nat2Z.inj_succ, Z.pow_succ_r, <- Z.mul_assoc by lia.
    cbn [bit_loop]. rewrite land_1_even, shiftr_1_double. cbn [negb].
    apply IH.
Qed.

Lemma lxor_low_bits crc k :
  0 <= k -> Z.lxor crc (crc mod 2 ^ k) = 2 ^ k * (crc / 2 ^ k).
Proof.
  intros Hk.
  assert (Hp : 0 < 2 ^ k) by (apply Z.pow_pos_nonneg; lia).
  assert (Hd : Z.land (2 ^ k * (crc / 2 ^ k)) (crc mod 2 ^ k) = 0).
  { apply Z.bits_inj'. intros n Hn. rewrite Z.land_spec, Z.bits_0.
    destruct (Z_lt_le_dec n k) as [Hlt|Hge].
    - rewrite Z.mul_comm, <- Z.shiftl_mul_pow2 by lia.
      rewrite Z.shiftl_spec_low by lia. reflexivity.
    - rewrite (Z.mod_pow2_bits_high crc k n) by lia.
      apply andb_false_r. }
  rewrite (Z.div_mod crc (2 ^ k)) at 1 by lia.
  rewrite (Z.add_nocarry_lxor _ _ Hd).
  rewrite Z.lxor_assoc, Z.lxor_nilpotent, Z.lxor_0_r. reflexivity.
Qed.

(** Xor-ing the low byte of a value into it and shifting eight times
    leaves what is above that byte. *)
Lemma bit_loop_low_byte crc :
  bit_loop 8 (Z.lxor crc (crc mod 256)) = crc / 256.
Proof.
  change 256 with (2 ^ 8). rewrite lxor_low_bits by lia.
  apply (bit_loop_shift 8).
Qed.

Lemma bit_loop_zero : forall k, bit_loop k 0 = 0.
Proof.
  induction k as [|k IH]; [reflexivity|]. cbn [bit_loop].
  change (Z.land 0 1 =? 0) with true. cbn [negb].
  change (Z.shiftr 0 1) with 0. exact IH.
Qed.

(** Every value from 0 to 255 is the value of a byte. *)
Lemma byte_value_exists v : 0 <= v < 256 -> exists b, byte_value b = v.
Proof.
  intros Hv. destruct (Byte.of_N (Z.to_N v)) as [b|] eqn:E.
  - exists b. unfold byte_value. rewrite (Byte.to_of_N _ E). lia.
  - apply Byte.of_N_None_iff in E. lia.
Qed.

(** The two bytes of a 16-bit value. *)
Lemma low_high_exists crc :
  0 <= crc < 2 ^ 16 -> exists lo hi, low_high crc lo hi.
Proof.
  intros Hc. change (2 ^ 16) with 65536 in Hc.
  destruct (byte_value_exists (crc mod 256)) as (lo & Hlo).
  { apply Z.mod_pos_bound. lia. }
  destruct (byte_value_exists (crc / 256)) as (hi & Hhi).
  { split; [apply Z.div_pos; lia | apply Z.div_lt_upper_bound; lia]. }
  exists lo, hi. split; assumption.
Qed.

End Crc16Facts.

(* ================================================================== *)
(** * The properties of the specification *)
(* ================================================================== *)

Import PyDict PyDictFacts Json Ipaddress Roteador RelaxSpec RelaxFacts.
Import IpSpec SummarizeSpec Exemplos.
Import IpFacts IpParseFacts RangeFacts CollapseFacts SummarizeFacts.
Import VersionFacts.

(** ** The update endpoint *)

(** C1.  A well-formed advertisement of a neighbor (a non-empty sender that
    is a key of [neighbors], a mapping of routes whose costs are integers,
    [INFINITY] standing for an absent cost) is accepted, and for every route
    [(prefix, info)] in it, with
    [candidate_cost = min (link cost + info.cost) INFINITY] and
    [INFINITY = 16]: a prefix absent from the table is inserted with the
    candidate cost and the sender as next hop; a strictly smaller candidate
    replaces the entry; otherwise, if the next hop of the entry is the
    sender, the cost is overwritten with the candidate, equal or worse; in
    every other case the entry stays as it was.  Destinations the
    advertisement does not name are untouched. *)
Theorem C1_receive_update_relaxes :
  forall (r : Router) (o : PyDict.dict string json) (sender : string)
         (items : PyDict.dict string json) (custo_link : Z),
    PyDict.get string_dec o "sender_address" = Some (JStr sender) ->
    sender <> "" ->
    PyDict.get string_dec o "routing_table" = Some (JObj items) ->
    PyDict.wf items ->
    (forall p i, In (p, i) items -> exists c, info_cost i = Some c) ->
    PyDict.get string_dec (neighbors r) sender = Some custo_link ->
    INFINITY = 16 /\
    exists t' : table,
      receive_update r (JObj o) = (Ok success, with_table r t') /\
      (forall prefix info c,
          In (prefix, info) items -> info_cost info = Some c ->
          let candidate_cost := Z.min (custo_link + c) INFINITY in
          let T := routing_table r in
          (tget T prefix = None ->
           tget t' prefix = Some (mkEntry candidate_cost sender)) /\
          (forall cur, tget T prefix = Some cur ->
             candidate_cost < cost cur ->
             tget t' prefix = Some (mkEntry candidate_cost sender)) /\
          (forall cur, tget T prefix = Some cur ->
             cost cur <= candidate_cost -> next_hop cur = sender ->
             tget t' prefix = Some (mkEntry candidate_cost sender)) /\
          (forall cur, tget T prefix = Some cur ->
             cost cur <= candidate_cost -> next_hop cur <> sender ->
             tget t' prefix = Some cur)) /\
      (forall k, ~ In k (PyDict.keys items) ->
                 tget t' k = tget (routing_table r) k).
Proof.
  intros r o sender items custo_link Hs Hne Ht Hwf Hval Hn.
  split; [reflexivity|].
  rewrite (receive_update_neighbor r o sender items custo_link Hs Hne Ht Hn).
  destruct (merge_routes_valid custo_link sender items (routing_table r) Hwf Hval)
    as [Hnone Hrel].
  pose proof (merge_routes_frame custo_link sender items (routing_table r)) as Hfr.
  destruct (merge_routes custo_link sender items (routing_table r)) as [t' oe].
  simpl in Hnone, Hrel, Hfr. subst oe.
  exists t'. split; [reflexivity|]. split; [|exact Hfr].
  intros prefix info c Hin Hc candidate_cost T.
  specialize (Hrel prefix info c Hin Hc). fold candidate_cost in Hrel.
  fold T in Hrel. rewrite Hrel. unfold relaxed.
  repeat split.
  - intros ->. reflexivity.
  - intros cur -> Hlt. destruct (Z.ltb_spec candidate_cost (cost cur)); [reflexivity|lia].
  - intros cur -> Hle Hnh. destruct (Z.ltb_spec candidate_cost (cost cur)); [lia|].
    destruct (String.eqb_spec (next_hop cur) sender); [|contradiction].
    now rewrite Hnh.
  - intros cur -> Hle Hnh. destruct (Z.ltb_spec candidate_cost (cost cur)); [lia|].
    destruct (String.eqb_spec (next_hop cur) sender); [contradiction|reflexivity].
Qed.

(** C6.  An advertisement (a non-empty sender address and a mapping of
    routes) whose sender is not a key of [neighbors] leaves the router, and
    so its routing table, exactly as it was, and is answered
    [{"status": "ignored"}] with status 200. *)
Theorem C6_unknown_sender_ignored :
  forall (r : Router) (o : PyDict.dict string json) (sender : string)
         (items : PyDict.dict string json),
    PyDict.get string_dec o "sender_address" = Some (JStr sender) ->
    sender <> "" ->
    PyDict.get string_dec o "routing_table" = Some (JObj items) ->
    PyDict.get string_dec (neighbors r) sender = None ->
    receive_update r (JObj o)
    = (Ok (mkResponse (JObj [("status", JStr "ignored")]) 200), r).
Proof.
  intros r o sender items Hs Hne Ht Hn. unfold receive_update.
  assert (truthy (JObj o) = true) as ->.
  { destruct o; [discriminate | reflexivity]. }
  simpl. rewrite Hs, Ht. simpl.
  destruct (String.eqb_spec sender ""); [contradiction|]. simpl.
  now rewrite Hn.
Qed.

(** A JSON object that lacks a sender address (no such key, [null], or an
    empty string) or whose routing table is not a mapping is answered with
    status 400, the router unchanged. *)
Lemma receive_update_rejects_malformed_object :
  forall (r : Router) (o : PyDict.dict string json),
    (match PyDict.get string_dec o "sender_address" with
     | None | Some JNull | Some (JStr "") => True
     | _ => False
     end
     \/ match PyDict.get string_dec o "routing_table" with
        | Some (JObj _) => False
        | _ => True
        end) ->
    exists resp, receive_update r (JObj o) = (Ok resp, r) /\ status resp = 400.
Proof.
  intros r o H. unfold receive_update.
  destruct o as [|kv o'].
  - simpl. eexists. split; reflexivity.
  - set (oo := kv :: o') in *.
    change (truthy (JObj oo)) with true. simpl negb. cbv iota.
    unfold py_get.
    destruct (PyDict.get string_dec oo "sender_address") as [sa|] eqn:Es;
    destruct (PyDict.get string_dec oo "routing_table") as [st|] eqn:Et.
    all: destruct H as [H|H].
    all: try (destruct sa as [| | |[|]| |]; try contradiction).
    all: try (destruct st as [| | | | |]; try contradiction).
    all: try (eexists; split; reflexivity).
    all: destruct (negb (truthy _) || negb (is_dict _)) eqn:E;
      try (eexists; split; reflexivity); simpl in E;
      rewrite ?orb_true_r, ?orb_false_r in E; try discriminate.
Qed.

(** No request that fails the checks of lines 212-220, whatever its
    shape, changes the router. *)
Lemma receive_update_error_keeps_router :
  forall (r : Router) (request : json) (resp : response),
    fst (receive_update r request) = Ok resp -> status resp = 400 ->
    snd (receive_update r request) = r.
Proof.
  intros r request resp. unfold receive_update.
  destruct (negb (truthy request)); [reflexivity|].
  destruct (py_get request "sender_address") as [sa|]; [|reflexivity].
  destruct (py_get request "routing_table") as [st|]; [|reflexivity].
  destruct (negb (truthy sa) || negb (is_dict st)); [reflexivity|].
  destruct sa as [| | |sender| |]; destruct st as [| | | | |items];
    try reflexivity.
  destruct (PyDict.get string_dec (neighbors r) sender); [|reflexivity].
  destruct (merge_routes _ _ _ _) as [t [e|]]; simpl.
  - discriminate.
  - intros [= <-]. discriminate.
Qed.

(** A body that is JSON but no object, and not falsy (a non-empty array or
    string, a number other than 0, [true]), passes the check of line 212
    and makes [update_data.get] raise; the router is unchanged. *)
Lemma receive_update_non_object_raises :
  forall (r : Router) (request : json),
    truthy request = true -> is_dict request = false ->
    receive_update r request = (Raise AttributeError, r).
Proof.
  intros r request Ht Hd. unfold receive_update. rewrite Ht.
  destruct request; try discriminate; reflexivity.
Qed.

(** C7, at the payload [[1]].  A body that is a JSON array has no sender
    address; [request.json] is then a non-empty list, the check of line 212
    lets it pass, and [update_data.get] raises [AttributeError]: the
    endpoint does not answer 400.  The router is unchanged. *)
Theorem C7_array_payload_raises :
  forall r : Router,
    receive_update r (JArr [JNum 1]) = (Raise AttributeError, r).
Proof. intros r. reflexivity. Qed.

(** ** Construction *)




(** C10, amended.  Construction validates nothing and cannot fail: for
    every string given as administered network, well formed or not, the
    node is built with that string as [my_network] and as a key of its
    routing table. *)
Theorem C10_bootstrap_accepts_any_network :
  forall (my_address : string) (neighbors : PyDict.dict string Z)
         (my_network : string) (update_interval : Z),
    let r := __init__ my_address neighbors my_network update_interval in
    Roteador.my_network r = my_network /\
    In my_network (PyDict.keys (routing_table r)).
Proof.
  intros my_address neighbors my_network update_interval r.
  split; [reflexivity|].
  unfold r, __init__. simpl routing_table.
  apply add_neighbor_routes_keeps. simpl. now left.
Qed.

(** C10 as stated fails: ["rede-invalida"] is no CIDR network, yet the node
    is constructed with it, and routes to it at cost 0. *)
Lemma C10_malformed_network_accepted :
  let r := __init__ "127.0.0.1:5000" [("127.0.0.1:5001", 1)] "rede-invalida" 1 in
  ip_network "rede-invalida" = ValueError /\
  my_network r = "rede-invalida" /\
  tget (routing_table r) "rede-invalida" = Some (mkEntry 0 "127.0.0.1:5000").
Proof. repeat split; reflexivity. Qed.

(** ** Relaxation over time *)

(** C9, amended.  Along any sequence of requests whose routes are
    dictionaries: (a) over each request a destination's stored cost does not
    rise, unless the request comes from that destination's next hop; (b)
    every stored cost is at most [INFINITY = 16], except in an entry that is
    still the one the sequence started from. *)
Theorem C9_relaxation_monotone_and_capped :
  forall (r0 : Router) (requests : list json),
    Forall routes_wf requests ->
    (forall pre q post, requests = pre ++ q :: post ->
       let r := receive_all r0 pre in
       let r' := snd (receive_update r q) in
       forall k e, tget (routing_table r) k = Some e ->
         exists e', tget (routing_table r') k = Some e' /\
                    (cost e' <= cost e \/ sender_of q = Some (next_hop e))) /\
    (forall k e,
        tget (routing_table (receive_all r0 requests)) k = Some e ->
        cost e <= 16 \/ tget (routing_table r0) k = Some e).
Proof.
  intros r0 requests Hwf. split.
  - intros pre q post -> r r' k e Hk.
    apply receive_update_monotone; [|exact Hk].
    rewrite Forall_forall in Hwf. apply Hwf.
    rewrite in_app_iff. right. now left.
  - intros k e H. apply receive_all_capped in H. exact H.
Qed.

Lemma exemplo_anuncio_wf : routes_wf exemplo_anuncio.
Proof.
  intros items H. vm_compute in H. inversion H; subst.
  unfold PyDict.wf. simpl. repeat constructor; simpl; intuition discriminate.
Qed.

Lemma C9_relaxation_monotone_and_capped_witness :
  let r0 := __init__ "127.0.0.1:5000" [(exemplo_vizinho, 1)] "10.0.1.0/24" 1 in
  let r1 := receive_all r0 [exemplo_anuncio] in
  let r2 := receive_all r0 [exemplo_anuncio; exemplo_anuncio] in
  (exists e', tget (routing_table r2) "10.0.2.0/24" = Some e' /\
              (cost e' <= 4 \/ sender_of exemplo_anuncio = Some exemplo_vizinho)) /\
  (4 <= 16 \/
   tget (routing_table r0) "10.0.2.0/24" = Some (mkEntry 4 exemplo_vizinho)).
Proof.
  intros r0 r1 r2.
  assert (Forall routes_wf [exemplo_anuncio; exemplo_anuncio]) as Hwf
    by (repeat constructor; apply exemplo_anuncio_wf).
  destruct (C9_relaxation_monotone_and_capped r0
              [exemplo_anuncio; exemplo_anuncio] Hwf) as [Hstep Hcap].
  split.
  - exact (Hstep [exemplo_anuncio] exemplo_anuncio [] eq_refl
                 "10.0.2.0/24" (mkEntry 4 exemplo_vizinho) eq_refl).
  - exact (Hcap "10.0.2.0/24" (mkEntry 4 exemplo_vizinho) eq_refl).
Defined.

(** C9 as stated fails on its last part: with a configured link cost of
    20 (an integer, not negative) the table holds the cost 20 from
    construction on, before and after any merge. *)
Lemma C9_stored_cost_above_infinity :
  let r0 := __init__ "127.0.0.1:5000" [(exemplo_vizinho, 20)] "10.0.1.0/24" 1 in
  let r1 := receive_all r0 [exemplo_anuncio] in
  (forall n c, In (n, c) (neighbors r0) -> 0 <= c) /\
  (forall items p i, routes_of exemplo_anuncio = Some items -> In (p, i) items ->
                     exists c, info_cost i = Some c /\ 0 <= c) /\
  fst (receive_update r0 exemplo_anuncio) = Ok success /\
  tget (routing_table r1) exemplo_vizinho = Some (mkEntry 20 exemplo_vizinho) /\
  ~ (forall k e, tget (routing_table r1) k = Some e -> cost e <= INFINITY).
Proof.
  intros r0 r1. split; [|split; [|split; [|split]]].
  - intros n c [E|[]]. inversion E. lia.
  - intros items p i H Hin. vm_compute in H. apply Some_eq in H. subst items.
    destruct Hin as [E|[]]. inversion E; subst. exists 3. split; [reflexivity | lia].
  - reflexivity.
  - reflexivity.
  - intros H. specialize (H exemplo_vizinho (mkEntry 20 exemplo_vizinho) eq_refl).
    vm_compute in H. apply H. reflexivity.
Qed.

(** ** Witnesses of C1 and C6 *)

Lemma C1_receive_update_relaxes_witness :
  let r0 := __init__ "127.0.0.1:5000" [(exemplo_vizinho, 1)] "10.0.1.0/24" 1 in
  exists t',
    receive_update r0 exemplo_anuncio = (Ok success, with_table r0 t') /\
    tget t' "10.0.2.0/24" = Some (mkEntry 4 exemplo_vizinho).
Proof.
  intros r0.
  destruct (C1_receive_update_relaxes r0
              [("sender_address", JStr exemplo_vizinho);
               ("routing_table",
                JObj [("10.0.2.0/24",
                       JObj [("cost", JNum 3); ("next_hop", JStr exemplo_vizinho)])])]
              exemplo_vizinho
              [("10.0.2.0/24",
                JObj [("cost", JNum 3); ("next_hop", JStr exemplo_vizinho)])]
              1)
    as [_ (t' & Hrun & Hrel & _)].
  - reflexivity.
  - discriminate.
  - reflexivity.
  - unfold PyDict.wf. simpl. repeat constructor; simpl; intuition discriminate.
  - intros p i [E|[]]. inversion E; subst. exists 3. reflexivity.
  - reflexivity.
  - exists t'. split; [exact Hrun|].
    destruct (Hrel "10.0.2.0/24"
                (JObj [("cost", JNum 3); ("next_hop", JStr exemplo_vizinho)]) 3
                (or_introl eq_refl) eq_refl) as [Habs _].
    apply Habs. reflexivity.
Defined.

Lemma C6_unknown_sender_ignored_witness :
  let r0 := __init__ "127.0.0.1:5000" [("127.0.0.1:5002", 1)] "10.0.1.0/24" 1 in
  receive_update r0 exemplo_anuncio
  = (Ok (mkResponse (JObj [("status", JStr "ignored")]) 200), r0).
Proof.
  intros r0.
  refine (C6_unknown_sender_ignored r0 _ exemplo_vizinho _ _ _ _ _).
  - reflexivity.
  - discriminate.
  - reflexivity.
  - reflexivity.
Defined.

(** ** The summarizer *)

(** C3.  On every table none of whose keys has two colons or more (IPv6
    is no goal of the specification, and an IPv6 text has two colons at
    least), [summarize_table] returns, and: the addresses its result
    covers are the addresses the table covers (keys that are no networks
    cover none); the result has no more entries than the table; and when
    the networks of the table are pairwise disjoint and not adjacent, the
    networks of the result are the networks of the table. *)
Theorem C3_summarize_table_sound :
  forall t : table,
    no_ipv6 t ->
    exists out,
      summarize_table t = Some out /\
      (forall a, covered (prefixes out) a <-> covered (prefixes t) a) /\
      (length out <= length t)%nat /\
      (ForallOrdPairs (fun n m => disjoint n m /\ ~ adjacent n m) (prefixes t) ->
       forall n, In n (prefixes out) <-> In n (prefixes t)).
Proof.
  intros t H6. rewrite (summarize_table_no_ipv6 t H6).
  destruct (summary_of_spec t)
    as (summarized & out & Ecol & Erun & Sv & Hkeys & Hpre & _ & Hlen).
  destruct (redes_obj_spec t) as (W & Hset & V & L).
  destruct (collapse_spec _ V) as (summarized' & Ecol' & _ & Sc & Sl & _).
  rewrite Ecol in Ecol'. apply Some_eq in Ecol'. subst summarized'.
  exists out. split; [exact Erun|]. split; [|split].
  - intros a. unfold covered.
    setoid_rewrite Hpre. fold (covered summarized a). rewrite Sc.
    unfold covered. setoid_rewrite Hset. reflexivity.
  - unfold PyDict.keys in Sl. rewrite length_map in Sl. lia.
  - intros Hpairs n. rewrite Hpre.
    destruct (collapse_apart (PyDict.keys (redes_obj_of t []))) as (out' & E & Hin).
    + exact V.
    + exact W.
    + intros x y Hx Hy Hne. apply Hset in Hx, Hy.
      destruct (ForallOrdPairs_In Hpairs x y Hx Hy) as [E|[H|[Hd Ha]]];
        [contradiction | exact H |].
      unfold disjoint, adjacent in *. split; [tauto|]. tauto.
    + rewrite Ecol in E. apply Some_eq in E. subst out'.
      rewrite Hin. apply Hset.
Qed.

Lemma C3_summarize_table_sound_witness :
  let t : table := [("10.0.1.0/24", mkEntry 2 "127.0.0.1:5001");
                    ("127.0.0.1:5001", mkEntry 1 "127.0.0.1:5001");
                    ("10.0.3.0/24", mkEntry 0 "127.0.0.1:5000")] in
  no_ipv6 t /\
  exists out,
    summarize_table t = Some out /\
    forall n, In n (prefixes out) <-> In n (prefixes t).
Proof.
  intros t.
  assert (H6 : no_ipv6 t) by (apply no_ipv6_forallb; reflexivity).
  split; [exact H6|].
  destruct (C3_summarize_table_sound t H6) as (out & E & _ & _ & H).
  exists out. split; [exact E|]. apply H.
  change (prefixes t) with [mkNet 167772416 24; mkNet 167772928 24].
  repeat constructor; unfold disjoint, adjacent;
    change (broadcast_address (mkNet 167772416 24)) with 167772671;
    change (broadcast_address (mkNet 167772928 24)) with 167773183;
    cbn [network_address]; lia.
Defined.

(** C5.  When no key of the routing table has two colons or more, a key
    that is not parseable as a network ([ip_network] raises [ValueError]),
    as is every key with one colon (the neighbor addresses [ip:port] that
    construction puts in the table), is no key of the summarized table,
    and so no key of the table of any payload posted to a neighbor; the
    posts go to the neighbors, one each, in order. *)
Theorem C5_unparseable_keys_omitted :
  forall (r : Router) (k : string),
    no_ipv6 (routing_table r) ->
    ip_network k = ValueError \/ colons k = 1%nat ->
    (exists out, summarize_table (routing_table r) = Some out /\
                 tget out k = None) /\
    (exists posts,
        send_updates_to_neighbors r = Some posts /\
        map fst posts = PyDict.keys (neighbors r) /\
        forall N p, In (N, p) posts -> ~ In k (PyDict.keys (payload_table p))).
Proof.
  intros r k H6 Hk.
  assert (ip_network k = ValueError) as Hnone
    by (destruct Hk as [H|H]; [exact H | now apply ip_network_one_colon]).
  destruct (summary_of_spec (routing_table r))
    as (summarized & out & _ & Erun & Sv & Hkeys & _).
  rewrite <- (summarize_table_no_ipv6 _ H6) in Erun.
  rewrite Forall_forall in Sv.
  assert (Hni : ~ In k (PyDict.keys out)).
  { intros H. apply Hkeys in H. destruct H as (s & Hs & ->).
    rewrite ip_network_str in Hnone by (now apply Sv). discriminate. }
  split.
  - exists out. split; [exact Erun|]. unfold tget. now apply get_None_not_In.
  - destruct (send_loop_spec r (PyDict.keys (neighbors r)) out Erun)
      as (posts & E & Hf & Hp).
    exists posts. split; [exact E|]. split; [exact Hf|].
    intros N p Hin. apply Hp in Hin. subst p. simpl.
    now rewrite poison_reverse_keys.
Qed.

Lemma C5_unparseable_keys_omitted_witness :
  let r := __init__ "127.0.0.1:5000" [("127.0.0.1:5001", 1)] "10.0.1.0/24" 1 in
  no_ipv6 (routing_table r) /\
  colons "127.0.0.1:5001" = 1%nat /\
  exists out, summarize_table (routing_table r) = Some out /\
              tget (routing_table r) "127.0.0.1:5001"
              = Some (mkEntry 1 "127.0.0.1:5001") /\
              tget out "127.0.0.1:5001" = None.
Proof.
  intros r.
  assert (H6 : no_ipv6 (routing_table r)) by (apply no_ipv6_forallb; reflexivity).
  split; [exact H6|]. split; [reflexivity|].
  destruct (C5_unparseable_keys_omitted r "127.0.0.1:5001" H6 (or_intror eq_refl))
    as [(out & E & H) _].
  exists out. split; [exact E|]. split; [reflexivity | exact H].
Defined.

(** C4, at a table A reaches.  A is started with [--network 10.0.1.5/24];
    it advertises that network as 10.0.1.0/24, and B's poisoned answer
    makes it a second key of A's table.  Both keys denote 10.0.1.0/24, so
    the entry of the later key replaces the entry of the earlier one in
    [redes_obj]: the covering prefix 10.0.1.0/24 gets cost 16 and next hop
    B, though the table holds a member at cost 0, A's own network.  A then
    tells C that its own network is unreachable. *)
Theorem C4_duplicate_network_loses_minimum :
  let t := routing_table roteador_a1 in
  let n := mkNet 167772416 24 in
  ip_network "10.0.1.5/24" = IPv4 n /\
  ip_network "10.0.1.0/24" = IPv4 n /\
  tget t "10.0.1.5/24" = Some (mkEntry 0 "127.0.0.1:5000") /\
  tget t "10.0.1.0/24" = Some (mkEntry 16 "127.0.0.1:5001") /\
  (exists out, summarize_table t = Some out /\
               tget out "10.0.1.0/24" = Some (mkEntry 16 "127.0.0.1:5001")) /\
  (exists p, advertisement roteador_a1 "127.0.0.1:5002" = Some p /\
             tget (payload_table p) "10.0.1.0/24"
             = Some (mkEntry 16 "127.0.0.1:5001")).
Proof.
  repeat split; try reflexivity; eexists; split; vm_compute; reflexivity.
Qed.

(** ** Poison reverse *)




(* ================================================================== *)
(** * Further properties of the router *)
(* ================================================================== *)

Import UpdateSpec UpdateFacts MemberFacts OrderSpec OrderFacts.

(** ** The update endpoint *)

(** X1.  Whatever the request, [receive_update] drops no key of the
    routing table, adds only keys that the request names as routes, and
    keeps a table without a repeated key so. *)
Theorem X1_receive_update_only_adds_routes :
  forall (r : Router) (request : json),
    let r' := snd (receive_update r request) in
    (forall k, In k (keys (routing_table r)) ->
               In k (keys (routing_table r'))) /\
    (forall k, In k (keys (routing_table r')) ->
       In k (keys (routing_table r)) \/
       exists items, routes_of request = Some items /\ In k (keys items)) /\
    (wf (routing_table r) -> wf (routing_table r')).
Proof.
  intros r request r'. subst r'.
  destruct (receive_update_cases r request)
    as [(reply & H)|(sender & cl & items & _ & Hi & _ & H)];
    rewrite (H r eq_refl).
  - simpl. repeat split; auto.
  - rewrite merged_snd. cbn [fst routing_table with_table].
    split; [|split].
    + intros k. apply merge_routes_keys.
    + intros k Hk. apply merge_routes_keys in Hk. destruct Hk as [Hk|Hk].
      * now left.
      * right. now exists items.
    + apply merge_routes_wf.
Qed.

(** X2.  Delivering the same request a second time changes nothing more:
    the reply is the same, and the router is the one the first delivery
    left.  The routes of the request are a dictionary (no key twice). *)
Theorem X2_repeated_update_changes_nothing :
  forall (r : Router) (request : json),
    routes_wf request ->
    receive_update (snd (receive_update r request)) request
    = receive_update r request.
Proof.
  intros r request Hwf.
  destruct (receive_update_cases r request)
    as [(reply & H)|(sender & cl & items & _ & Hi & _ & H)].
  - rewrite (H r eq_refl). simpl. now rewrite (H r eq_refl).
  - rewrite (H r eq_refl), merged_snd.
    rewrite (H (with_table r _)) by reflexivity.
    rewrite with_table_table.
    set (m := merge_routes cl sender items (routing_table r)).
    set (m' := merge_routes cl sender items (fst m)).
    assert (E1 : fst m' = fst m)
      by (apply merge_routes_idem; now apply Hwf).
    assert (E2 : snd m' = snd m) by apply merge_routes_snd.
    destruct m as [t e], m' as [t' e']. simpl in E1, E2. subst t' e'.
    destruct e; reflexivity.
Qed.

Lemma X2_repeated_update_changes_nothing_witness :
  let r := __init__ "127.0.0.1:5000" [(exemplo_vizinho, 1)] "10.0.1.0/24" 1 in
  routes_wf exemplo_anuncio /\
  fst (receive_update r exemplo_anuncio) = Ok success /\
  receive_update (snd (receive_update r exemplo_anuncio)) exemplo_anuncio
  = receive_update r exemplo_anuncio.
Proof.
  intros r.
  assert (H : routes_wf exemplo_anuncio).
  { intros items E. apply Some_eq in E. subst items.
    constructor; [intros [] | constructor]. }
  split; [exact H|]. split; [reflexivity|].
  exact (X2_repeated_update_changes_nothing r exemplo_anuncio H).
Defined.



(** X4.  A route entry without an integer cost (not an object, or an
    object whose cost is no number) makes [receive_update] raise when
    the loop reaches it: the routes before it have been applied and stay
    applied, the routes after it are never read.  The router left is the
    one the same advertisement cut before that entry leaves. *)
Theorem X4_bad_route_entry_stops_the_update_midway :
  forall (r : Router) (sender : string) (custo_link : Z)
         (pre post : PyDict.dict string json) (p : string) (bad : json),
    sender <> "" ->
    get string_dec (neighbors r) sender = Some custo_link ->
    (forall q i, In (q, i) pre -> exists c, info_cost i = Some c) ->
    info_cost bad = None ->
    let anuncio routes :=
      JObj [("sender_address", JStr sender); ("routing_table", JObj routes)] in
    receive_update r (anuncio pre)
    = (Ok success, snd (receive_update r (anuncio pre))) /\
    exists e,
      receive_update r (anuncio (pre ++ (p, bad) :: post))
      = (Raise e, snd (receive_update r (anuncio pre))).
Proof.
  intros r sender cl pre post p bad Hne Hcl Hv Hbad anuncio.
  assert (Hrun : forall routes,
    receive_update r (anuncio routes)
    = merged r (merge_routes cl sender routes (routing_table r))).
  { intros routes. unfold anuncio, merged.
    now apply (receive_update_neighbor r _ sender routes cl). }
  rewrite !Hrun.
  destruct (info_cost_none_raises bad Hbad) as (e & He).
  rewrite merge_routes_app by exact Hv. simpl. rewrite He.
  assert (Hnone : snd (merge_routes cl sender pre (routing_table r)) = None).
  { rewrite (merge_routes_snd cl sender pre _ []).
    clear Hrun. induction pre as [|[q i] pre IH]; simpl; [reflexivity|].
    destruct (Hv q i (or_introl eq_refl)) as (c & Hc).
    rewrite (novo_custo_info_cost cl i c Hc).
    rewrite (merge_routes_snd cl sender pre _ []).
    apply IH. intros q' i' H. apply (Hv q' i'). now right. }
  destruct (merge_routes cl sender pre (routing_table r)) as [t o].
  simpl in Hnone. subst o. simpl.
  split; [reflexivity|]. exists e. reflexivity.
Qed.

Lemma X4_bad_route_entry_stops_the_update_midway_witness :
  let r := __init__ "127.0.0.1:5000" [(exemplo_vizinho, 1)] "10.0.1.0/24" 1 in
  let good := JObj [("cost", JNum 3)] in
  let anuncio routes :=
    JObj [("sender_address", JStr exemplo_vizinho);
          ("routing_table", JObj routes)] in
  let request :=
    anuncio ([("10.0.2.0/24", good)]
               ++ ("10.0.3.0/24", JNum 7) :: [("10.0.4.0/24", good)]) in
  info_cost good = Some 3 /\ info_cost (JNum 7) = None /\
  tget (routing_table (snd (receive_update r request))) "10.0.2.0/24"
  = Some (mkEntry 4 exemplo_vizinho) /\
  tget (routing_table (snd (receive_update r request))) "10.0.4.0/24" = None /\
  exists e,
    receive_update r request
    = (Raise e, snd (receive_update r (anuncio [("10.0.2.0/24", good)]))).
Proof.
  intros r good anuncio request.
  split; [reflexivity|]. split; [reflexivity|].
  split; [reflexivity|]. split; [reflexivity|].
  refine (proj2 (X4_bad_route_entry_stops_the_update_midway
            r exemplo_vizinho 1 [("10.0.2.0/24", good)] [("10.0.4.0/24", good)]
            "10.0.3.0/24" (JNum 7) _ eq_refl _ eq_refl)).
  - discriminate.
  - intros q i [H|[]]. inversion H. now exists 3.
Defined.

(** ** The summarizer *)

(** X5.  On a table none of whose keys has two colons or more, the
    summarizer returns, and every entry of its result carries the cost and
    the next hop, both, of one entry of the table whose key is a network
    inside the covering prefix: the summarizer makes up neither a cost nor
    a next hop. *)
Theorem X5_summarized_entry_comes_from_a_member :
  forall t : table,
    no_ipv6 t ->
    exists out,
      summarize_table t = Some out /\
      forall k e, In (k, e) out ->
        exists s k0 e0 n0,
          k = str s /\ In (k0, e0) t /\ ip_network k0 = IPv4 n0 /\
          subnet_of n0 s = true /\
          cost e = cost e0 /\ next_hop e = next_hop e0.
Proof.
  intros t H6. rewrite (summarize_table_no_ipv6 t H6).
  destruct (summary_of_spec t) as (sm & out & Ecol & Erun & _).
  exists out. split; [exact Erun|].
  unfold summary_of in Erun. rewrite Ecol in Erun.
  apply Some_eq in Erun. subst out.
  intros k e Hin. apply build_table_In in Hin.
  destruct Hin as [[]|(s & Hs & Hk & He)].
  apply entry_of_member in He.
  destruct He as (n0 & e0 & Hin0 & Hsub & Hc & Hh).
  apply redes_obj_of_In in Hin0. destruct Hin0 as [[]|(k0 & Hk0 & Hp)].
  apply ip_network_IPv4 in Hp.
  exists s, k0, e0, n0. repeat split; assumption.
Qed.

Lemma X5_summarized_entry_comes_from_a_member_witness :
  no_ipv6 (routing_table roteador_aninhado) /\
  exists out,
    summarize_table (routing_table roteador_aninhado) = Some out /\
    forall k e, In (k, e) out ->
      exists k0 e0, In (k0, e0) (routing_table roteador_aninhado) /\
                    cost e = cost e0 /\ next_hop e = next_hop e0.
Proof.
  assert (H6 : no_ipv6 (routing_table roteador_aninhado))
    by (apply no_ipv6_forallb; reflexivity).
  split; [exact H6|].
  destruct (X5_summarized_entry_comes_from_a_member _ H6) as (out & E & H).
  exists out. split; [exact E|].
  intros k e Hin.
  destruct (H k e Hin) as (s & k0 & e0 & n0 & _ & Hin0 & _ & _ & Hc & Hh).
  exists k0, e0. split; [exact Hin0|]. split; [exact Hc | exact Hh].
Defined.

(** X6.  On a table none of whose keys has two colons or more, the keys
    of the summarized table are the texts of valid IPv4 networks, each
    parsing back to its network, no key twice, and any two different
    networks among them have no address in common. *)
Theorem X6_summarized_networks_are_disjoint :
  forall t : table,
    no_ipv6 t ->
    exists out,
      summarize_table t = Some out /\
      wf out /\
      (forall k, In k (keys out) ->
         exists s, Valid s /\ k = str s /\ ip_network k = IPv4 s) /\
      (forall n m, In n (prefixes out) -> In m (prefixes out) -> n <> m ->
                   disjoint n m /\ forall a, ~ (covers n a /\ covers m a)).
Proof.
  intros t H6. rewrite (summarize_table_no_ipv6 t H6).
  destruct (summary_of_spec t)
    as (sm & out & Ecol & Erun & Hv & Hkeys & Hpre & _).
  exists out. split; [exact Erun|].
  assert (Hsorted : StronglySorted before sm).
  { apply (collapse_before (keys (redes_obj_of t []))); [|exact Ecol].
    apply (redes_obj_spec t). }
  rewrite Forall_forall in Hv.
  split; [|split].
  - unfold summary_of in Erun. rewrite Ecol in Erun.
    apply Some_eq in Erun. subst out. apply build_table_wf. constructor.
  - intros k Hk. apply Hkeys in Hk. destruct Hk as (s & Hs & ->).
    exists s. split; [now apply Hv|]. split; [reflexivity|].
    apply ip_network_str. now apply Hv.
  - intros n m Hn Hm Hne. apply Hpre in Hn, Hm.
    assert (Hd : disjoint n m) by now apply (before_disjoint sm).
    split; [exact Hd|].
    apply disjoint_iff; [now apply Hv | now apply Hv | exact Hd].
Qed.

Lemma X6_summarized_networks_are_disjoint_witness :
  no_ipv6 (routing_table roteador_aninhado) /\
  exists out,
    summarize_table (routing_table roteador_aninhado) = Some out /\
    wf out /\
    forall k, In k (keys out) -> exists s, ip_network k = IPv4 s.
Proof.
  assert (H6 : no_ipv6 (routing_table roteador_aninhado))
    by (apply no_ipv6_forallb; reflexivity).
  split; [exact H6|].
  destruct (X6_summarized_networks_are_disjoint _ H6) as (out & E & W & H & _).
  exists out. split; [exact E|]. split; [exact W|].
  intros k Hk. destruct (H k Hk) as (s & _ & _ & Hs). now exists s.
Defined.

(** X7.  A table none of whose keys is a network ([ip_network] raises
    [ValueError] on each) is summarized to the empty table. *)
Theorem X7_no_network_key_gives_empty_summary :
  forall t : table,
    (forall k, In k (keys t) -> ip_network k = ValueError) ->
    summarize_table t = Some [].
Proof.
  intros t H. rewrite summarize_table_decided.
  - unfold summary_of. rewrite (redes_obj_of_none t []); [reflexivity|].
    intros k Hk. now apply ip_network_ValueError, H.
  - intros k Hk. rewrite (H k Hk). discriminate.
Qed.

Lemma X7_no_network_key_gives_empty_summary_witness :
  let r := __init__ "127.0.0.1:5000" [("127.0.0.1:5001", 1)] "rede-invalida" 1 in
  length (routing_table r) = 2%nat /\
  summarize_table (routing_table r) = Some [].
Proof.
  intros r. split; [reflexivity|].
  apply X7_no_network_key_gives_empty_summary.
  intros k [<-|[<-|[]]]; reflexivity.
Defined.

(** ** Construction, then one cycle of advertisements *)

(** X8.  A router constructed with an IPv4 network and neighbors whose
    addresses are no networks ([ip_network] raises [ValueError] on each,
    as on any text [ip:port] with one colon) posts, in its first cycle,
    one payload to each neighbor in order, and each payload carries one
    route: the administered network in canonical text, at cost 0 with the
    router as next hop (cost [INFINITY] for a neighbor that has the
    router's own address). *)
Theorem X8_first_cycle_advertises_own_network :
  forall (my_address : string) (neighbors : PyDict.dict string Z)
         (my_network : string) (update_interval : Z) (n : IPv4Network),
    ip_network my_network = IPv4 n ->
    (forall k, In k (keys neighbors) -> ip_network k = ValueError) ->
    let r := __init__ my_address neighbors my_network update_interval in
    summarize_table (routing_table r) = Some [(str n, mkEntry 0 my_address)] /\
    send_updates_to_neighbors r
    = Some (map (fun N =>
                   (N, mkPayload my_address
                         [(str n,
                           mkEntry (if String.eqb my_address N
                                    then INFINITY else 0) my_address)]))
                (keys neighbors)).
Proof.
  intros a ns net ui n Hn Hns r.
  assert (Hn4 : IPv4Network_of_string net = Some n) by now apply ip_network_IPv4.
  assert (Hns4 : forall k, In k (keys ns) -> IPv4Network_of_string k = None)
    by (intros k Hk; now apply ip_network_ValueError, Hns).
  assert (Vn : Valid n) by exact (IPv4Network_Valid net n Hn4).
  assert (Hent : entradas (routing_table r) = [(n, mkEntry 0 a)]).
  { unfold r, __init__. cbn [routing_table].
    rewrite entradas_add_neighbor_routes by exact Hns4.
    simpl. now rewrite Hn4. }
  assert (Hdec : forall k, In k (keys (routing_table r)) ->
                           ip_network k <> MaybeIPv6).
  { intros k Hk. unfold r, __init__ in Hk. cbn [routing_table] in Hk.
    apply add_neighbor_routes_keys in Hk. destruct Hk as [[E|[]]|Hk].
    - simpl in E. rewrite <- E, Hn. discriminate.
    - rewrite (Hns k Hk). discriminate. }
  assert (Hsum : summarize_table (routing_table r) = Some [(str n, mkEntry 0 a)]).
  { rewrite (summarize_table_decided _ Hdec).
    unfold summary_of. rewrite redes_obj_distinct.
    - rewrite Hent. cbn [keys map fst]. rewrite (collapse_single n Vn).
      cbn [build_table redes_contidas filter fst].
      rewrite (subnet_of_refl n Vn). reflexivity.
    - rewrite <- keys_entradas, Hent. constructor; [intros [] | constructor]. }
  split; [exact Hsum|].
  unfold send_updates_to_neighbors. cbn [Roteador.neighbors r __init__].
  clear Hns Hns4 Hent Hdec.
  induction (keys ns) as [|N l IH]; [reflexivity|].
  cbn [send_loop map]. rewrite IH. unfold advertisement. rewrite Hsum.
  cbn [poison_reverse map next_hop Roteador.my_address r __init__].
  destruct (String.eqb a N); reflexivity.
Qed.

Lemma X8_first_cycle_advertises_own_network_witness :
  let r := __init__ "127.0.0.1:5000" [("127.0.0.1:5001", 1)] "10.0.1.5/24" 1 in
  ip_network "10.0.1.5/24" = IPv4 (mkNet 167772416 24) /\
  str (mkNet 167772416 24) = "10.0.1.0/24" /\
  send_updates_to_neighbors r
  = Some [("127.0.0.1:5001",
           mkPayload "127.0.0.1:5000"
             [(str (mkNet 167772416 24), mkEntry 0 "127.0.0.1:5000")])].
Proof.
  intros r. split; [reflexivity|]. split; [reflexivity|].
  refine (proj2 (X8_first_cycle_advertises_own_network
            "127.0.0.1:5000" [("127.0.0.1:5001", 1)] "10.0.1.5/24" 1
            (mkNet 167772416 24) eq_refl _)).
  intros k [<-|[]]. reflexivity.
Defined.

(** ** From one router to the next *)

(** X9.  Every payload a router with a non-empty address posts is an
    advertisement its peers accept: a peer that has the sender among its
    neighbors answers success, without an exception, and relaxes each
    route of the payload by rules 3 to 5 with the cost the payload gives;
    destinations the payload does not name are untouched. *)
Theorem X9_posted_payload_is_accepted :
  forall (a b : Router) (posts : list (string * payload)) (N : string)
         (p : payload) (custo_link : Z),
    my_address a <> "" ->
    send_updates_to_neighbors a = Some posts ->
    In (N, p) posts ->
    get string_dec (neighbors b) (my_address a) = Some custo_link ->
    exists t',
      receive_update b (payload_to_json p) = (Ok success, with_table b t') /\
      (forall k e, In (k, e) (payload_table p) ->
         tget t' k
         = relaxed (my_address a) (Z.min (custo_link + cost e) INFINITY)
                   (tget (routing_table b) k)) /\
      (forall k, ~ In k (keys (payload_table p)) ->
                 tget t' k = tget (routing_table b) k).
Proof.
  intros a b posts N p cl Hne Hsend Hin Hcl.
  unfold send_updates_to_neighbors in Hsend.
  apply (send_loop_In a _ posts Hsend) in Hin. unfold advertisement in Hin.
  destruct (summarize_table (routing_table a)) as [out|] eqn:Es; [|discriminate].
  apply Some_eq in Hin. subst p. cbn [payload_table sender_address].
  assert (Hwf : wf out).
  { apply summarize_table_Some in Es. unfold summary_of in Es.
    destruct (collapse_addresses _) as [sm|]; [|discriminate].
    apply Some_eq in Es. subst out. apply build_table_wf. constructor. }
  set (tb := poison_reverse N out).
  set (items := map (fun item : string * RouteEntry =>
                       (fst item, entry_to_json (snd item))) tb).
  assert (Hkeys : keys items = keys tb).
  { unfold items, keys. rewrite map_map. reflexivity. }
  assert (Hwi : wf items).
  { unfold wf. rewrite Hkeys. unfold tb. now rewrite poison_reverse_keys. }
  assert (Hitems : forall k i, In (k, i) items ->
            exists e, In (k, e) tb /\ i = entry_to_json e).
  { intros k i H. apply in_map_iff in H. destruct H as ([k' e] & H1 & H2).
    inversion H1; subst. now exists e. }
  assert (Hv : forall k i, In (k, i) items -> exists c, info_cost i = Some c).
  { intros k i H. destruct (Hitems k i H) as (e & _ & ->). now exists (cost e). }
  destruct (merge_routes_valid cl (my_address a) items (routing_table b) Hwi Hv)
    as [Hnone Hrel].
  exists (fst (merge_routes cl (my_address a) items (routing_table b))).
  split; [|split].
  - unfold payload_to_json. cbn [payload_table sender_address]. fold tb items.
    rewrite (receive_update_neighbor b _ (my_address a) items cl);
      try reflexivity; try assumption.
    destruct (merge_routes cl (my_address a) items (routing_table b)) as [t o].
    simpl in Hnone. now subst o.
  - intros k e He.
    apply (Hrel k (entry_to_json e) (cost e)); [|reflexivity].
    unfold items. apply in_map_iff. now exists (k, e).
  - intros k Hk. apply merge_routes_frame. now rewrite Hkeys.
Qed.

Lemma X9_posted_payload_is_accepted_witness :
  exists posts p t',
    my_address roteador_b <> "" /\
    send_updates_to_neighbors roteador_b = Some posts /\
    In ("127.0.0.1:5000", p) posts /\
    get string_dec (neighbors roteador_a) (my_address roteador_b) = Some 1 /\
    receive_update roteador_a (payload_to_json p)
    = (Ok success, with_table roteador_a t') /\
    tget t' "10.0.2.0/24" = Some (mkEntry 1 "127.0.0.1:5001").
Proof.
  assert (Hne : my_address roteador_b <> "") by discriminate.
  assert (Hs : send_updates_to_neighbors roteador_b
               = Some [("127.0.0.1:5000",
                        mkPayload "127.0.0.1:5001"
                          [("10.0.2.0/24", mkEntry 0 "127.0.0.1:5001")])])
    by reflexivity.
  destruct (X9_posted_payload_is_accepted roteador_b roteador_a _
              "127.0.0.1:5000" _ 1 Hne Hs (or_introl eq_refl) eq_refl)
    as (t' & Hr & Hrel & _).
  eexists; exists (mkPayload "127.0.0.1:5001"
                     [("10.0.2.0/24", mkEntry 0 "127.0.0.1:5001")]), t'.
  split; [exact Hne|]. split; [exact Hs|]. split; [now left|].
  split; [reflexivity|]. split; [exact Hr|].
  rewrite (Hrel "10.0.2.0/24" (mkEntry 0 "127.0.0.1:5001") (or_introl eq_refl)).
  reflexivity.
Defined.

(* ================================================================== *)
(** * Properties of the CRC functions *)
(* ================================================================== *)

Import CrcSpec CrcFacts Crc16Facts.

(** ** [xor_bits] *)

(** X10.  On texts of 8-bit characters, [xor_bits a b] raises
    [IndexError] when [b] is shorter than [a]; otherwise it returns as
    many characters as [a] has, each of them 0 or 1, also where [a] and
    [b] hold characters other than 0 and 1. *)
Theorem X10_xor_bits_length_and_index_error :
  forall a b : list ascii,
    ((length b < length a)%nat -> Crc.xor_bits a b = PySeq.IndexError) /\
    ((length a <= length b)%nat ->
     exists s, Crc.xor_bits a b = PySeq.Ok s /\
               length s = length a /\ binary s).
Proof.
  intros a b. split.
  - apply xor_bits_short.
  - intros H. exists (xor_front a b). split; [now apply xor_bits_ok|].
    split; [apply xor_front_length | now apply xor_front_binary_le].
Qed.

(** X11.  On texts of 0 and 1, with [b] at least as long as [a],
    xor-ing [b] twice gives [a] back, and [a] xor-ed with itself is all
    zeros. *)
Theorem X11_xor_bits_twice_is_identity :
  forall a b : list ascii,
    binary a -> binary b -> (length a <= length b)%nat ->
    (exists s, Crc.xor_bits a b = PySeq.Ok s /\
               Crc.xor_bits s b = PySeq.Ok a) /\
    Crc.xor_bits a a = PySeq.Ok (PySeq.zeros (Z.of_nat (length a))).
Proof.
  intros a b Ha Hb Hl. split.
  - exists (xor_front a b). split; [now apply xor_bits_ok|].
    rewrite xor_bits_ok by (rewrite xor_front_length; exact Hl).
    f_equal. now apply xor_front_involutive.
  - rewrite xor_bits_ok by lia. f_equal. now apply xor_front_self.
Qed.

Lemma X11_xor_bits_twice_is_identity_witness :
  let a := list_ascii_of_string "1101" in
  let b := list_ascii_of_string "10011" in
  binary a /\ binary b /\
  Crc.xor_bits a b = PySeq.Ok (list_ascii_of_string "0100") /\
  (exists s, Crc.xor_bits a b = PySeq.Ok s /\ Crc.xor_bits s b = PySeq.Ok a).
Proof.
  intros a b.
  assert (Ha : binary a) by (repeat constructor; auto).
  assert (Hb : binary b) by (repeat constructor; auto).
  split; [exact Ha|]. split; [exact Hb|]. split; [reflexivity|].
  refine (proj1 (X11_xor_bits_twice_is_identity a b Ha Hb _)).
  simpl. lia.
Defined.

(** ** [calcular_crc_manual] *)



(** X13.  With a generator of one character, where [r] is 0, the
    function of [codigo.py] never raises and returns the data themselves,
    not an empty text: the slice [[-r:]] is then the whole list.  With an
    empty generator, where [r] is -1, it returns the data without their
    first character. *)
Theorem X13_generator_of_one_character :
  forall (dados : list ascii) (g0 : ascii),
    Crc.calcular_crc_manual dados [g0] = PySeq.Ok dados /\
    Crc.calcular_crc_manual dados [] = PySeq.Ok (tl dados).
Proof.
  intros dados g0.
  assert (E1 : Crc.division_loop [g0] 0 (seq 0 (length dados))
                 (dados ++ PySeq.zeros 0) = PySeq.Ok dados).
  { change (PySeq.zeros 0) with (@nil ascii). rewrite app_nil_r.
    apply division_loop_single. }
  assert (E2 : Crc.division_loop [] (-1) (seq 0 (length dados))
                 (dados ++ PySeq.zeros (-1)) = PySeq.Ok dados).
  { change (PySeq.zeros (-1)) with (@nil ascii). rewrite app_nil_r.
    apply division_loop_nil. intros i Hi. apply in_seq in Hi. lia. }
  assert (Etl : PySeq.slice_from dados 1 = tl dados) by now destruct dados.
  unfold Crc.calcular_crc_manual.
  change (Z.of_nat (length [g0]) - 1) with 0.
  change (Z.of_nat (length (@nil ascii)) - 1) with (-1).
  rewrite E1, E2. cbn [PySeq.bind Z.opp].
  rewrite Etl. split; reflexivity.
Qed.

(** X14.  On data and a generator of 0 and 1, the generator of two
    characters or more: the CRC of the data followed by their CRC is all
    zeros, which is the check a receiver makes. *)
Theorem X14_data_followed_by_crc_has_crc_zero :
  forall dados gerador : list ascii,
    binary dados -> binary gerador -> (2 <= length gerador)%nat ->
    exists crc,
      Crc.calcular_crc_manual dados gerador = PySeq.Ok crc /\
      Crc.calcular_crc_manual (dados ++ crc) gerador
      = PySeq.Ok (PySeq.zeros (Z.of_nat (length gerador) - 1)).
Proof.
  intros dados g Hd Hg H.
  destruct (calcular_crc_manual_ok dados g H)
    as (g0 & gt & Eg & Hl & _ & Ez & E).
  eexists. split; [exact E|].
  destruct (calcular_crc_manual_ok
              (dados ++ remainder gt (length dados)
                          (dados ++ repeat "0"%char (length gt))) g H)
    as (g0' & gt' & Eg' & _ & _ & _ & E').
  rewrite Eg in Eg'. inversion Eg'; subst g0' gt'. rewrite E', Ez.
  f_equal. rewrite length_app, remainder_length, length_app, repeat_length.
  replace (length dados + length gt - length dados)%nat with (length gt)
    by lia.
  apply remainder_check; [|exact Hd].
  rewrite Eg in Hg. now inversion Hg.
Qed.

Lemma X14_data_followed_by_crc_has_crc_zero_witness :
  let dados := list_ascii_of_string "1101011111" in
  let gerador := list_ascii_of_string "10011" in
  binary dados /\ binary gerador /\
  exists crc,
    Crc.calcular_crc_manual dados gerador = PySeq.Ok crc /\
    Crc.calcular_crc_manual (dados ++ crc) gerador
    = PySeq.Ok (list_ascii_of_string "0000").
Proof.
  intros dados gerador.
  assert (Hd : binary dados) by (repeat constructor; auto).
  assert (Hg : binary gerador) by (repeat constructor; auto).
  split; [exact Hd|]. split; [exact Hg|].
  apply (X14_data_followed_by_crc_has_crc_zero dados gerador Hd Hg).
  simpl. lia.
Defined.

(** X15.  On data of 0 and 1 of one length, and a generator of 0 and 1
    of two characters or more: the CRC of [xor_bits a b] is [xor_bits] of
    the CRC of [a] and the CRC of [b]. *)
Theorem X15_crc_of_xor_is_xor_of_crcs :
  forall a b gerador : list ascii,
    binary a -> binary b -> binary gerador ->
    length a = length b -> (2 <= length gerador)%nat ->
    exists x ca cb cx,
      Crc.xor_bits a b = PySeq.Ok x /\
      Crc.calcular_crc_manual a gerador = PySeq.Ok ca /\
      Crc.calcular_crc_manual b gerador = PySeq.Ok cb /\
      Crc.calcular_crc_manual x gerador = PySeq.Ok cx /\
      Crc.xor_bits ca cb = PySeq.Ok cx.
Proof.
  intros a b g Ha Hb Hg Hl H.
  destruct (calcular_crc_manual_ok a g H) as (g0 & gt & Eg & _ & _ & _ & Ea).
  destruct (calcular_crc_manual_ok b g H) as (g1 & gt1 & Eg1 & _ & _ & _ & Eb).
  destruct (calcular_crc_manual_ok (xor_front a b) g H)
    as (g2 & gt2 & Eg2 & _ & _ & _ & Ex).
  rewrite Eg in Eg1, Eg2. inversion Eg1; inversion Eg2; subst g1 gt1 g2 gt2.
  assert (Hgt : binary gt) by (rewrite Eg in Hg; now inversion Hg).
  set (z := repeat "0"%char (length gt)) in *.
  assert (Hz : binary z).
  { unfold z. clear. induction (length gt); simpl; constructor; auto. }
  exists (xor_front a b). do 3 eexists.
  split; [apply xor_bits_ok; lia|].
  split; [exact Ea|]. split; [exact Eb|]. split; [exact Ex|].
  rewrite xor_bits_ok
    by (rewrite !remainder_length, !length_app; lia).
  f_equal. rewrite xor_front_length, <- Hl at 1.
  rewrite <- remainder_linear;
    try (apply Forall_app; split; assumption); try assumption.
  - rewrite Hl. f_equal. rewrite xor_front_app2 by exact Hl.
    f_equal. unfold z. apply xor_front_zeros_r. exact Hz.
  - rewrite !length_app. lia.
Qed.

Lemma X15_crc_of_xor_is_xor_of_crcs_witness :
  let a := list_ascii_of_string "110101" in
  let b := list_ascii_of_string "011100" in
  let gerador := list_ascii_of_string "1011" in
  binary a /\ binary b /\ binary gerador /\
  exists x ca cb cx,
    Crc.xor_bits a b = PySeq.Ok x /\
    Crc.calcular_crc_manual a gerador = PySeq.Ok ca /\
    Crc.calcular_crc_manual b gerador = PySeq.Ok cb /\
    Crc.calcular_crc_manual x gerador = PySeq.Ok cx /\
    Crc.xor_bits ca cb = PySeq.Ok cx.
Proof.
  intros a b gerador.
  assert (Ha : binary a) by (repeat constructor; auto).
  assert (Hb : binary b) by (repeat constructor; auto).
  assert (Hg : binary gerador) by (repeat constructor; auto).
  split; [exact Ha|]. split; [exact Hb|]. split; [exact Hg|].
  apply (X15_crc_of_xor_is_xor_of_crcs a b gerador Ha Hb Hg eq_refl).
  simpl. lia.
Defined.

(** ** [crc16_modbus_py] *)

(** X17.  The result of [crc16_modbus_py] is a 16-bit value, from 0 to
    65535, on every sequence of bytes; on no byte it is 0xFFFF. *)
Theorem X17_crc16_is_a_16_bit_value :
  forall data : list Byte.byte,
    0 <= BenchmarkCrc.crc16_modbus_py data <= 65535 /\
    BenchmarkCrc.crc16_modbus_py [] = 65535.
Proof.
  intros data. split; [|reflexivity].
  pose proof (crc16_loop_range data 65535 ltac:(lia)) as H.
  unfold BenchmarkCrc.crc16_modbus_py.
  change 0xFFFF with 65535. change (2 ^ 16) with 65536 in H. lia.
Qed.

(** X18.  The CRC of a sequence of bytes has a low byte and a high byte,
    and the CRC of the sequence followed by these two bytes, low byte
    first, is 0. *)
Theorem X18_crc16_of_data_and_crc_is_zero :
  forall data : list Byte.byte,
    (exists lo hi : Byte.byte,
        low_high (BenchmarkCrc.crc16_modbus_py data) lo hi) /\
    (forall lo hi : Byte.byte,
        low_high (BenchmarkCrc.crc16_modbus_py data) lo hi ->
        BenchmarkCrc.crc16_modbus_py (data ++ [lo; hi]) = 0).
Proof.
  intros data. split.
  - apply low_high_exists. unfold BenchmarkCrc.crc16_modbus_py.
    apply crc16_loop_range. change 0xFFFF with 65535. lia.
  - intros lo hi [Hlo Hhi]. unfold BenchmarkCrc.crc16_modbus_py in *.
    rewrite crc16_loop_app.
    set (crc := BenchmarkCrc.crc16_loop data 0xFFFF) in *.
    cbn [BenchmarkCrc.crc16_loop]. rewrite Hlo, bit_loop_low_byte, Hhi.
    rewrite Z.lxor_nilpotent. apply bit_loop_zero.
Qed.

Lemma X18_crc16_of_data_and_crc_is_zero_witness :
  let data := [Byte.x31; Byte.x32; Byte.x33; Byte.x34; Byte.x35;
               Byte.x36; Byte.x37; Byte.x38; Byte.x39] in
  BenchmarkCrc.crc16_modbus_py data = 19255 /\
  low_high (BenchmarkCrc.crc16_modbus_py data) Byte.x37 Byte.x4b /\
  BenchmarkCrc.crc16_modbus_py (data ++ [Byte.x37; Byte.x4b]) = 0.
Proof.
  intros data.
  assert (H : low_high (BenchmarkCrc.crc16_modbus_py data) Byte.x37 Byte.x4b)
    by (split; vm_compute; reflexivity).
  split; [vm_compute; reflexivity|]. split; [exact H|].
  exact (proj2 (X18_crc16_of_data_and_crc_is_zero data) Byte.x37 Byte.x4b H).
Defined.
